(** * Exchange-rate resolution of [src/server.js]: cache, ordered provider
      fallback, degraded cache, hard failure

    The development embeds [exchangeRateCache], [EXCHANGE_RATE_APIS],
    [fetchExchangeRate] and the [GET /api/exchange-rate] handler of
    [src/src/server.js] and proves the properties the specification states
    about them.

    - JavaScript numbers are IEEE-754 binary64 values, modelled with the
      Standard Library's [spec_float] at precision 53 and exponent bound
      1024, so that [NaN], the infinities and the rounding done by
      [toFixed] and [parseFloat] are the real ones.
    - The cache [exchangeRateCache.data] is a finite map from pair keys to
      entries; [Date.now()] readings are integers (milliseconds).
    - The network is an input: for each request that settles it says how
      lines 232-247 complete (a rejected promise, a thrown exception, or
      the value [api.parse(data, to)] evaluates to).
    - Effects (the cache, the requests made, the cache writes) are threaded
      through a small state-and-exception monad.
    - [fetchExchangeRate] is [async]: it is also given as a coroutine
      ([start], [resume]) run by a schedule of calls and replies, which
      agrees with the monadic form when a call is run alone and all its
      requests settle. Calls that overlap, and requests that never settle
      (the code sets no timeout), are schedules.

    The second part embeds the helpers of the server ([escapeXml],
    [sanitizeColor], [parseNumber], [clampInt], [clampFloat],
    [resolveGradientAngle]), the colours of the ring, the options of the QR
    code, the numbers of the badge, the calculator module and its two
    [POST] handlers; strings are lists of UTF-16 code units there. *)

From Stdlib Require Import ZArith QArith Qabs Lia Bool.
From Stdlib Require Import Floats.SpecFloat.
From stdpp Require Import gmap strings list.

Local Open Scope Z_scope.

(** ** JavaScript numbers *)

Module Number.

Definition prec : Z := 53.
Definition emax : Z := 1024.

(** A Number: [S754_finite s m e] is [(-1)^s * m * 2^e]. *)
Definition float : Type := spec_float.

Definition pos_zero : float := S754_zero false.
Definition pos_infinity : float := S754_infinity false.
Definition NaN : float := S754_nan.

(** Well-formed binary64 values (canonical mantissa and exponent). *)
Definition valid (x : float) : bool := valid_binary prec emax x.

(** [Number::lessThan(x, y)] is true; with a [NaN] operand it is not. *)
Definition lessThan (x y : float) : bool := SFltb x y.

Definition isFinite (x : float) : bool :=
  match x with
  | S754_zero _ | S754_finite _ _ _ => true
  | S754_infinity _ | S754_nan => false
  end.

(** The Number value of the decimal [num / den]: the nearest binary64
    value, ties to even, as for a numeric literal, [JSON.parse] and
    [parseFloat]. *)
Definition of_fraction (neg : bool) (num : N) (den : positive) : float :=
  match num with
  | N0 => S754_zero neg
  | Npos p =>
      let '(q, e, l) := SFdiv_core_binary prec emax (Zpos p) 0 (Zpos den) 0 in
      binary_round_aux prec emax neg q e l
  end.

(** The mathematical value of a finite Number, as a rational. *)
Definition magnitude (m : positive) (e : Z) : Q :=
  if 0 <=? e then inject_Z (Zpos m * 2 ^ e)
  else Qmake (Zpos m) (Z.to_pos (2 ^ (- e))).

Definition to_Q (x : float) : option Q :=
  match x with
  | S754_zero _ => Some 0%Q
  | S754_finite s m e => Some (if s then Qopp (magnitude m e) else magnitude m e)
  | S754_infinity _ | S754_nan => None
  end.

(** *** [Number.prototype.toFixed(4)] followed by [parseFloat] *)

(** The text [toFixed] returns, kept structured: a fixed-point numeral is
    given by its sign and the integer [n] whose last four digits are the
    fraction digits; for a finite value of magnitude at least [10^21]
    [toFixed] returns [Number::toString] of the value itself. *)
Inductive numeral :=
| TextNaN                                  (* "NaN" *)
| TextInfinity (neg : bool)                (* "Infinity", "-Infinity" *)
| TextFixed (neg : bool) (n : N)           (* e.g. "7.2346" is [TextFixed false 72346] *)
| TextToString (x : float).                (* e.g. "1e+21" *)

(** Step 10 of [toFixed]: the integer [n] for which [n / 10^4 - x] is as
    close to zero as possible, the larger one when there are two; here
    [x = m * 2^e > 0]. *)
Definition nearest_scaled (m : positive) (e : Z) : Z :=
  if 0 <=? e then Zpos m * 2 ^ e * 10 ^ 4
  else (2 * (Zpos m * 10 ^ 4) + 2 ^ (- e)) / (2 * 2 ^ (- e)).

(** [x >= 10^21] for [x = m * 2^e]. *)
Definition at_least_1e21 (m : positive) (e : Z) : bool :=
  if 0 <=? e then 10 ^ 21 <=? Zpos m * 2 ^ e
  else 10 ^ 21 * 2 ^ (- e) <=? Zpos m.

Definition toFixed4 (x : float) : numeral :=
  match x with
  | S754_nan => TextNaN
  | S754_infinity s => TextInfinity s
  | S754_zero _ => TextFixed false 0
  | S754_finite s m e =>
      if at_least_1e21 m e then TextToString x
      else TextFixed s (Z.to_N (nearest_scaled m e))
  end.

(** [parseFloat] on the texts [toFixed] produces. [Number::toString]
    prints a finite value with enough digits to read it back unchanged. *)
Definition parseFloat (t : numeral) : float :=
  match t with
  | TextNaN => S754_nan
  | TextInfinity s => S754_infinity s
  | TextFixed neg n => of_fraction neg n (10 ^ 4)
  | TextToString x => x
  end.

(** The characters of a fixed-point numeral, for reading examples. *)
Definition digit (d : N) : string :=
  String (Ascii.ascii_of_N (48 + d)) EmptyString.

Fixpoint digits (fuel : nat) (n : N) : string :=
  match fuel with
  | O => EmptyString
  | S fuel' =>
      if (n <? 10)%N then digit n
      else digits fuel' (n / 10)%N +:+ digit (n mod 10)%N
  end.

Definition render (t : numeral) : option string :=
  match t with
  | TextNaN => Some "NaN"%string
  | TextInfinity neg => Some ((if neg then "-" else "") +:+ "Infinity")%string
  | TextFixed neg n =>
      let whole := (n / 10 ^ 4)%N in
      let frac := (n mod 10 ^ 4)%N in
      Some ((if neg then "-" else "") +:+ digits (S (N.to_nat (N.log2 whole))) whole
            +:+ "." +:+ digit (frac / 1000)%N +:+ digit (frac / 100 mod 10)%N
            +:+ digit (frac / 10 mod 10)%N +:+ digit (frac mod 10)%N)%string
  | TextToString _ => None
  end.

End Number.

Import Number.

(** ** JavaScript values and exceptions *)

(** What can be thrown inside [fetchExchangeRate]. *)
Inductive js_error :=
| RequestError      (* the 'error' event of [https.get]: [reject] at line 244 *)
| ParseFailed       (* [JSON.parse] threw: [reject(new Error(...))] at line 241 *)
| TypeError         (* reading a property of [null], calling a non-function, ... *)
| NoRateAvailable.  (* the [Error] thrown at line 270 *)

Inductive completion (A : Type) :=
| Normal (a : A)
| Throw (e : js_error).
Arguments Normal {A} a.
Arguments Throw {A} e.

(** The value [api.parse(data, to)], that is [data.rates?.[to]], evaluates
    to. The function looks at it through [rate && rate > 0] and
    [rate.toFixed] only, so a string is kept as whether it is empty and
    what [StringToNumber] makes of it, and an object (plain object, array
    or function) as what [ToNumber] makes of it, which can throw when its
    [valueOf] and [toString] are shadowed by members that are not
    callable. *)
Inductive jsval :=
| VUndefined
| VNull
| VBool (b : bool)
| VNumber (x : float)
| VString (empty : bool) (num : float)
| VObject (num : completion float).

Definition ToBoolean (v : jsval) : bool :=
  match v with
  | VUndefined | VNull => false
  | VBool b => b
  | VNumber (S754_zero _) | VNumber S754_nan => false
  | VNumber _ => true
  | VString empty _ => negb empty
  | VObject _ => true
  end.

Definition ToNumber (v : jsval) : completion float :=
  match v with
  | VUndefined => Normal NaN
  | VNull => Normal pos_zero
  | VBool b => Normal (if b then of_fraction false 1 1 else pos_zero)
  | VNumber x => Normal x
  | VString _ num => Normal num
  | VObject num => num
  end.

(** [v > 0] *)
Definition greater_than_zero (v : jsval) : completion bool :=
  match ToNumber v with
  | Normal n => Normal (lessThan pos_zero n)
  | Throw e => Throw e
  end.

(** The condition of the [if] at line 248: [rate && rate > 0]. *)
Definition rate_guard (rate : jsval) : completion bool :=
  if ToBoolean rate then greater_than_zero rate else Normal false.

(** [parseFloat(rate.toFixed(4))] at line 251: only a Number has a
    callable [toFixed]. *)
Definition rounded_rate (rate : jsval) : completion float :=
  match rate with
  | VNumber x => Normal (parseFloat (toFixed4 x))
  | _ => Throw TypeError
  end.

(** ** The cache and the provider list *)

(** An entry of [exchangeRateCache.data]. *)
Record CacheEntry := {
  rate : float;
  timestamp : Z;
  source : string
}.

(** What [fetchExchangeRate] returns: [{ ...entry, fromCache }]. *)
Record RateResult := {
  entry : CacheEntry;
  fromCache : bool
}.

Module exchangeRateCache.
(** [duration: 60 * 60 * 1000] *)
Definition duration : Z := 60 * 60 * 1000.
End exchangeRateCache.

(** A provider. Its [parse] member is [(data, to) => data.rates?.[to]] for
    each of the three; what it evaluates to is part of [transport] below. *)
Record Api := {
  name : string;
  url : string -> string -> string
}.

Definition EXCHANGE_RATE_APIS : list Api := [
  {| name := "exchangerate-api.com";
     url := fun from _ => "https://api.exchangerate-api.com/v4/latest/" +:+ from |};
  {| name := "open.er-api.com";
     url := fun from _ => "https://open.er-api.com/v6/latest/" +:+ from |};
  {| name := "api.frankfurter.app";
     url := fun from to => "https://api.frankfurter.app/latest?from=" +:+ from +:+ "&to=" +:+ to |}
]%string.

(** The network as one call whose requests all settle sees it: how lines
    232-247 complete for a request to [url] whose body is searched for
    [to]: the promise is rejected ([RequestError], [ParseFailed]),
    [api.parse] throws ([TypeError], the body is [null]), or [api.parse]
    returns a value. A request that never settles has no such outcome; it
    is a call left without [Reply] in a schedule, below. *)
Definition transport : Type := string -> string -> completion jsval.

(** ** State, events and the monad *)

Inductive event :=
| Requested (api_name : string) (target : string)
| CacheWrite (key : string) (stored : CacheEntry).

(** The memory of the process: [cache] is [exchangeRateCache.data]; [events]
    records what the calls did, for the statements that speak of it (the
    providers asked, the entries written). *)
Record state := {
  cache : gmap string CacheEntry;
  events : list event            (* oldest first *)
}.

Definition M (A : Type) : Type := state -> completion A * state.

Definition ret {A} (a : A) : M A := fun st => (Normal a, st).
Definition throw {A} (e : js_error) : M A := fun st => (Throw e, st).
Definition bind {A B} (m : M A) (k : A -> M B) : M B :=
  fun st =>
    match m st with
    | (Normal a, st') => k a st'
    | (Throw e, st') => (Throw e, st')
    end.
Definition try_catch {A} (body : M A) (handler : js_error -> M A) : M A :=
  fun st =>
    match body st with
    | (Normal a, st') => (Normal a, st')
    | (Throw e, st') => handler e st'
    end.
Definition lift {A} (c : completion A) : M A := fun st => (c, st).
Definition read_cache (key : string) : M (option CacheEntry) :=
  fun st => (Normal (cache st !! key), st).
Definition emit (ev : event) : M unit :=
  fun st => (Normal tt, {| cache := cache st; events := events st ++ [ev] |}).
(** [exchangeRateCache.data[key] = e] *)
Definition write_cache (key : string) (e : CacheEntry) : M unit :=
  fun st => (Normal tt, {| cache := <[key := e]> (cache st);
                          events := events st ++ [CacheWrite key e] |}).

Declare Scope js_scope.
Delimit Scope js_scope with js.
Notation "'let*' x := m 'in' k" := (bind m (fun x => k))
  (at level 10, x name, m at level 100, k at level 200) : js_scope.
Local Open Scope js_scope.

(** ** [fetchExchangeRate] *)

(** [`${from}-${to}`] *)
Definition cacheKey (from to : string) : string := (from +:+ "-" +:+ to)%string.

(** [cached && (now - cached.timestamp < exchangeRateCache.duration)]: the
    entry when the condition holds. *)
Definition still_valid (now : Z) (cached : option CacheEntry) : option CacheEntry :=
  match cached with
  | Some c => if now - timestamp c <? exchangeRateCache.duration then Some c else None
  | None => None
  end.

(** Lines 247-257, once the awaited promise has settled with [reply];
    [Some r] stands for [return r], [None] for reaching the end of the
    [try] block. *)
Definition on_reply (api : Api) (from to : string) (now : Z)
    (reply : completion jsval) : M (option RateResult) :=
  let* rate := lift reply in
  let* ok := lift (rate_guard rate) in
  if ok : bool then
    let* r := lift (rounded_rate rate) in
    let result := {| rate := r; timestamp := now; source := name api |} in
    let* _ := write_cache (cacheKey from to) result in
    ret (Some {| entry := result; fromCache := false |})
  else ret None.

(** The body of the [try] block, lines 232-257. *)
Definition try_provider (api : Api) (from to : string) (now : Z)
    (fetch : transport) : M (option RateResult) :=
  let* _ := emit (Requested (name api) (url api from to)) in
  on_reply api from to now (fetch (url api from to) to).

(** One iteration of the loop, lines 231-261: the [catch] block logs the
    failure and continues. *)
Definition iteration (api : Api) (from to : string) (now : Z)
    (fetch : transport) : M (option RateResult) :=
  try_catch (try_provider api from to now fetch) (fun _ => ret None).

(** The [for ... of] loop, lines 230-262. *)
Fixpoint provider_loop (apis : list Api) (from to : string) (now : Z)
    (fetch : transport) : M (option RateResult) :=
  match apis with
  | [] => ret None
  | api :: rest =>
      let* returned := iteration api from to now fetch in
      match returned with
      | Some r => ret (Some r)
      | None => provider_loop rest from to now fetch
      end
  end.

(** Lines 264-270, after the loop. *)
Definition after_loop (cached : option CacheEntry) : M RateResult :=
  match cached with
  | Some c => ret {| entry := c; fromCache := true |}
  | None => throw NoRateAvailable
  end.

Definition fetchExchangeRate_on (apis : list Api) (from to : string) (now : Z)
    (fetch : transport) : M RateResult :=
  let* cached := read_cache (cacheKey from to) in
  match still_valid now cached with
  | Some c => ret {| entry := c; fromCache := false |}
  | None =>
      let* returned := provider_loop apis from to now fetch in
      match returned with
      | Some r => ret r
      | None => after_loop cached
      end
  end.

(** [fetchExchangeRate(from, to)] called when [Date.now()] reads [now]. *)
Definition fetchExchangeRate : string -> string -> Z -> transport -> M RateResult :=
  fetchExchangeRate_on EXCHANGE_RATE_APIS.

(** ** [GET /api/exchange-rate] *)

(** A member of [req.query]: a string, or an array or nested object built
    by the query-string parser. *)
Inductive query_value :=
| QString (s : string)
| QComposite.

Definition supportedCurrencies : list string :=
  ["USD"; "CNY"; "EUR"; "GBP"; "JPY"; "KRW"]%string.

(** [supportedCurrencies.includes(v)] *)
Definition includes (l : list string) (v : query_value) : bool :=
  match v with
  | QString s => bool_decide (s ∈ l)
  | QComposite => false
  end.

(** A destructuring default, [{ from = 'USD' }]: used when the member is
    [undefined]. *)
Definition with_default (d : string) (q : option query_value) : query_value :=
  match q with
  | Some v => v
  | None => QString d
  end.

Record rate_data := {
  base : string;
  target : string;
  data_rate : float;
  data_timestamp : Z;        (* milliseconds, printed by [toISOString] *)
  data_source : string;
  data_fromCache : bool
}.

Inductive http_response :=
| Json200 (data : rate_data)            (* [{ success: true, data }] *)
| Json400                               (* unsupported currency *)
| Json500 (error : js_error).           (* [{ success: false, error }] *)

(** The handler, lines 274-323, for a request whose query has the members
    [q_from] and [q_to] ([None] when omitted), served when the clock reads
    [now]. *)
Definition exchange_rate_handler (q_from q_to : option query_value) (now : Z)
    (fetch : transport) (st : state) : http_response * state :=
  let from := with_default "USD" q_from in
  let to := with_default "CNY" q_to in
  if negb (includes supportedCurrencies from) || negb (includes supportedCurrencies to)
  then (Json400, st)
  else
    match from, to with
    | QString from, QString to =>
        if String.eqb from to then
          (Json200 {| base := from; target := to; data_rate := of_fraction false 1 1;
                      data_timestamp := now; data_source := "direct";
                      data_fromCache := false |}, st)
        else
          match fetchExchangeRate from to now fetch st with
          | (Normal result, st') =>
              (Json200 {| base := from; target := to; data_rate := rate (entry result);
                          data_timestamp := timestamp (entry result);
                          data_source := source (entry result);
                          data_fromCache := fromCache result |}, st')
          | (Throw e, st') => (Json500 e, st')
          end
    | _, _ => (Json400, st)      (* not reached: [includes] rejects composites *)
    end.

(** ** Calls in sequence and calls that overlap *)

Record call := {
  call_from : string;
  call_to : string;
  call_now : Z;               (* what [Date.now()] reads when the call starts *)
  call_fetch : transport
}.

(** Calls served one after the other, each one finished before the next
    starts. *)
Definition serve (calls : list call) (st : state) : state :=
  fold_left
    (fun st c => snd (fetchExchangeRate (call_from c) (call_to c) (call_now c)
                                        (call_fetch c) st))
    calls st.

(** [fetchExchangeRate] is an [async] function: it runs until its first
    [await], and goes on when the awaited promise settles; other calls can
    run in between. A call suspended at line 233 remembers its locals. *)
Record suspended := {
  s_from : string;
  s_to : string;
  s_now : Z;
  s_cached : option CacheEntry;
  s_api : Api;                (* the provider whose answer is awaited *)
  s_rest : list Api           (* the providers after it *)
}.

Inductive progress :=
| Settled (c : completion RateResult)
| Awaiting (s : suspended).

(** Entering the loop with [apis] left: the request of the next provider is
    sent and the call suspends; with none left lines 264-270 run. *)
Definition next_request (apis : list Api) (from to : string) (now : Z)
    (cached : option CacheEntry) (st : state) : progress * state :=
  match apis with
  | [] => let '(c, st') := after_loop cached st in (Settled c, st')
  | api :: rest =>
      (Awaiting {| s_from := from; s_to := to; s_now := now; s_cached := cached;
                   s_api := api; s_rest := rest |},
       snd (emit (Requested (name api) (url api from to)) st))
  end.

(** Lines 217-233: from the call to its first [await]. *)
Definition start (from to : string) (now : Z) (st : state) : progress * state :=
  let cached := cache st !! cacheKey from to in
  match still_valid now cached with
  | Some c => (Settled (Normal {| entry := c; fromCache := false |}), st)
  | None => next_request EXCHANGE_RATE_APIS from to now cached st
  end.

(** The awaited promise settles with [reply]: the rest of the iteration,
    then the next request. *)
Definition resume (s : suspended) (reply : completion jsval) (st : state)
    : progress * state :=
  match try_catch (on_reply (s_api s) (s_from s) (s_to s) (s_now s) reply)
                  (fun _ => ret None) st with
  | (Normal (Some r), st') => (Settled (Normal r), st')
  | (Normal None, st') =>
      next_request (s_rest s) (s_from s) (s_to s) (s_now s) (s_cached s) st'
  | (Throw e, st') => (Settled (Throw e), st')
  end.

(** A call run alone: every reply comes from [fetch] at once. *)
Fixpoint drive (fuel : nat) (fetch : transport) (p : progress * state)
    : option (completion RateResult * state) :=
  match p with
  | (Settled c, st) => Some (c, st)
  | (Awaiting s, st) =>
      match fuel with
      | O => None
      | S fuel' =>
          drive fuel' fetch
                (resume s (fetch (url (s_api s) (s_from s) (s_to s)) (s_to s)) st)
      end
  end.

(** The process serving several requests: what happens, in order. *)
Inductive action :=
| Call (id : nat) (from to : string) (now : Z)
| Reply (id : nat) (reply : completion jsval).

Record server := {
  shared : state;
  waiting : gmap nat suspended;
  answered : list (nat * completion RateResult)
}.

Definition settle (id : nat) (p : progress * state) (sv : server) : server :=
  match p with
  | (Settled c, st') =>
      {| shared := st'; waiting := delete id (waiting sv);
         answered := answered sv ++ [(id, c)] |}
  | (Awaiting s, st') =>
      {| shared := st'; waiting := <[id := s]> (waiting sv);
         answered := answered sv |}
  end.

Definition perform (sv : server) (a : action) : server :=
  match a with
  | Call id from to now => settle id (start from to now (shared sv)) sv
  | Reply id reply =>
      match waiting sv !! id with
      | Some s => settle id (resume s reply (shared sv)) sv
      | None => sv
      end
  end.

Definition run_schedule (acts : list action) (sv : server) : server :=
  fold_left perform acts sv.

(** The clock readings of the calls of a schedule, in the order the calls
    are made. *)
Definition call_times (acts : list action) : list Z :=
  flat_map (fun a => match a with Call _ _ _ now => [now] | Reply _ _ => [] end) acts.

(** ** Reading the event log *)

(** The providers requested, oldest first. *)
Definition requested (evs : list event) : list string :=
  flat_map (fun ev => match ev with Requested n _ => [n] | CacheWrite _ _ => [] end) evs.

(** The entries stored under [key], oldest first. *)
Definition writes_for (key : string) (evs : list event) : list CacheEntry :=
  flat_map (fun ev => match ev with
                      | CacheWrite k e => if String.eqb k key then [e] else []
                      | Requested _ _ => []
                      end) evs.

Definition write_times (key : string) (evs : list event) : list Z :=
  map timestamp (writes_for key evs).

Fixpoint nondecreasing (l : list Z) : bool :=
  match l with
  | [] => true
  | x :: rest =>
      match rest with
      | [] => true
      | y :: _ => (x <=? y) && nondecreasing rest
      end
  end.

(** What one iteration makes of a reply: the rate it stores, if it accepts
    the reply. *)
Definition accepted_rate (reply : completion jsval) : option float :=
  match reply with
  | Normal (VNumber x) =>
      if lessThan pos_zero x then Some (parseFloat (toFixed4 x)) else None
  | _ => None
  end.

(** No provider of [apis] gives an acceptable rate. *)
Definition all_rejected (from to : string) (fetch : transport) (apis : list Api) : Prop :=
  forall a, a ∈ apis -> accepted_rate (fetch (url a from to) to) = None.

Definition stored_entry (api : Api) (now : Z) (r : float) : CacheEntry :=
  {| rate := r; timestamp := now; source := name api |}.

Definition log (st : state) (evs : list event) : state :=
  {| cache := cache st; events := events st ++ evs |}.

Definition empty_state : state := {| cache := ∅; events := [] |}.

Definition request_of (from to : string) (api : Api) : event :=
  Requested (name api) (url api from to).

(** The state after [api] has been asked and its rate [r] stored. *)
Definition written_state (api : Api) (from to : string) (now : Z) (r : float)
    (st : state) : state :=
  {| cache := <[cacheKey from to := stored_entry api now r]> (cache st);
     events := events st ++ [CacheWrite (cacheKey from to) (stored_entry api now r)] |}.

Definition accepted_state (api : Api) (from to : string) (now : Z) (r : float)
    (st : state) : state :=
  {| cache := <[cacheKey from to := stored_entry api now r]> (cache st);
     events := events st ++ [request_of from to api;
                             CacheWrite (cacheKey from to) (stored_entry api now r)] |}.

(** What a call added to the log. *)
Definition new_events (before after : state) : list event :=
  drop (length (events before)) (events after).

(** The entry a key holds after the writes [ws], when it held [before]. *)
Definition latest (ws : list CacheEntry) (before : option CacheEntry)
    : option CacheEntry :=
  match last ws with
  | Some e => Some e
  | None => before
  end.

(** [st'] is [st] after some more events, every key holding the last entry
    written under it since, or what it held in [st]. *)
Definition follows (st st' : state) : Prop :=
  exists evs,
    events st' = events st ++ evs /\
    forall key, cache st' !! key = latest (writes_for key evs) (cache st !! key).

(** ** Rounding to four decimal places, as the specification words it *)

(** [n] is [x * 10^4] rounded to the nearest integer, upward from a half. *)
Definition nearest_integer_to_scaled (x : Q) (n : Z) : Prop :=
  (x * inject_Z (10 ^ 4) - (1 # 2) < inject_Z n)%Q /\
  (inject_Z n <= x * inject_Z (10 ^ 4) + (1 # 2))%Q.

(** [stored] is [R] rounded to four decimal places: the Number written
    [n / 10^4], where [n] is [R * 10^4] rounded to the nearest integer; an
    infinity stays. *)
Definition rounded_to_4_places (R stored : float) : Prop :=
  match to_Q R with
  | Some x =>
      exists n, nearest_integer_to_scaled x n /\
                stored = of_fraction false (Z.to_N n) (10 ^ 4)
  | None => stored = R
  end.

(** ** Sample data *)

Definition api_1 : Api :=
  {| name := "exchangerate-api.com";
     url := fun from _ => "https://api.exchangerate-api.com/v4/latest/" +:+ from |}%string.
Definition api_2 : Api :=
  {| name := "open.er-api.com";
     url := fun from _ => "https://open.er-api.com/v6/latest/" +:+ from |}%string.
Definition api_3 : Api :=
  {| name := "api.frankfurter.app";
     url := fun from to =>
              "https://api.frankfurter.app/latest?from=" +:+ from +:+ "&to=" +:+ to |}%string.

Definition seven_point_2 : float := of_fraction false 72 10.
Definition seven_point_1999 : float := of_fraction false 71999 (10 ^ 4).
Definition seven_point_23456789 : float := of_fraction false 723456789 (10 ^ 8).

(** Every provider answers [{"rates":{"CNY":1e999}}]: [JSON.parse] reads
    [1e999] as [Infinity]. *)
Definition providers_answer_infinity : transport :=
  fun _ _ => Normal (VNumber pos_infinity).

(** The first provider cannot be reached, the second answers
    [{"rates":{"CNY":7.1999}}], the third cannot be reached. *)
Definition second_provider_answers : transport :=
  fun url _ =>
    if String.eqb url "https://open.er-api.com/v6/latest/USD"
    then Normal (VNumber seven_point_1999)
    else Throw RequestError.

Definition all_providers_down : transport := fun _ _ => Throw RequestError.

Definition old_entry : CacheEntry :=
  {| rate := seven_point_2; timestamp := 1000; source := "open.er-api.com" |}.

Definition state_with_old_entry : state :=
  {| cache := {[ "USD-CNY"%string := old_entry ]}; events := [] |}.

Definition three_calls : list call :=
  [ {| call_from := "USD"; call_to := "CNY"; call_now := 1000;
       call_fetch := second_provider_answers |};
    {| call_from := "USD"; call_to := "CNY"; call_now := 2000;
       call_fetch := all_providers_down |};
    {| call_from := "USD"; call_to := "CNY"; call_now := 4000000;
       call_fetch := second_provider_answers |} ].

(** Two requests for the same pair: the first call starts when the clock
    reads 1000, the second when it reads 2000; the provider answers the
    second call first. *)
Definition overlapping_schedule : list action :=
  [ Call 1 "USD" "CNY" 1000;
    Call 2 "USD" "CNY" 2000;
    Reply 2 (Normal (VNumber seven_point_2));
    Reply 1 (Normal (VNumber seven_point_2)) ].

Definition idle_server : server :=
  {| shared := empty_state; waiting := ∅; answered := [] |}.

(** Calls served one after the other while the clock is set back in
    between: the second call reads 2000 after the first has read 5000. *)
Definition calls_with_clock_set_back : list call :=
  [ {| call_from := "USD"; call_to := "CNY"; call_now := 5000;
       call_fetch := second_provider_answers |};
    {| call_from := "USD"; call_to := "CNY"; call_now := 2000;
       call_fetch := second_provider_answers |};
    {| call_from := "USD"; call_to := "CNY"; call_now := 5000 + 3600000;
       call_fetch := second_provider_answers |} ].

(** ** One call among others *)

(** The promise awaited at line 233 settles when the response ends
    (line 237) or the request fails (line 244), and nothing else settles
    it: no timeout is set, and a provider that keeps silent, or a response
    that never ends, leaves the call suspended at the [await]. In a
    schedule such a request is one that gets no [Reply]. *)

Definition action_id (a : action) : nat :=
  match a with
  | Call id _ _ _ => id
  | Reply id _ => id
  end.

(** The replies a schedule hands to the call [id], in order. *)
Definition replies_to (id : nat) (acts : list action) : list (completion jsval) :=
  flat_map (fun a => match a with
                     | Reply i reply => if Nat.eqb i id then [reply] else []
                     | Call _ _ _ _ => []
                     end) acts.

(** Whether the schedule starts a call under [id]. *)
Definition calls_under (id : nat) (acts : list action) : bool :=
  existsb (fun a => match a with
                    | Call i _ _ _ => Nat.eqb i id
                    | Reply _ _ => false
                    end) acts.

(** What the call [id] has been answered between two states of the
    server: [fetchExchangeRate] returned or threw. *)
Definition answered_since (id : nat) (before after : server)
    : list (completion RateResult) :=
  flat_map (fun ic : nat * completion RateResult =>
              if Nat.eqb ic.1 id then [ic.2] else [])
           (drop (length (answered before)) (answered after)).

(** Replies none of which holds an acceptable rate. *)
Definition unacceptable (replies : list (completion jsval)) : Prop :=
  Forall (fun reply => accepted_rate reply = None) replies.

(** The outcome of lines 264-270 on what line 222 read. *)
Definition fallback (cached : option CacheEntry) : completion RateResult :=
  match cached with
  | Some c => Normal {| entry := c; fromCache := true |}
  | None => Throw NoRateAvailable
  end.

(** How a call that found no fresh entry ends, read off the replies it
    gets: [None] while it waits for one. [cached] is what line 222 read. *)
Fixpoint ends_with (apis : list Api) (now : Z) (cached : option CacheEntry)
    (replies : list (completion jsval)) : option (completion RateResult) :=
  match apis with
  | [] => Some (fallback cached)
  | api :: rest =>
      match replies with
      | [] => None
      | reply :: later =>
          match accepted_rate reply with
          | Some r => Some (Normal {| entry := stored_entry api now r; fromCache := false |})
          | None => ends_with rest now cached later
          end
      end
  end.

(** The same for a call from its start. *)
Definition call_ends_with (now : Z) (cached : option CacheEntry)
    (replies : list (completion jsval)) : option (completion RateResult) :=
  match still_valid now cached with
  | Some c => Some (Normal {| entry := c; fromCache := false |})
  | None => ends_with EXCHANGE_RATE_APIS now cached replies
  end.

(** A call suspended on its request to [api], the providers [after] left. *)
Definition waiting_at (from to : string) (now : Z) (cached : option CacheEntry)
    (api : Api) (after : list Api) : suspended :=
  {| s_from := from; s_to := to; s_now := now; s_cached := cached;
     s_api := api; s_rest := after |}.

(** The pair of the call an action starts or resumes. *)
Definition pair_of (sv : server) (a : action) : option (string * string) :=
  match a with
  | Call _ from to _ => Some (from, to)
  | Reply id _ => (fun s => (s_from s, s_to s)) <$> waiting sv !! id
  end.

(** ** The handler among other requests *)

Inductive handler_progress :=
| Responds (r : http_response)
| Resolving (from to : string).      (* suspended at line 298 *)

(** Lines 276-296: up to the call of [fetchExchangeRate]. *)
Definition handler_begin (q_from q_to : option query_value) (now : Z) : handler_progress :=
  let from := with_default "USD" q_from in
  let to := with_default "CNY" q_to in
  if negb (includes supportedCurrencies from) || negb (includes supportedCurrencies to)
  then Responds Json400
  else
    match from with
    | QString from =>
        match to with
        | QString to =>
            if String.eqb from to then
              Responds (Json200 {| base := from; target := to;
                                   data_rate := of_fraction false 1 1;
                                   data_timestamp := now; data_source := "direct";
                                   data_fromCache := false |})
            else Resolving from to
        | QComposite => Responds Json400     (* not reached *)
        end
    | QComposite => Responds Json400         (* not reached *)
    end.

(** Lines 298-322: the awaited call has returned or thrown. *)
Definition handler_end (from to : string) (c : completion RateResult) : http_response :=
  match c with
  | Normal result =>
      Json200 {| base := from; target := to; data_rate := rate (entry result);
                 data_timestamp := timestamp (entry result);
                 data_source := source (entry result);
                 data_fromCache := fromCache result |}
  | Throw e => Json500 e
  end.

(** The response to a request whose call of [fetchExchangeRate], if it
    makes one, is the call [id] of the schedule, [acts] being what happens
    in the process from then on: [None] as long as the handler waits. *)
Definition response_in (q_from q_to : option query_value) (now : Z) (id : nat)
    (acts : list action) (sv : server) : option http_response :=
  match handler_begin q_from q_to now with
  | Responds r => Some r
  | Resolving from to =>
      handler_end from to <$>
        head (answered_since id sv (run_schedule (Call id from to now :: acts) sv))
  end.

(** ** Sample schedules *)

Definition server_with_old_entry : server :=
  {| shared := state_with_old_entry; waiting := ∅; answered := [] |}.

(** A call finds the entry of [state_with_old_entry] stale and asks the
    first provider; a second call does the same and its answer is stored;
    then the three providers fail the first call one after the other. *)
Definition newer_write_schedule : list action :=
  [ Call 1 "USD" "CNY" 9000000;
    Call 2 "USD" "CNY" 9000001;
    Reply 2 (Normal (VNumber seven_point_1999));
    Reply 1 (Throw RequestError);
    Reply 1 (Throw RequestError);
    Reply 1 (Throw RequestError) ].

(** The same on an empty cache. *)
Definition first_write_schedule : list action :=
  [ Call 1 "USD" "CNY" 1000;
    Call 2 "USD" "CNY" 2000;
    Reply 2 (Normal (VNumber seven_point_2));
    Reply 1 (Throw RequestError);
    Reply 1 (Throw RequestError);
    Reply 1 (Throw RequestError) ].

(** The first provider cannot be reached, the body of the second does not
    parse; the third is asked and never answers. *)
Definition third_provider_silent : list action :=
  [ Call 1 "USD" "CNY" 9000000;
    Reply 1 (Throw RequestError);
    Reply 1 (Throw ParseFailed) ].

(** * The rest of [server.js] and the calculator module *)

(** ** Objects used as tables *)

(** The members every object inherits from [Object.prototype]. *)
Definition inherited_members : list string :=
  ["constructor"; "__defineGetter__"; "__defineSetter__"; "hasOwnProperty";
   "__lookupGetter__"; "__lookupSetter__"; "isPrototypeOf"; "propertyIsEnumerable";
   "toString"; "valueOf"; "__proto__"; "toLocaleString"]%string.

(** ** Strings, character by character *)

Module Text.

(** A string as [escapeXml] and [sanitizeColor] see it: its UTF-16 code
    units. *)
Definition jsstring : Type := list N.

(** A literal of ASCII characters. *)
Definition text (s : string) : jsstring :=
  map Ascii.N_of_ascii (String.list_ascii_of_string s).

Definition c_amp : N := 38.         (* ampersand *)
Definition c_lt : N := 60.          (* less-than sign *)
Definition c_gt : N := 62.          (* greater-than sign *)
Definition c_quot : N := 34.        (* double quote *)
Definition c_apos : N := 39.        (* apostrophe *)

(** [s.replace(/c/g, by)] for one character [c] and a replacement without
    [$] patterns. *)
Definition replace_all (c : N) (replacement : jsstring) (s : jsstring) : jsstring :=
  flat_map (fun u => if N.eqb u c then replacement else [u]) s.

(** [escapeXml(value)], for a string [value]: the five replacements in the
    order of lines 30-34. *)
Definition escapeXml (value : jsstring) : jsstring :=
  replace_all c_apos (text "&apos;")
    (replace_all c_quot (text "&quot;")
       (replace_all c_gt (text "&gt;")
          (replace_all c_lt (text "&lt;")
             (replace_all c_amp (text "&amp;") value)))).

(** What the five replacements together make of one character: the
    single pass [escapeXml] is compared with. *)
Definition escape_unit (u : N) : jsstring :=
  if N.eqb u c_amp then text "&amp;"
  else if N.eqb u c_lt then text "&lt;"
  else if N.eqb u c_gt then text "&gt;"
  else if N.eqb u c_quot then text "&quot;"
  else if N.eqb u c_apos then text "&apos;"
  else [u].

(** Reading the five entities back: not a function of the server, the
    inverse used to state that [escapeXml] loses nothing. *)
Fixpoint unescapeXml (s : jsstring) : jsstring :=
  match s with
  | [] => []
  | u :: rest =>
      if N.eqb u c_amp then
        match rest with
        | a :: b :: c :: rest3 =>
            if bool_decide ([a; b; c] = text "lt;") then c_lt :: unescapeXml rest3
            else if bool_decide ([a; b; c] = text "gt;") then c_gt :: unescapeXml rest3
            else
              match rest3 with
              | d :: rest4 =>
                  if bool_decide ([a; b; c; d] = text "amp;")
                  then c_amp :: unescapeXml rest4
                  else
                    match rest4 with
                    | e :: rest5 =>
                        if bool_decide ([a; b; c; d; e] = text "quot;")
                        then c_quot :: unescapeXml rest5
                        else if bool_decide ([a; b; c; d; e] = text "apos;")
                        then c_apos :: unescapeXml rest5
                        else u :: unescapeXml rest
                    | [] => u :: unescapeXml rest
                    end
              | [] => u :: unescapeXml rest
              end
        | _ => u :: unescapeXml rest
        end
      else u :: unescapeXml rest
  end.

(** White space and line terminators: what [trim] strips and [\s]
    matches. *)
Definition whitespace : list N :=
  [9; 10; 11; 12; 13; 32; 160; 5760;
   8192; 8193; 8194; 8195; 8196; 8197; 8198; 8199; 8200; 8201; 8202;
   8232; 8233; 8239; 8287; 12288; 65279]%N.

Definition is_space (u : N) : bool := existsb (N.eqb u) whitespace.

Fixpoint drop_spaces (s : jsstring) : jsstring :=
  match s with
  | [] => []
  | u :: rest => if is_space u then drop_spaces rest else s
  end.

(** [s.trim()] *)
Definition trim (s : jsstring) : jsstring :=
  rev (drop_spaces (rev (drop_spaces s))).

(** The class of line 40: the five characters [escapeXml] replaces. *)
Definition xml_special (u : N) : bool :=
  N.eqb u c_lt || N.eqb u c_gt || N.eqb u c_quot || N.eqb u c_apos || N.eqb u c_amp.

Definition between (lo hi u : N) : bool := (lo <=? u)%N && (u <=? hi)%N.

(** The class [[#a-zA-Z0-9(),.%\s-]] of line 41. *)
Definition color_char (u : N) : bool :=
  N.eqb u 35                      (* # *)
  || between 97 122 u             (* a-z *)
  || between 65 90 u              (* A-Z *)
  || between 48 57 u              (* 0-9 *)
  || N.eqb u 40 || N.eqb u 41     (* ( ) *)
  || N.eqb u 44 || N.eqb u 46     (* , . *)
  || N.eqb u 37                   (* % *)
  || is_space u                   (* \s *)
  || N.eqb u 45.                  (* - *)

(** [sanitizeColor(value)]: the argument is the string [value], [None]
    when it is [undefined], for which [value || ''] is the empty string;
    the result [None] is [null]. *)
Definition sanitizeColor (value : option jsstring) : option jsstring :=
  let trimmed := trim (default [] value) in
  match trimmed with
  | [] => None
  | _ :: _ =>
      if existsb xml_special trimmed then None
      else if negb (forallb color_char trimmed) then None
      else Some trimmed
  end.

End Text.


(** ** Coercions of request values to numbers *)

Module Coerce.

(** [Number.isNaN] *)
Definition isNaN (x : float) : bool :=
  match x with
  | S754_nan => true
  | _ => false
  end.

(** The Number of an integer; [neg_zero] is the sign of a zero. *)
Definition of_Z (z : Z) (neg_zero : bool) : float :=
  binary_normalize prec emax z 0 neg_zero.

(** [parseNumber(value)]: [Number(value)] when it is finite, else [null]. *)
Definition parseNumber (value : jsval) : completion (option float) :=
  match ToNumber value with
  | Normal num => Normal (if isFinite num then Some num else None)
  | Throw e => Throw e
  end.

(** [Math.round(x)]: the integer nearest to [x], the upper one from a
    half; a result of zero keeps the sign of [x]. *)
Definition Math_round (x : float) : float :=
  match x with
  | S754_finite s m e =>
      if 0 <=? e then x
      else of_Z ((2 * cond_Zopp s (Zpos m) + 2 ^ (- e)) / (2 * 2 ^ (- e))) s
  | _ => x
  end.

(** [Math.floor(x)] *)
Definition Math_floor (x : float) : float :=
  match x with
  | S754_finite s m e =>
      if 0 <=? e then x
      else of_Z (cond_Zopp s (Zpos m) / 2 ^ (- e)) s
  | _ => x
  end.

(** [clampInt(value, fallback, min, max)] *)
Definition clampInt (value : jsval) (fallback min max : float) : completion float :=
  match parseNumber value with
  | Throw e => Throw e
  | Normal None => Normal fallback
  | Normal (Some num) =>
      let rounded := Math_round num in
      if negb (isFinite rounded) then Normal fallback
      else if lessThan rounded min then Normal min
      else if lessThan max rounded then Normal max
      else Normal rounded
  end.

(** [clampFloat(value, fallback, min, max)] *)
Definition clampFloat (value : jsval) (fallback min max : float) : completion float :=
  match parseNumber value with
  | Throw e => Throw e
  | Normal None => Normal fallback
  | Normal (Some num) =>
      if lessThan num min then Normal min
      else if lessThan max num then Normal max
      else Normal num
  end.

(** [x <= y] on Numbers *)
Definition lessEqual (x y : float) : bool := SFleb x y.

(** [map[key]] at line 72: an own member, an inherited one (a function, or
    the prototype itself), or [undefined]. *)
Definition gradient_map (key : string) : jsval :=
  if String.eqb key "horizontal" then VNumber (of_Z 0 false)
  else if String.eqb key "vertical" then VNumber (of_Z 90 false)
  else if String.eqb key "diagonal" then VNumber (of_Z 45 false)
  else if String.eqb key "diagonal2" then VNumber (of_Z 135 false)
  else if bool_decide (key ∈ inherited_members) then VObject (Normal NaN)
  else VUndefined.

(** [resolveGradientAngle({ gradientAngle, gradientDirection })]; the
    direction is [None] when it is falsy, else the text
    [String(gradientDirection).toLowerCase()]. *)
Definition resolveGradientAngle (gradientAngle : jsval)
    (gradientDirection : option string) : completion jsval :=
  let clamped :=
    match clampFloat gradientAngle (of_Z 45 false) (of_Z 0 false) (of_Z 360 false) with
    | Normal x => Normal (VNumber x)
    | Throw e => Throw e
    end in
  match gradientDirection with
  | Some key =>
      match gradient_map key with
      | VUndefined => clamped
      | angle => Normal angle
      end
  | None => clamped
  end.

End Coerce.


(** ** The calculator module *)

Module Calculator.

(** The text [x.toFixed(f)] returns, for [f] fraction digits. *)
Inductive fixed_text :=
| FixedNaN
| FixedInfinity (neg : bool)
| FixedDigits (places : N) (neg : bool) (n : N)   (* the digits of [n], [places] of them after the point *)
| FixedToString (x : float).                      (* magnitude of [10^21] and more *)

(** The integer nearest to [m * 2^e * 10^f], the upper one from a half. *)
Definition nearest_scaled_by (f : N) (m : positive) (e : Z) : Z :=
  if 0 <=? e then Zpos m * 2 ^ e * 10 ^ Z.of_N f
  else (2 * (Zpos m * 10 ^ Z.of_N f) + 2 ^ (- e)) / (2 * 2 ^ (- e)).

(** [x.toFixed(f)] *)
Definition toFixed (f : N) (x : float) : fixed_text :=
  match x with
  | S754_nan => FixedNaN
  | S754_infinity s => FixedInfinity s
  | S754_zero _ => FixedDigits f false 0
  | S754_finite s m e =>
      if at_least_1e21 m e then FixedToString x
      else FixedDigits f s (Z.to_N (nearest_scaled_by f m e))
  end.

(** [parseFloat] of such a text. *)
Definition parseFloat (t : fixed_text) : float :=
  match t with
  | FixedNaN => S754_nan
  | FixedInfinity s => S754_infinity s
  | FixedDigits places neg n => of_fraction neg n (Z.to_pos (10 ^ Z.of_N places))
  | FixedToString x => x
  end.

(** [parseFloat(x.toFixed(2))] *)
Definition two_places (x : float) : float := parseFloat (toFixed 2 x).

(** The errors the module throws, by their messages. *)
Inductive calc_error :=
| TotalCostInvalid        (* line 865 *)
| TotalDaysInvalid        (* line 869 *)
| UsedDaysInvalid         (* line 873 *)
| UsedDaysExceedTotal     (* line 877 *)
| CycleUnsupported (cycle : string)     (* line 904 *)
| PurchaseDateInvalid     (* line 919 *)
| PurchaseDateInFuture    (* line 926 *)
| Native (e : js_error).  (* thrown by a conversion *)

Inductive result (A : Type) :=
| Returned (a : A)
| Raised (e : calc_error).
Arguments Returned {A} a.
Arguments Raised {A} e.

(** [isValidNumber(value)], with the Number when it holds. *)
Definition valid_number (value : jsval) : option float :=
  match value with
  | VNumber x => if negb (Coerce.isNaN x) && isFinite x then Some x else None
  | _ => None
  end.

Definition isValidNumber (value : jsval) : bool :=
  match valid_number value with
  | Some _ => true
  | None => false
  end.

(** [validateInputs(totalCost, totalDays, usedDays)]; it returns the three
    Numbers, which the checks have shown the arguments to be. *)
Definition validateInputs (totalCost totalDays usedDays : jsval)
    : result (float * float * float) :=
  match valid_number totalCost with
  | None => Raised TotalCostInvalid
  | Some cost =>
      if Coerce.lessEqual cost pos_zero then Raised TotalCostInvalid
      else
        match valid_number totalDays with
        | None => Raised TotalDaysInvalid
        | Some days =>
            if Coerce.lessEqual days pos_zero then Raised TotalDaysInvalid
            else
              match valid_number usedDays with
              | None => Raised UsedDaysInvalid
              | Some used =>
                  if lessThan used pos_zero then Raised UsedDaysInvalid
                  else if lessThan days used then Raised UsedDaysExceedTotal
                  else Returned (cost, days, used)
              end
        end
  end.

(** What the four checks ask for: a finite Number above zero, a finite
    Number that is not negative, and used days above the total. *)
Definition positive_number (v : jsval) : bool :=
  match v with
  | VNumber x => isFinite x && lessThan pos_zero x
  | _ => false
  end.

Definition nonnegative_number (v : jsval) : bool :=
  match v with
  | VNumber x => isFinite x && Coerce.lessEqual pos_zero x
  | _ => false
  end.

Definition exceeds (used total : jsval) : bool :=
  match used, total with
  | VNumber z, VNumber y => lessThan y z
  | _, _ => false
  end.

Record calc_result := {
  remainingValue : float;
  usedValue : float;
  remainingDays : float;
  usageRate : float;
  dailyRate : float
}.

Definition hundred : float := Coerce.of_Z 100 false.

(** [calculateRemainingValue(totalCost, totalDays, usedDays)] *)
Definition calculateRemainingValue (totalCost totalDays usedDays : jsval)
    : result calc_result :=
  match validateInputs totalCost totalDays usedDays with
  | Raised e => Raised e
  | Returned (cost, days, used) =>
      let daily := SFdiv prec emax cost days in
      let used_value := SFmul prec emax daily used in
      let remaining_days := SFsub prec emax days used in
      let remaining_value := SFmul prec emax daily remaining_days in
      let usage := SFmul prec emax (SFdiv prec emax used days) hundred in
      Returned {| remainingValue := two_places remaining_value;
                  usedValue := two_places used_value;
                  remainingDays := remaining_days;
                  usageRate := two_places usage;
                  dailyRate := two_places daily |}
  end.

(** [cycleDays[cycle]]: an own member, an inherited one (a function, or
    the prototype itself), or [undefined]. *)
Definition cycleDays (cycle : string) : jsval :=
  if String.eqb cycle "monthly" then VNumber (Coerce.of_Z 30 false)
  else if String.eqb cycle "yearly" then VNumber (Coerce.of_Z 365 false)
  else if String.eqb cycle "biennial" then VNumber (Coerce.of_Z 730 false)
  else if String.eqb cycle "triennial" then VNumber (Coerce.of_Z 1095 false)
  else if bool_decide (cycle ∈ inherited_members) then VObject (Normal NaN)
  else VUndefined.

(** [getDaysByCycle(cycle)], for the property key [cycle] converts to. *)
Definition getDaysByCycle (cycle : string) : result jsval :=
  if negb (ToBoolean (cycleDays cycle)) then Raised (CycleUnsupported cycle)
  else Returned (cycleDays cycle).

Definition MS_PER_DAY : float := Coerce.of_Z (1000 * 60 * 60 * 24) false.

(** [calculateUsedDays(purchaseDate)], called when the clock reads [now]:
    [purchase] is the time value of [new Date(purchaseDate)], [NaN] for an
    invalid date. *)
Definition calculateUsedDays (purchase now : float) : result float :=
  if Coerce.isNaN purchase then Raised PurchaseDateInvalid
  else
    let diffTime := SFsub prec emax now purchase in
    if lessThan diffTime pos_zero then Raised PurchaseDateInFuture
    else Returned (Coerce.Math_floor (SFdiv prec emax diffTime MS_PER_DAY)).

(** *** [POST /api/calculate] *)

Inductive calc_response (A : Type) :=
| Success (data : A)                    (* 200 *)
| MissingParameters                     (* 400, lines 710-713 and 742-745 *)
| Failure (e : calc_error).             (* 400, [error.message] *)
Arguments Success {A} data.
Arguments MissingParameters {A}.
Arguments Failure {A} e.

(** [Number(value)] *)
Definition Number (value : jsval) : result jsval :=
  match ToNumber value with
  | Normal x => Returned (VNumber x)
  | Throw e => Raised (Native e)
  end.

(** The handler of lines 704-733 on a body with the members given; [None]
    is a member that is [undefined]. *)
Definition calculate_handler (totalCost totalDays usedDays : option jsval)
    : calc_response calc_result :=
  match totalCost, totalDays, usedDays with
  | Some cost, Some days, Some used =>
      match Number cost with
      | Raised e => Failure e
      | Returned c =>
          match Number days with
          | Raised e => Failure e
          | Returned d =>
              match Number used with
              | Raised e => Failure e
              | Returned u =>
                  match calculateRemainingValue c d u with
                  | Returned r => Success r
                  | Raised e => Failure e
                  end
              end
          end
      end
  | _, _, _ => MissingParameters
  end.

(** *** [POST /api/calculate-by-cycle] *)

(** The member [cycle]: a falsy value, or a truthy one with the property
    key it converts to (a non-empty string is its own key), or an object
    whose conversion to a key throws. *)
Inductive cycle_value :=
| CycleFalsy
| CycleKey (key : string)
| CycleUnconvertible.

(** The member [purchaseDate]: a falsy value, or a truthy one with the
    time value of the [Date] made of it, or an object whose conversion to
    a primitive throws. *)
Inductive date_value :=
| DateFalsy
| DateTime (time : float)
| DateUnconvertible.

Record cycle_data := {
  result_of : calc_result;
  totalDays : jsval;
  usedDays : float
}.

(** The handler of lines 736-777; [now] is the clock at [new Date()]. The
    three members are tested first (line 741); then come
    [getDaysByCycle(cycle)], [calculateUsedDays(purchaseDate)],
    [Number(totalCost)] and [calculateRemainingValue], in this order, the
    first exception ending the request. *)
Definition calculate_by_cycle_handler (totalCost : option jsval)
    (cycle : cycle_value) (purchaseDate : date_value) (now : float)
    : calc_response cycle_data :=
  let cost := default VUndefined totalCost in
  if negb (ToBoolean cost) then MissingParameters
  else
    match cycle with
    | CycleFalsy => MissingParameters
    | CycleUnconvertible =>
        match purchaseDate with
        | DateFalsy => MissingParameters
        | _ => Failure (Native TypeError)
        end
    | CycleKey key =>
        match purchaseDate with
        | DateFalsy => MissingParameters
        | DateUnconvertible =>
            match getDaysByCycle key with
            | Raised e => Failure e
            | Returned _ => Failure (Native TypeError)
            end
        | DateTime purchase =>
            match getDaysByCycle key with
            | Raised e => Failure e
            | Returned days =>
                match calculateUsedDays purchase now with
                | Raised e => Failure e
                | Returned used =>
                    match Number cost with
                    | Raised e => Failure e
                    | Returned c =>
                        match calculateRemainingValue c days (VNumber used) with
                        | Returned r =>
                            Success {| result_of := r; totalDays := days;
                                       usedDays := used |}
                        | Raised e => Failure e
                        end
                    end
                end
            end
        end
    end.

(** The own members of [cycleDays], lines 896-901. *)
Definition cycle_table : list (string * float) :=
  [("monthly", Coerce.of_Z 30 false); ("yearly", Coerce.of_Z 365 false);
   ("biennial", Coerce.of_Z 730 false); ("triennial", Coerce.of_Z 1095 false)]%string.

End Calculator.

(** ** The colours of the ring and the options of the QR code *)

Module Svg.

(** [s.split(',')], for the one-character separator [sep]. *)
Fixpoint split_on (sep : N) (s : Text.jsstring) : list Text.jsstring :=
  match s with
  | [] => [[]]
  | u :: rest =>
      if N.eqb u sep then [] :: split_on sep rest
      else
        match split_on sep rest with
        | piece :: pieces => (u :: piece) :: pieces
        | [] => [[u]]
        end
  end.

Definition c_comma : N := 44.

Definition defaultGradient : list Text.jsstring :=
  map Text.text ["#ff3b30"; "#ff9500"; "#ffcc00"; "#34c759"; "#007aff"; "#af52de"]%string.

(** [.filter(Boolean)] on what [sanitizeColor] returned: [null] and the
    empty string are dropped. *)
Definition truthy_colors (l : list (option Text.jsstring)) : list Text.jsstring :=
  flat_map (fun item => match item with
                        | Some (u :: rest) => [u :: rest]
                        | _ => []
                        end) l.

(** The [colors] of [buildPyqSvg], lines 113-118, for a [gradient] that is
    a string or [undefined] (on another value [.split] is not a function
    and the call throws). *)
Definition gradientColors (gradient : option Text.jsstring) : list Text.jsstring :=
  let gradientStops :=
    truthy_colors (map (fun item => Text.sanitizeColor (Some item))
                       (split_on c_comma (default [] gradient))) in
  if (2 <=? length gradientStops)%nat then gradientStops else defaultGradient.

(** What [GET /ewm] hands to the [qrcode] library. *)
Record qr_options := {
  qr_content : Text.jsstring;
  qr_svg : bool;               (* [type: 'svg'], else [type: 'png'] *)
  qr_margin : float;
  qr_width : float;
  qr_dark : Text.jsstring;
  qr_light : Text.jsstring
}.

(** [a || b] on values that are strings or [undefined]. *)
Definition or_else (a : option Text.jsstring) (b : Text.jsstring) : Text.jsstring :=
  match a with
  | Some (u :: rest) => u :: rest
  | _ => b
  end.

(** Lines 642-666 of [GET /ewm]: [None] is the 400 answer for a missing
    content. The members [text], [data], [url], [dark] and [light] are
    strings or [undefined]; [svg] says whether [String(format).toLowerCase()]
    is ['svg']. *)
Definition ewm_options (text data url : option Text.jsstring) (svg : bool)
    (size margin : option jsval) (dark light : option Text.jsstring)
    : completion (option qr_options) :=
  let size := default (VNumber (Coerce.of_Z 256 false)) size in
  let margin := default (VNumber (Coerce.of_Z 2 false)) margin in
  let dark := default (Text.text "#000000") dark in
  let light := default (Text.text "#ffffff") light in
  let content := Text.trim (or_else text (or_else data (or_else url []))) in
  match content with
  | [] => Normal None
  | _ :: _ =>
      match Coerce.clampInt size (Coerce.of_Z 256 false) (Coerce.of_Z 64 false)
                            (Coerce.of_Z 1024 false) with
      | Throw e => Throw e
      | Normal finalSize =>
          match Coerce.clampInt margin (Coerce.of_Z 2 false) (Coerce.of_Z 0 false)
                                (Coerce.of_Z 10 false) with
          | Throw e => Throw e
          | Normal finalMargin =>
              Normal (Some {| qr_content := content; qr_svg := svg;
                              qr_margin := finalMargin; qr_width := finalSize;
                              qr_dark := or_else (Text.sanitizeColor (Some dark))
                                                 (Text.text "#000000");
                              qr_light := or_else (Text.sanitizeColor (Some light))
                                                  (Text.text "#ffffff") |})
          end
      end
  end.

End Svg.

(** ** [GET /api/badge.svg] *)

Module Badge.

(** [Number.isInteger(value)], for a Number or [null]. *)
Definition isInteger (value : option float) : bool :=
  match value with
  | Some (S754_zero _) => true
  | Some (S754_finite _ m e) => if 0 <=? e then true else Zpos m mod 2 ^ (- e) =? 0
  | _ => false
  end.

(** [Math.min(x, y)]: [NaN] if an argument is; the negative zero is below
    the positive one. *)
Definition Math_min (x y : float) : float :=
  if Coerce.isNaN x || Coerce.isNaN y then NaN
  else if lessThan x y then x
  else if lessThan y x then y
  else match x, y with
       | S754_zero true, _ => x
       | _, S754_zero true => y
       | _, _ => x
       end.

(** [Math.max(x, y)] *)
Definition Math_max (x y : float) : float :=
  if Coerce.isNaN x || Coerce.isNaN y then NaN
  else if lessThan x y then y
  else if lessThan y x then x
  else match x, y with
       | S754_zero false, _ => x
       | _, S754_zero false => y
       | _, _ => x
       end.

(** The colour of the bar, lines 430-435. *)
Inductive bar_color :=
| Green      (* '#44cc11' *)
| Orange     (* '#dfb317' *)
| Red.       (* '#e05d44' *)

(** What the template of lines 438-476 is filled with, as far as it comes
    from the computation: the text of the remaining value, the text of the
    usage rate, the colour and the width of the bar. *)
Record badge := {
  shown_value : Calculator.fixed_text;     (* [parseFloat(remainingValue).toFixed(2)] *)
  shown_usage : Calculator.fixed_text;     (* [usageRate] *)
  bar : bar_color;
  bar_width : float                        (* [usageRate * 2] *)
}.

Inductive badge_error :=
| MissingRequired          (* line 340 *)
| BadDate                  (* line 347 *)
| EndBeforeStart           (* line 357 *)
| BadTotalCost             (* line 365 *)
| BadTotalDays             (* line 389 *)
| StartInFuture            (* line 400 *)
| MissingRemainingValue.   (* line 419 *)

Inductive response :=
| Svg (b : badge)                  (* 200, image/svg+xml *)
| Status400 (e : badge_error)
| Status500 (e : js_error).        (* the [catch] block of line 482 *)

(** Lines 426-476 for a remaining value and the text of the usage rate;
    the comparisons and the product convert the text to a Number.
    [parseFloat] of a Number gives the Number back, up to the sign of a
    zero, which [toFixed] does not show. *)
Definition draw (remainingValue : float) (usageRate : Calculator.fixed_text) : response :=
  let usage := Calculator.parseFloat usageRate in
  let color :=
    if lessThan (Coerce.of_Z 70 false) usage then Red
    else if lessThan (Coerce.of_Z 40 false) usage then Orange
    else Green in
  Svg {| shown_value := Calculator.toFixed 2 remainingValue;
         shown_usage := usageRate;
         bar := color;
         bar_width := SFmul prec emax usage (Coerce.of_Z 2 false) |}.

(** Lines 385-409: the remaining value and the usage rate computed from
    the total days. *)
Definition dynamic (totalCostNum : float) (totalDaysNum : option float)
    (start now : float) : response :=
  if negb (isInteger totalDaysNum) then Status400 BadTotalDays
  else
    match totalDaysNum with
    | None => Status400 BadTotalDays
    | Some days =>
        if Coerce.lessEqual days pos_zero then Status400 BadTotalDays
        else
          let usedDays :=
            Coerce.Math_floor (SFdiv prec emax (SFsub prec emax now start)
                                     Calculator.MS_PER_DAY) in
          if lessThan usedDays pos_zero then Status400 StartInFuture
          else
            let actualUsedDays := Math_min usedDays days in
            let remainingDays := Math_max pos_zero (SFsub prec emax days actualUsedDays) in
            let dailyRate := SFdiv prec emax totalCostNum days in
            let remainingValue := SFmul prec emax dailyRate remainingDays in
            let usageRate :=
              Calculator.toFixed 1
                (SFmul prec emax (SFdiv prec emax actualUsedDays days) Calculator.hundred) in
            draw remainingValue usageRate
    end.

(** Lines 417-426: the remaining value given in the query. *)
Definition static (totalCostNum : float) (remainingValue : option float) : response :=
  match remainingValue with
  | None => Status400 MissingRemainingValue
  | Some value =>
      draw value
           (Calculator.toFixed 1
              (SFmul prec emax
                 (SFdiv prec emax (SFsub prec emax totalCostNum value) totalCostNum)
                 Calculator.hundred))
  end.

(** A date member that is not falsy. *)
Definition given (d : Calculator.date_value) : bool :=
  match d with
  | Calculator.DateFalsy => false
  | _ => true
  end.

(** The handler, lines 326-487, as far as the numbers go: [startDate] and
    [endDate] are given by the time values of the dates made of them,
    [totalCost], [remainingValue] and [totalDays] are the members of the
    query ([None] when [undefined]), [now] is [Date.now()]. The currency
    symbol and the source line of the picture are left out. *)
Definition badge_handler (startDate endDate : Calculator.date_value)
    (totalCost inputRemainingValue totalDays : option jsval) (now : float)
    : response :=
  if negb (given startDate) || negb (given endDate) then Status400 MissingRequired
  else
    match totalCost with
    | None => Status400 MissingRequired
    | Some cost =>
        match startDate with
        | Calculator.DateFalsy => Status400 MissingRequired
        | Calculator.DateUnconvertible => Status500 TypeError
        | Calculator.DateTime start =>
            if Coerce.isNaN start then Status400 BadDate
            else
              match endDate with
              | Calculator.DateFalsy => Status400 MissingRequired
              | Calculator.DateUnconvertible => Status500 TypeError
              | Calculator.DateTime end_ =>
                  if Coerce.isNaN end_ then Status400 BadDate
                  else if lessThan end_ start then Status400 EndBeforeStart
                  else
                    match Coerce.parseNumber cost with
                    | Throw e => Status500 e
                    | Normal None => Status400 BadTotalCost
                    | Normal (Some totalCostNum) =>
                        if Coerce.lessEqual totalCostNum pos_zero
                        then Status400 BadTotalCost
                        else
                          match Coerce.parseNumber
                                  (default VUndefined inputRemainingValue) with
                          | Throw e => Status500 e
                          | Normal remainingValue =>
                              match totalDays with
                              | Some days =>
                                  match Coerce.parseNumber days with
                                  | Throw e => Status500 e
                                  | Normal totalDaysNum =>
                                      dynamic totalCostNum totalDaysNum start now
                                  end
                              | None => static totalCostNum remainingValue
                              end
                          end
                    end
              end
        end
    end.

End Badge.

(** ** Notions used in the statements *)

(** [from] and [to] are what the query resolves to, after the defaults:
    two strings among the supported codes. *)
Definition resolved_pair (q_from q_to : option query_value) (from to : string) : Prop :=
  with_default "USD" q_from = QString from /\ with_default "CNY" q_to = QString to
  /\ from ∈ supportedCurrencies /\ to ∈ supportedCurrencies.

(** The string does not start with white space. *)
Definition no_leading_space (s : Text.jsstring) : Prop :=
  match s with
  | [] => True
  | u :: _ => Text.is_space u = false
  end.

(** The Number 1. *)
Definition one : float := S754_finite false 4503599627370496 (-52).

(** A colour that can be written into the picture as it is. *)
Definition safe_color (c : Text.jsstring) : Prop :=
  c <> [] /\ forallb Text.color_char c = true /\ Text.escapeXml c = c.

(** Two instants forty days apart, as time values. *)
Definition sample_start : float := Coerce.of_Z 1700000000000 false.
Definition sample_end : float := Coerce.of_Z (1700000000000 + 40 * 86400000) false.

(** * Properties *)

(** ** Numbers *)

Lemma lessThan_zero_cases (x : float) :
  lessThan pos_zero x = true <->
  x = S754_infinity false \/ exists m e, x = S754_finite false m e.
Proof.
  split.
  - destruct x as [s | s | | s m e]; cbn; try discriminate.
    + destruct s; [discriminate | auto].
    + destruct s; [discriminate | eauto].
  - intros [-> | (m & e & ->)]; reflexivity.
Qed.

Lemma lessThan_zero_truthy (x : float) :
  lessThan pos_zero x = true -> ToBoolean (VNumber x) = true.
Proof. destruct x as [s | s | | s m e]; cbn; congruence. Qed.

(** The conversion of decimals gives the binary64 values one expects:
    [0.1] is [0x1.999999999999ap-4], [1] is [0x1p+0], [7.2346] is
    [0x1.cf03afb7e91p+2], and [1e309] overflows. *)
Example of_fraction_bits :
  of_fraction false 1 10 = S754_finite false 0x1999999999999A (-56)
  /\ of_fraction false 1 1 = S754_finite false 0x10000000000000 (-52)
  /\ of_fraction false 72346 (10 ^ 4) = S754_finite false 0x1CF03AFB7E9100 (-50)
  /\ of_fraction false (10 ^ 309) 1 = S754_infinity false.
Proof. vm_compute. repeat split. Qed.

Lemma digits2_pos_bound (m : positive) : Zpos m < 2 ^ Zpos (digits2_pos m).
Proof.
  induction m as [m IH | m IH |]; cbn [digits2_pos].
  - rewrite Pos2Z.inj_succ, Z.pow_succ_r by lia. lia.
  - rewrite Pos2Z.inj_succ, Z.pow_succ_r by lia. lia.
  - reflexivity.
Qed.

(** A binary64 value of at least [10^21] has no fraction bits. *)
Lemma valid_large_exponent (s : bool) (m : positive) (e : Z) :
  valid (S754_finite s m e) = true -> at_least_1e21 m e = true -> 0 <= e.
Proof.
  unfold valid, valid_binary, bounded, canonical_mantissa, fexp, SpecFloat.emin,
    at_least_1e21.
  intros [Hc _]%andb_prop Hbig. apply Z.eqb_eq in Hc.
  destruct (Z.leb_spec 0 e) as [| Hneg]; [done |].
  apply Z.leb_le in Hbig.
  pose proof (digits2_pos_bound m) as Hd.
  assert (Zpos (digits2_pos m) <= 53) as Hle by (unfold prec, emax in Hc; lia).
  assert (2 ^ Zpos (digits2_pos m) <= 2 ^ 53) by (apply Z.pow_le_mono_r; lia).
  assert (2 ^ 1 <= 2 ^ (- e)) by (apply Z.pow_le_mono_r; lia).
  change (2 ^ 53) with 9007199254740992 in *. change (2 ^ 1) with 2 in *.
  change (10 ^ 21) with 1000000000000000000000 in *. nia.
Qed.

Lemma nearest_scaled_spec (m : positive) (e : Z) :
  nearest_integer_to_scaled (magnitude m e) (nearest_scaled m e).
Proof.
  unfold nearest_integer_to_scaled, magnitude, nearest_scaled.
  destruct (Z.leb_spec 0 e) as [Hpos | Hneg].
  - unfold Qlt, Qle; cbn. lia.
  - assert (0 < 2 ^ (- e)) as Hp by (apply Z.pow_pos_nonneg; lia).
    set (k := 2 ^ (- e)) in *.
    pose proof (Z.div_mod (2 * (Zpos m * 10 ^ 4) + k) (2 * k) ltac:(lia)) as Hdm.
    pose proof (Z.mod_pos_bound (2 * (Zpos m * 10 ^ 4) + k) (2 * k) ltac:(lia)) as Hb.
    set (n := (2 * (Zpos m * 10 ^ 4) + k) / (2 * k)) in *.
    unfold Qlt, Qle; cbn.
    rewrite !Pos2Z.inj_mul, !Z2Pos.id by lia.
    change (10 ^ 4) with 10000 in *. lia.
Qed.

Lemma digits2_pos_lower (m : positive) : 2 ^ (Zpos (digits2_pos m) - 1) <= Zpos m.
Proof.
  induction m as [m IH | m IH |]; cbn [digits2_pos].
  - rewrite Pos2Z.inj_succ. replace (Z.succ (Zpos (digits2_pos m)) - 1)
      with (Z.succ (Zpos (digits2_pos m) - 1)) by lia.
    rewrite Z.pow_succ_r by lia. lia.
  - rewrite Pos2Z.inj_succ. replace (Z.succ (Zpos (digits2_pos m)) - 1)
      with (Z.succ (Zpos (digits2_pos m) - 1)) by lia.
    rewrite Z.pow_succ_r by lia. lia.
  - reflexivity.
Qed.

Lemma Zdigits2_unique (n d : Z) :
  2 ^ (d - 1) <= n < 2 ^ d -> 0 < n -> Zdigits2 n = d.
Proof.
  intros [Hlo Hhi] Hn. destruct n as [| p | p]; try lia.
  cbn [Zdigits2].
  pose proof (digits2_pos_bound p) as Hb. pose proof (digits2_pos_lower p) as Hl.
  set (k := Zpos (digits2_pos p)) in *.
  assert (0 < k) by (subst k; lia).
  destruct (Z.lt_trichotomy k d) as [Hlt | [Heq | Hgt]]; [| done |].
  - assert (2 ^ k <= 2 ^ (d - 1)) by (apply Z.pow_le_mono_r; lia). lia.
  - assert (0 <= d \/ d < 0) as [Hd | Hd] by lia.
    + assert (2 ^ d <= 2 ^ (k - 1)) by (apply Z.pow_le_mono_r; lia). lia.
    + rewrite (Z.pow_neg_r 2 d) in Hhi by lia. lia.
Qed.

Lemma shr_1_double (y : Z) :
  0 <= y -> shr_1 (Build_shr_record (2 * y) false false) = Build_shr_record y false false.
Proof. intros Hy. destruct y as [| p | p]; [reflexivity | reflexivity | lia]. Qed.

Lemma iter_shr_1_exact (p : positive) (x : Z) :
  0 <= x ->
  SpecFloat.iter_pos shr_1 p (Build_shr_record (x * 2 ^ Zpos p) false false) =
  Build_shr_record x false false.
Proof.
  revert x. induction p as [p IH | p IH |]; intros x Hx; cbn [SpecFloat.iter_pos].
  - replace (x * 2 ^ Zpos p~1) with (2 * ((x * 2 ^ Zpos p) * 2 ^ Zpos p)).
    + rewrite shr_1_double by (assert (0 < 2 ^ Zpos p) by (apply Z.pow_pos_nonneg; lia); nia).
      rewrite IH by (assert (0 < 2 ^ Zpos p) by (apply Z.pow_pos_nonneg; lia); nia).
      by apply IH.
    + replace (Zpos p~1) with (Zpos p + Zpos p + 1) by lia.
      rewrite !Z.pow_add_r by lia. change (2 ^ 1) with 2. ring.
  - replace (x * 2 ^ Zpos p~0) with ((x * 2 ^ Zpos p) * 2 ^ Zpos p).
    + rewrite IH by (assert (0 < 2 ^ Zpos p) by (apply Z.pow_pos_nonneg; lia); nia).
      by apply IH.
    + replace (Zpos p~0) with (Zpos p + Zpos p) by lia.
      rewrite !Z.pow_add_r by lia. ring.
  - change (2 ^ 1) with 2. rewrite Z.mul_comm. by apply shr_1_double.
Qed.

Lemma shr_exact (x e n : Z) :
  0 <= x -> 0 <= n ->
  shr (Build_shr_record (x * 2 ^ n) false false) e n =
  (Build_shr_record x false false, e + n).
Proof.
  intros Hx Hn. destruct n as [| p | p]; [| | lia].
  - cbn. rewrite Z.mul_1_r, Z.add_0_r. reflexivity.
  - cbn [shr]. by rewrite iter_shr_1_exact.
Qed.

(** A binary64 value without fraction bits has a mantissa of 53 bits. *)
Lemma valid_digits (s : bool) (m : positive) (e : Z) :
  valid (S754_finite s m e) = true -> 0 <= e ->
  Zpos (digits2_pos m) = 53 /\ e <= 971.
Proof.
  unfold valid, valid_binary, bounded, canonical_mantissa, fexp, SpecFloat.emin.
  intros [Hc He]%andb_prop Hpos. apply Z.eqb_eq in Hc. apply Z.leb_le in He.
  unfold prec, emax in *. lia.
Qed.

(** A decimal whose value is a binary64 integer converts to it exactly. *)
Lemma of_fraction_exact (m : positive) (e : Z) :
  valid (S754_finite false m e) = true -> 0 <= e ->
  of_fraction false (Z.to_N (Zpos m * 2 ^ e * 10 ^ 4)) (10 ^ 4) = S754_finite false m e.
Proof.
  intros Hvalid He. destruct (valid_digits _ _ _ Hvalid He) as [Hd Hemax].
  pose proof (digits2_pos_bound m) as Hhi. pose proof (digits2_pos_lower m) as Hlo.
  rewrite Hd in Hhi, Hlo. change (53 - 1) with 52 in Hlo.
  assert (0 < 2 ^ e) as H2e by (apply Z.pow_pos_nonneg; lia).
  remember (Zpos m * 2 ^ e * 10 ^ 4) as num eqn:Hnum.
  assert (0 < num) as Hpos by (subst num; change (10 ^ 4) with 10000; nia).
  (* the digits of the numerator *)
  assert (Zdigits2 num = 66 + e \/ Zdigits2 num = 67 + e) as Hd1.
  { destruct (Z.lt_ge_cases num (2 ^ (66 + e))) as [Hlt | Hge].
    - left. apply Zdigits2_unique; [| lia]. split; [| done].
      replace (66 + e - 1) with (65 + e) by lia.
      rewrite Z.pow_add_r by lia. subst num.
      change (2 ^ 65) with (2 ^ 52 * 8192). change (10 ^ 4) with 10000. nia.
    - right. apply Zdigits2_unique; [| lia]. split.
      + by replace (67 + e - 1) with (66 + e) by lia.
      + rewrite Z.pow_add_r by lia. subst num.
        change (2 ^ 67) with (2 ^ 53 * 16384). change (10 ^ 4) with 10000. nia. }
  destruct num as [| p | p]; [lia | | lia].
  cbn [Z.to_N of_fraction].
  change (Pos.pow 10 4) with 10000%positive.
  unfold SFdiv_core_binary.
  change (Zdigits2 10000) with 14.
  unfold fexp, SpecFloat.emin, prec, emax.
  set (e' := Z.min (Z.max (Zdigits2 (Zpos p) + 0 - (14 + 0) - 53) (3 - 1024 - 53)) (0 - 0)).
  assert (e' = 0 \/ (e' = -1 /\ e = 0)) as He' by (subst e'; lia).
  set (shifted := match 0 - 0 - e' with
                  | 0 => Zpos p
                  | Z.pos _ => Z.shiftl (Zpos p) (0 - 0 - e')
                  | Z.neg _ => 0
                  end).
  assert (shifted = (Zpos m * 2 ^ (e - e')) * 10000) as Hshifted.
  { subst shifted. destruct He' as [-> | [-> ->]].
    - change (0 - 0 - 0) with 0. cbv beta iota. rewrite Z.sub_0_r, Hnum. reflexivity.
    - change (0 - 0 - -1) with 1. cbv beta iota. rewrite Z.shiftl_mul_pow2 by lia.
      rewrite Hnum. change (10 ^ 4) with 10000. change (0 - -1) with 1.
      change (2 ^ 0) with 1. change (2 ^ 1) with 2. ring. }
  destruct (Z.div_eucl shifted 10000) as [q r] eqn:Hdiv.
  assert (q = shifted / 10000) as Hq by (unfold Z.div; by rewrite Hdiv).
  assert (r = shifted mod 10000) as Hr by (unfold Z.modulo; by rewrite Hdiv).
  rewrite Hshifted in Hq, Hr.
  rewrite Z.div_mul in Hq by lia. rewrite Z.mod_mul in Hr by lia. subst q r.
  change (new_location 10000 0) with loc_Exact.
  assert (0 < 2 ^ (e - e')) as H2 by (apply Z.pow_pos_nonneg; lia).
  assert (Zdigits2 (Zpos m * 2 ^ (e - e')) = 53 + (e - e')) as Hdq.
  { apply Zdigits2_unique; [| nia]. split.
    - replace (53 + (e - e') - 1) with (52 + (e - e')) by lia.
      rewrite Z.pow_add_r by lia. nia.
    - rewrite Z.pow_add_r by lia. nia. }
  unfold binary_round_aux, shr_fexp. rewrite Hdq.
  unfold fexp, SpecFloat.emin.
  replace (Z.max (53 + (e - e') + e' - 53) (3 - 1024 - 53) - e') with (e - e') by lia.
  cbn [shr_record_of_loc]. rewrite shr_exact by lia.
  cbn [shr_m loc_of_shr_record round_nearest_even].
  cbn [Zdigits2]. rewrite Hd.
  replace (Z.max (53 + (e' + (e - e')) - 53) (3 - 1024 - 53) - (e' + (e - e'))) with 0 by lia.
  cbn [shr shr_m]. replace (e' + (e - e')) with e by lia.
  destruct (Z.leb_spec e (1024 - 53)); [done | lia].
Qed.

Lemma toFixed4_rounds (R : float) :
  valid R = true -> lessThan pos_zero R = true ->
  rounded_to_4_places R (parseFloat (toFixed4 R)).
Proof.
  intros Hvalid Hpos. apply lessThan_zero_cases in Hpos as [-> | (m & e & ->)].
  - reflexivity.
  - unfold rounded_to_4_places. cbn [to_Q toFixed4].
    exists (nearest_scaled m e). split; [apply nearest_scaled_spec |].
    destruct (at_least_1e21 m e) eqn:Hbig; [| done].
    pose proof (valid_large_exponent _ _ _ Hvalid Hbig) as He.
    cbn [parseFloat]. unfold nearest_scaled.
    destruct (Z.leb_spec 0 e); [| lia].
    symmetry. by apply of_fraction_exact.
Qed.

(** ** The event log *)

Lemma log_log st evs evs' : log (log st evs) evs' = log st (evs ++ evs').
Proof. unfold log; cbn. by rewrite <- app_assoc. Qed.

Lemma log_nil st : log st [] = st.
Proof. destruct st; unfold log; cbn. by rewrite app_nil_r. Qed.

Lemma new_events_same st : new_events st st = [].
Proof. unfold new_events. by rewrite drop_all. Qed.

Lemma new_events_log st evs : new_events st (log st evs) = evs.
Proof. unfold new_events, log; cbn. by rewrite drop_app_length. Qed.

Lemma requested_app evs evs' : requested (evs ++ evs') = requested evs ++ requested evs'.
Proof. unfold requested. apply flat_map_app. Qed.

Lemma requested_requests from to apis :
  requested (map (request_of from to) apis) = map name apis.
Proof. induction apis as [| a rest IH]; [done |]. cbn. f_equal. exact IH. Qed.

Lemma writes_for_app key evs evs' :
  writes_for key (evs ++ evs') = writes_for key evs ++ writes_for key evs'.
Proof. unfold writes_for. apply flat_map_app. Qed.

Lemma writes_for_requests key from to apis :
  writes_for key (map (request_of from to) apis) = [].
Proof. induction apis as [| a rest IH]; [done |]. cbn. exact IH. Qed.

Lemma write_times_app key evs evs' :
  write_times key (evs ++ evs') = write_times key evs ++ write_times key evs'.
Proof. unfold write_times. by rewrite writes_for_app, map_app. Qed.

Lemma latest_app ws ws' before :
  latest (ws ++ ws') before = latest ws' (latest ws before).
Proof.
  unfold latest. destruct ws' as [| e ws'] using rev_ind.
  - by rewrite app_nil_r.
  - by rewrite app_assoc, !last_snoc.
Qed.

Lemma nondecreasing_cons x l :
  nondecreasing (x :: l) = true <->
  (forall y, y ∈ l -> x <= y) /\ nondecreasing l = true.
Proof.
  revert x. induction l as [| y l IH]; intros x.
  - cbn. split; [intros _; split; [intros y Hy; inversion Hy | done] | done].
  - change (nondecreasing (x :: y :: l)) with ((x <=? y) && nondecreasing (y :: l)).
    rewrite andb_true_iff, Z.leb_le. split.
    + intros [Hxy Hl]. split; [| done].
      intros z [-> | Hz]%elem_of_cons; [done |].
      apply IH in Hl as [Hall _]. specialize (Hall z Hz). lia.
    + intros [Hall Hl]. split; [| done]. apply Hall. by left.
Qed.

(** ** The freshness test *)

Lemma still_valid_Some now cached c :
  still_valid now cached = Some c <->
  cached = Some c /\ now - timestamp c < exchangeRateCache.duration.
Proof.
  unfold still_valid. destruct cached as [c' |]; [| by split; [| intros [? _]]].
  destruct (Z.ltb_spec (now - timestamp c') exchangeRateCache.duration) as [Hlt | Hge].
  - split; [by intros [= <-] | by intros [[= <-] _]].
  - split; [done |]. intros [[= <-] Hlt]. lia.
Qed.

Lemma still_valid_None now cached :
  still_valid now cached = None <->
  forall c, cached = Some c -> exchangeRateCache.duration <= now - timestamp c.
Proof.
  unfold still_valid. destruct cached as [c' |]; [| by split].
  destruct (Z.ltb_spec (now - timestamp c') exchangeRateCache.duration) as [Hlt | Hge].
  - split; [done |]. intros H'. specialize (H' c' eq_refl). lia.
  - split; [| done]. intros _ c [= <-]. lia.
Qed.

(** ** One call *)

Lemma accepted_rate_Some reply r :
  accepted_rate reply = Some r <->
  exists x, reply = Normal (VNumber x) /\ lessThan pos_zero x = true /\
            r = parseFloat (toFixed4 x).
Proof.
  unfold accepted_rate. split.
  - destruct reply as [[| | b | x | empty num | num] | e]; try discriminate.
    destruct (lessThan pos_zero x) eqn:Hx; [| discriminate].
    intros [= <-]. eauto.
  - intros (x & -> & Hx & ->). by rewrite Hx.
Qed.

Lemma accepted_rate_None reply :
  accepted_rate reply = None <->
  forall x, reply = Normal (VNumber x) -> lessThan pos_zero x = false.
Proof.
  unfold accepted_rate. split.
  - intros H x ->. destruct (lessThan pos_zero x); [discriminate | done].
  - intros H. destruct reply as [[| | b | x | empty num | num] | e]; try done.
    by rewrite (H x).
Qed.

Section OneCall.

Variables (from to : string) (now : Z).

(** Lines 247-261 on a reply: the guard, [toFixed] and the [catch] block
    together accept a Number above zero and nothing else. *)
Lemma on_reply_spec api reply st :
  try_catch (on_reply api from to now reply) (fun _ => ret None) st =
  match accepted_rate reply with
  | Some r =>
      (Normal (Some {| entry := stored_entry api now r; fromCache := false |}),
       written_state api from to now r st)
  | None => (Normal None, st)
  end.
Proof.
  unfold try_catch, on_reply, bind, lift, accepted_rate.
  destruct reply as [v | e]; cbn; [| reflexivity].
  destruct v as [| | b | x | empty num | num]; cbn; try reflexivity.
  - destruct b; cbn; reflexivity.
  - unfold rate_guard, greater_than_zero. cbn [ToNumber].
    destruct (lessThan pos_zero x) eqn:Hx.
    + rewrite (lessThan_zero_truthy x Hx). reflexivity.
    + destruct (ToBoolean (VNumber x)); reflexivity.
  - unfold rate_guard, greater_than_zero. cbn.
    destruct empty; cbn; [reflexivity |].
    destruct (lessThan pos_zero num); reflexivity.
  - unfold rate_guard, greater_than_zero. cbn.
    destruct num as [n | e]; cbn; [| reflexivity].
    destruct (lessThan pos_zero n); reflexivity.
Qed.

Variable fetch : transport.

Lemma iteration_on_reply api st :
  iteration api from to now fetch st =
  try_catch (on_reply api from to now (fetch (url api from to) to)) (fun _ => ret None)
            (log st [request_of from to api]).
Proof. reflexivity. Qed.

Lemma iteration_spec api st :
  iteration api from to now fetch st =
  match accepted_rate (fetch (url api from to) to) with
  | Some r =>
      (Normal (Some {| entry := stored_entry api now r; fromCache := false |}),
       accepted_state api from to now r st)
  | None => (Normal None, log st [request_of from to api])
  end.
Proof.
  rewrite iteration_on_reply, on_reply_spec.
  destruct (accepted_rate (fetch (url api from to) to)) as [r |]; [| reflexivity].
  unfold written_state, accepted_state, log; cbn. by rewrite <- app_assoc.
Qed.

Lemma accepted_state_log api r st evs :
  accepted_state api from to now r (log st evs) =
  {| cache := <[cacheKey from to := stored_entry api now r]> (cache st);
     events := events st ++ evs ++ [request_of from to api;
                                    CacheWrite (cacheKey from to) (stored_entry api now r)] |}.
Proof. unfold accepted_state, log; cbn. by rewrite <- app_assoc. Qed.

Lemma new_events_accepted api r st evs :
  new_events st (accepted_state api from to now r (log st evs)) =
  evs ++ [request_of from to api; CacheWrite (cacheKey from to) (stored_entry api now r)].
Proof. rewrite accepted_state_log. unfold new_events; cbn. by rewrite drop_app_length. Qed.

Lemma provider_loop_rejected apis st :
  all_rejected from to fetch apis ->
  provider_loop apis from to now fetch st =
  (Normal None, log st (map (request_of from to) apis)).
Proof.
  revert st. induction apis as [| a rest IH]; intros st Hrej.
  - cbn. by rewrite log_nil.
  - cbn [provider_loop]. unfold bind. rewrite iteration_spec.
    rewrite (Hrej a) by (by left).
    rewrite IH by (intros b Hb; apply Hrej; by right). by rewrite log_log.
Qed.

Lemma provider_loop_accepted before api after st r :
  all_rejected from to fetch before ->
  accepted_rate (fetch (url api from to) to) = Some r ->
  provider_loop (before ++ api :: after) from to now fetch st =
  (Normal (Some {| entry := stored_entry api now r; fromCache := false |}),
   accepted_state api from to now r (log st (map (request_of from to) before))).
Proof.
  revert st. induction before as [| a rest IH]; intros st Hrej Hacc.
  - cbn [app provider_loop map]. unfold bind. rewrite iteration_spec, Hacc.
    by rewrite log_nil.
  - cbn [app provider_loop map]. unfold bind. rewrite iteration_spec.
    rewrite (Hrej a) by (by left).
    rewrite IH; [| intros b Hb; apply Hrej; by right | done]. by rewrite log_log.
Qed.

(** A list of providers splits at the first one whose reply is accepted. *)
Lemma first_accepted_split apis :
  all_rejected from to fetch apis \/
  exists before api after r,
    apis = before ++ api :: after /\
    all_rejected from to fetch before /\
    accepted_rate (fetch (url api from to) to) = Some r.
Proof.
  induction apis as [| a rest IH].
  - left. intros a Ha. inversion Ha.
  - destruct (accepted_rate (fetch (url a from to) to)) as [r |] eqn:Ha.
    + right. exists [], a, rest, r. split_and!; [done | | done].
      intros b Hb. inversion Hb.
    + destruct IH as [Hall | (before & api & after & r & -> & Hb & Hacc)].
      * left. intros b [-> | Hb]%elem_of_cons; auto.
      * right. exists (a :: before), api, after, r. split_and!; [done | | done].
        intros b [-> | Hin]%elem_of_cons; auto.
Qed.

Lemma fetch_fresh apis st c :
  still_valid now (cache st !! cacheKey from to) = Some c ->
  fetchExchangeRate_on apis from to now fetch st =
  (Normal {| entry := c; fromCache := false |}, st).
Proof.
  intros H. unfold fetchExchangeRate_on, bind, read_cache. by rewrite H.
Qed.

Lemma fetch_accepted before api after st r :
  still_valid now (cache st !! cacheKey from to) = None ->
  all_rejected from to fetch before ->
  accepted_rate (fetch (url api from to) to) = Some r ->
  fetchExchangeRate_on (before ++ api :: after) from to now fetch st =
  (Normal {| entry := stored_entry api now r; fromCache := false |},
   accepted_state api from to now r (log st (map (request_of from to) before))).
Proof.
  intros H Hrej Hacc. unfold fetchExchangeRate_on, bind, read_cache. rewrite H.
  by rewrite (provider_loop_accepted _ _ _ _ r Hrej Hacc).
Qed.

Lemma fetch_exhausted apis st :
  still_valid now (cache st !! cacheKey from to) = None ->
  all_rejected from to fetch apis ->
  fetchExchangeRate_on apis from to now fetch st =
  (match cache st !! cacheKey from to with
   | Some c => Normal {| entry := c; fromCache := true |}
   | None => Throw NoRateAvailable
   end, log st (map (request_of from to) apis)).
Proof.
  intros H Hrej. unfold fetchExchangeRate_on, bind, read_cache. rewrite H.
  rewrite (provider_loop_rejected _ _ Hrej).
  unfold after_loop. by destruct (cache st !! cacheKey from to).
Qed.

(** The three ways a call ends: on a fresh entry, on the first acceptable
    provider, or with every provider rejected. *)
Lemma fetch_cases apis st :
  let run := fetchExchangeRate_on apis from to now fetch st in
  let key := cacheKey from to in
  (exists c, still_valid now (cache st !! key) = Some c /\
             run = (Normal {| entry := c; fromCache := false |}, st))
  \/ (still_valid now (cache st !! key) = None /\
      exists before api after r,
        apis = before ++ api :: after /\
        all_rejected from to fetch before /\
        accepted_rate (fetch (url api from to) to) = Some r /\
        run = (Normal {| entry := stored_entry api now r; fromCache := false |},
               accepted_state api from to now r
                 (log st (map (request_of from to) before))))
  \/ (still_valid now (cache st !! key) = None /\
      all_rejected from to fetch apis /\
      run = (match cache st !! key with
             | Some c => Normal {| entry := c; fromCache := true |}
             | None => Throw NoRateAvailable
             end, log st (map (request_of from to) apis))).
Proof.
  intros run key. subst run key.
  destruct (still_valid now (cache st !! cacheKey from to)) as [c |] eqn:Hv.
  - left. exists c. split; [done |]. by apply fetch_fresh.
  - right.
    destruct (first_accepted_split apis)
      as [Hall | (before & api & after & r & -> & Hb & Hacc)].
    + right. split_and!; [done | done |]. by apply fetch_exhausted.
    + left. split; [done |]. exists before, api, after, r.
      split_and!; try done. by apply fetch_accepted.
Qed.

End OneCall.

(** Case analysis on how the call [fetchExchangeRate from to now fetch st]
    ends. *)
Ltac call_cases from to now fetch st :=
  let c := fresh "c" in
  let Hv := fresh "Hfresh" in
  let before := fresh "before" in
  let api := fresh "api" in
  let after := fresh "after" in
  let r := fresh "r" in
  let Hsplit := fresh "Hsplit" in
  let Hb := fresh "Hbefore" in
  let Hacc := fresh "Haccepted" in
  let Hall := fresh "Hall" in
  unfold fetchExchangeRate in *;
  destruct (fetch_cases from to now fetch EXCHANGE_RATE_APIS st)
    as [(c & Hv & ->)
       | [(Hv & before & api & after & r & Hsplit & Hb & Hacc & ->)
         | (Hv & Hall & ->)]];
  cbn [fst snd].

(** ** Acceptance of a provider's rate *)

(** C1, as amended. One iteration of the provider loop accepts the reply,
    stores the rate and returns, exactly when the extracted rate is a Number
    strictly greater than zero; positive [Infinity] is such a Number. When
    the extracted rate is a Number that is not above zero (zero, negative,
    [NaN]), is not a Number, or the request failed, nothing is stored and
    the loop goes on with the next provider. *)
Theorem rate_accepted_iff_positive_number api from to now fetch st :
  let reply := fetch (url api from to) to in
  ((exists r, (iteration api from to now fetch st).1 = Normal (Some r)) <->
   (exists x, reply = Normal (VNumber x) /\ lessThan pos_zero x = true))
  /\ (forall x, reply = Normal (VNumber x) -> lessThan pos_zero x = true ->
      iteration api from to now fetch st =
      (Normal (Some {| entry := stored_entry api now (parseFloat (toFixed4 x));
                       fromCache := false |}),
       accepted_state api from to now (parseFloat (toFixed4 x)) st))
  /\ ((forall x, reply = Normal (VNumber x) -> lessThan pos_zero x = false) ->
      forall rest,
        provider_loop (api :: rest) from to now fetch st =
        provider_loop rest from to now fetch (log st [request_of from to api]))
  /\ (forall x, lessThan pos_zero x = true <->
                x = S754_infinity false \/ exists m e, x = S754_finite false m e).
Proof.
  intros reply. split_and!.
  - rewrite iteration_spec. fold reply.
    destruct (accepted_rate reply) as [r |] eqn:Hr.
    + apply accepted_rate_Some in Hr as (x & Hx & Hpos & _). split; eauto.
    + cbn. split; [intros [r [=]] |].
      intros (x & Hx & Hpos). rewrite accepted_rate_None in Hr.
      rewrite (Hr x Hx) in Hpos. discriminate.
  - intros x Hx Hpos. rewrite iteration_spec. fold reply.
    assert (accepted_rate reply = Some (parseFloat (toFixed4 x))) as ->; [| done].
    apply accepted_rate_Some. eauto.
  - intros Hrej rest. cbn [provider_loop]. unfold bind. rewrite iteration_spec.
    fold reply. apply accepted_rate_None in Hrej. by rewrite Hrej.
  - apply lessThan_zero_cases.
Qed.

Lemma rate_accepted_witness :
  provider_loop (api_1 :: [api_2; api_3]) "USD" "CNY" 5000 second_provider_answers
                empty_state =
  provider_loop [api_2; api_3] "USD" "CNY" 5000 second_provider_answers
                (log empty_state [request_of "USD" "CNY" api_1]).
Proof.
  destruct (rate_accepted_iff_positive_number api_1 "USD" "CNY" 5000
              second_provider_answers empty_state) as (_ & _ & Hnext & _).
  apply Hnext. intros x Hx. vm_compute in Hx. discriminate Hx.
Defined.

(** C1 as stated fails: a provider whose body gives the rate [1e999], which
    [JSON.parse] reads as [Infinity], is accepted; the call returns the
    rate [Infinity] from the first provider, stores it in the cache and asks
    no other provider. *)
Lemma infinite_rate_is_accepted :
  isFinite pos_infinity = false
  /\ fetchExchangeRate "USD" "CNY" 1000 providers_answer_infinity empty_state =
     (Normal {| entry := {| rate := pos_infinity; timestamp := 1000;
                            source := "exchangerate-api.com" |};
                fromCache := false |},
      {| cache := {[ "USD-CNY"%string :=
                       {| rate := pos_infinity; timestamp := 1000;
                          source := "exchangerate-api.com" |} ]};
         events := [ Requested "exchangerate-api.com"
                               "https://api.exchangerate-api.com/v4/latest/USD";
                     CacheWrite "USD-CNY"
                                {| rate := pos_infinity; timestamp := 1000;
                                   source := "exchangerate-api.com" |} ] |}).
Proof. split; vm_compute; reflexivity. Qed.

(** ** One call among others *)

Lemma settle_answered id p sv :
  exists l, answered (settle id p sv) = answered sv ++ l
            /\ (l = [] \/ exists c, l = [(id, c)]).
Proof.
  destruct p as [[c | s] st']; cbn.
  - exists [(id, c)]. eauto.
  - exists []. rewrite app_nil_r. auto.
Qed.

Lemma perform_answered sv a :
  exists l, answered (perform sv a) = answered sv ++ l
            /\ (l = [] \/ exists c, l = [(action_id a, c)]).
Proof.
  destruct a as [id from to now | id reply]; cbn [perform action_id].
  - apply settle_answered.
  - destruct (waiting sv !! id) as [s |]; [apply settle_answered |].
    exists []. rewrite app_nil_r. auto.
Qed.

Lemma run_schedule_cons a acts sv :
  run_schedule (a :: acts) sv = run_schedule acts (perform sv a).
Proof. reflexivity. Qed.

Lemma run_schedule_answered acts sv :
  exists l, answered (run_schedule acts sv) = answered sv ++ l.
Proof.
  revert sv. induction acts as [| a acts IH]; intros sv.
  - exists []. by rewrite app_nil_r.
  - rewrite run_schedule_cons.
    destruct (perform_answered sv a) as (l1 & H1 & _).
    destruct (IH (perform sv a)) as (l2 & H2).
    exists (l1 ++ l2). by rewrite H2, H1, app_assoc.
Qed.

Lemma answered_since_app id sv l :
  forall sv', answered sv' = answered sv ++ l ->
  answered_since id sv sv' =
  flat_map (fun ic : nat * completion RateResult =>
              if Nat.eqb ic.1 id then [ic.2] else []) l.
Proof. intros sv' H. unfold answered_since. by rewrite H, drop_app_length. Qed.

Lemma answered_since_trans id sv1 sv2 sv3 :
  (exists l, answered sv2 = answered sv1 ++ l) ->
  (exists l, answered sv3 = answered sv2 ++ l) ->
  answered_since id sv1 sv3 = answered_since id sv1 sv2 ++ answered_since id sv2 sv3.
Proof.
  intros [l1 H1] [l2 H2].
  rewrite (answered_since_app id sv1 l1 sv2 H1), (answered_since_app id sv2 l2 sv3 H2).
  rewrite (answered_since_app id sv1 (l1 ++ l2) sv3) by (by rewrite H2, H1, app_assoc).
  apply flat_map_app.
Qed.

(** A step of another call leaves the call where it is. *)
Lemma perform_other id a sv :
  action_id a <> id ->
  waiting (perform sv a) !! id = waiting sv !! id
  /\ answered_since id sv (perform sv a) = [].
Proof.
  intros Hne.
  assert (forall p, waiting (settle (action_id a) p sv) !! id = waiting sv !! id) as Hw.
  { intros [[c | s] st']; cbn; [by apply lookup_delete_ne | by apply lookup_insert_ne]. }
  split.
  - destruct a as [j from to now | j reply]; cbn [perform action_id] in *; [apply Hw |].
    destruct (waiting sv !! j); [apply Hw | done].
  - destruct (perform_answered sv a) as (l & Hl & Hcase).
    rewrite (answered_since_app id sv l _ Hl).
    destruct Hcase as [-> | [c ->]]; [done |]. cbn.
    by destruct (Nat.eqb_spec (action_id a) id).
Qed.

(** A call that is not waiting gets nothing from a schedule that does not
    start it again. *)
Lemma not_waiting_stays id acts sv :
  waiting sv !! id = None -> calls_under id acts = false ->
  waiting (run_schedule acts sv) !! id = None
  /\ answered_since id sv (run_schedule acts sv) = [].
Proof.
  revert sv. induction acts as [| a acts IH]; intros sv Hw Hcalls.
  - split; [done |]. unfold answered_since. cbn. by rewrite drop_all.
  - rewrite run_schedule_cons. cbn [calls_under existsb] in Hcalls.
    apply orb_false_elim in Hcalls as [Ha Hcalls].
    assert (waiting (perform sv a) !! id = None
            /\ answered_since id sv (perform sv a) = []) as [Hw' Hans].
    { destruct a as [j from to now | j reply].
      - apply Nat.eqb_neq in Ha. rewrite <- Hw. by apply perform_other.
      - destruct (Nat.eq_dec j id) as [-> | Hne].
        + cbn [perform]. rewrite Hw. split; [done |].
          unfold answered_since. by rewrite drop_all.
        + rewrite <- Hw. by apply perform_other. }
    destruct (IH (perform sv a) Hw' Hcalls) as [Hw'' Hans'].
    split; [done |].
    rewrite (answered_since_trans id sv (perform sv a)); [by rewrite Hans, Hans' | |].
    + destruct (perform_answered sv a) as (l & Hl & _). eauto.
    + apply run_schedule_answered.
Qed.

(** What a reply makes of a suspended call. *)
Lemma resume_progress s reply st :
  (resume s reply st).1 =
  match accepted_rate reply with
  | Some r =>
      Settled (Normal {| entry := stored_entry (s_api s) (s_now s) r; fromCache := false |})
  | None =>
      match s_rest s with
      | [] => Settled (fallback (s_cached s))
      | api :: rest =>
          Awaiting {| s_from := s_from s; s_to := s_to s; s_now := s_now s;
                      s_cached := s_cached s; s_api := api; s_rest := rest |}
      end
  end.
Proof.
  unfold resume. rewrite on_reply_spec.
  destruct (accepted_rate reply) as [r |]; [done |].
  destruct (s_rest s) as [| api rest]; cbn; [| done].
  unfold after_loop, fallback. by destruct (s_cached s).
Qed.

(** A suspended call through a schedule: its end is read off its own
    replies, whatever the other calls do in between. *)
Lemma waiting_call_ends id acts : forall sv s,
  waiting sv !! id = Some s -> calls_under id acts = false ->
  let sv' := run_schedule acts sv in
  let result := ends_with (s_api s :: s_rest s) (s_now s) (s_cached s) (replies_to id acts) in
  answered_since id sv sv' = option_list result
  /\ match result with
     | Some _ => waiting sv' !! id = None
     | None => exists s', waiting sv' !! id = Some s'
     end.
Proof.
  induction acts as [| a acts IH]; intros sv s Hw Hcalls; cbv zeta.
  - cbn. split; [| eauto]. unfold answered_since. by rewrite drop_all.
  - rewrite run_schedule_cons. cbn [calls_under existsb] in Hcalls.
    apply orb_false_elim in Hcalls as [Ha Hcalls].
    assert (forall sv1, (exists l, answered sv1 = answered sv ++ l) ->
              answered_since id sv (run_schedule acts sv1) =
              answered_since id sv sv1 ++ answered_since id sv1 (run_schedule acts sv1))
      as Htrans.
    { intros sv1 H1. apply answered_since_trans; [done | apply run_schedule_answered]. }
    destruct (Nat.eq_dec (action_id a) id) as [Heq | Hne].
    + destruct a as [j from to now | j reply]; cbn [action_id] in Heq; subst j.
      { by rewrite Nat.eqb_refl in Ha. }
      cbn [replies_to flat_map]. rewrite Nat.eqb_refl. cbn [app].
      cbn [perform]. rewrite Hw.
      pose proof (resume_progress s reply (shared sv)) as Hp.
      destruct (resume s reply (shared sv)) as [p st'] eqn:Hres. cbn [fst] in Hp. subst p.
      cbn [ends_with].
      destruct (accepted_rate reply) as [r |].
      * cbn [settle].
        set (sv1 := {| shared := st'; waiting := delete id (waiting sv);
                       answered := answered sv ++ _ |}).
        destruct (not_waiting_stays id acts sv1) as [Hw1 Hans1];
          [apply lookup_delete_eq | done |].
        split; [| done].
        rewrite Htrans by (by eexists). rewrite Hans1, app_nil_r.
        rewrite (answered_since_app id sv [_] sv1 eq_refl). cbn.
        by rewrite Nat.eqb_refl.
      * destruct (s_rest s) as [| api rest] eqn:Hrest.
        -- cbn [settle].
           set (sv1 := {| shared := st'; waiting := delete id (waiting sv);
                          answered := answered sv ++ _ |}).
           destruct (not_waiting_stays id acts sv1) as [Hw1 Hans1];
             [apply lookup_delete_eq | done |].
           split; [| done].
           rewrite Htrans by (by eexists). rewrite Hans1, app_nil_r.
           rewrite (answered_since_app id sv [_] sv1 eq_refl). cbn.
           by rewrite Nat.eqb_refl.
        -- cbn [settle].
           set (s1 := {| s_from := s_from s; s_to := s_to s; s_now := s_now s;
                         s_cached := s_cached s; s_api := api; s_rest := rest |}).
           set (sv1 := {| shared := st'; waiting := <[id := s1]> (waiting sv);
                          answered := answered sv |}).
           destruct (IH sv1 s1) as [Hans1 Hw1]; [apply lookup_insert_eq | done |].
           cbn [s_api s_rest s_now s_cached s1] in Hans1, Hw1.
           split; [| done].
           rewrite Htrans by (exists []; by rewrite app_nil_r).
           rewrite Hans1. unfold answered_since at 1. cbn [answered sv1].
           by rewrite drop_all.
    + destruct (perform_other id a sv Hne) as [Hw1 Hans1].
      rewrite <- Hw1 in Hw.
      destruct (IH (perform sv a) s Hw Hcalls) as [Hans2 Hw2].
      assert (replies_to id (a :: acts) = replies_to id acts) as ->.
      { destruct a as [j from to now | j reply]; [done |].
        cbn [replies_to flat_map action_id] in *.
        by destruct (Nat.eqb_spec j id). }
      split; [| done].
      rewrite Htrans by (destruct (perform_answered sv a) as (l & Hl & _); eauto).
      by rewrite Hans1, Hans2.
Qed.

(** A call through a schedule, from its start. *)
Lemma call_ends id from to now acts sv :
  calls_under id acts = false ->
  let sv' := run_schedule (Call id from to now :: acts) sv in
  let result := call_ends_with now (cache (shared sv) !! cacheKey from to)
                               (replies_to id acts) in
  answered_since id sv sv' = option_list result
  /\ match result with
     | Some _ => waiting sv' !! id = None
     | None => exists s, waiting sv' !! id = Some s
     end.
Proof.
  intros Hcalls. cbv zeta. rewrite run_schedule_cons. cbn [perform].
  unfold call_ends_with, start.
  assert (forall sv1, (exists l, answered sv1 = answered sv ++ l) ->
            answered_since id sv (run_schedule acts sv1) =
            answered_since id sv sv1 ++ answered_since id sv1 (run_schedule acts sv1))
    as Htrans.
  { intros sv1 H1. apply answered_since_trans; [done | apply run_schedule_answered]. }
  destruct (still_valid now (cache (shared sv) !! cacheKey from to)) as [c |].
  - cbn [settle].
    set (sv1 := {| shared := shared sv; waiting := delete id (waiting sv);
                   answered := answered sv ++ _ |}).
    destruct (not_waiting_stays id acts sv1) as [Hw1 Hans1];
      [apply lookup_delete_eq | done |].
    split; [| done].
    rewrite Htrans by (by eexists). rewrite Hans1, app_nil_r.
    rewrite (answered_since_app id sv [_] sv1 eq_refl). cbn.
    by rewrite Nat.eqb_refl.
  - cbn [EXCHANGE_RATE_APIS next_request settle].
    match goal with
    | |- context [<[id := ?s]> (waiting sv)] => set (s1 := s)
    end.
    match goal with
    | |- context [run_schedule acts ?x] => set (sv1 := x)
    end.
    destruct (waiting_call_ends id acts sv1 s1) as [Hans1 Hw1];
      [apply lookup_insert_eq | done |].
    split; [| exact Hw1].
    rewrite Htrans by (exists []; by rewrite app_nil_r).
    rewrite Hans1. unfold answered_since at 1. cbn [answered sv1].
    by rewrite drop_all.
Qed.

(** How a call ends, by its replies. *)
Lemma ends_with_exhausted apis now cached : forall replies,
  (length apis <= length replies)%nat ->
  unacceptable (take (length apis) replies) ->
  ends_with apis now cached replies = Some (fallback cached).
Proof.
  induction apis as [| api rest IH]; intros replies Hlen Hrej; [done |].
  destruct replies as [| reply later]; [cbn in Hlen; lia |].
  cbn [length take] in *. apply Forall_cons in Hrej as [Hreply Hrej].
  cbn [ends_with]. rewrite Hreply. apply IH; [lia | done].
Qed.

Lemma ends_with_waiting apis now cached : forall replies,
  (length replies < length apis)%nat -> unacceptable replies ->
  ends_with apis now cached replies = None.
Proof.
  induction apis as [| api rest IH]; intros replies Hlen Hrej; [cbn in Hlen; lia |].
  destruct replies as [| reply later]; [done |].
  apply Forall_cons in Hrej as [Hreply Hrej]. cbn [ends_with length] in *.
  rewrite Hreply. apply IH; [lia | done].
Qed.

Lemma ends_with_accepted before api after now cached reply later r : forall rejected,
  length rejected = length before -> unacceptable rejected ->
  accepted_rate reply = Some r ->
  ends_with (before ++ api :: after) now cached (rejected ++ reply :: later) =
  Some (Normal {| entry := stored_entry api now r; fromCache := false |}).
Proof.
  induction before as [| b before IH]; intros rejected Hlen Hrej Hacc.
  - destruct rejected; [| done]. cbn. by rewrite Hacc.
  - destruct rejected as [| x rejected]; [done |].
    apply Forall_cons in Hrej as [Hx Hrej]. cbn [app ends_with]. rewrite Hx.
    apply IH; [by injection Hlen | done | done].
Qed.

(** The three ways a call that asks the providers can stand. *)
Lemma ends_with_cases apis now cached : forall replies,
  ((length replies < length apis)%nat /\ unacceptable replies
   /\ ends_with apis now cached replies = None)
  \/ ((length apis <= length replies)%nat /\ unacceptable (take (length apis) replies)
      /\ ends_with apis now cached replies = Some (fallback cached))
  \/ (exists before api after rejected reply later r,
        apis = before ++ api :: after /\ replies = rejected ++ reply :: later
        /\ length rejected = length before /\ unacceptable rejected
        /\ accepted_rate reply = Some r
        /\ ends_with apis now cached replies =
           Some (Normal {| entry := stored_entry api now r; fromCache := false |})).
Proof.
  induction apis as [| api rest IH]; intros replies.
  - right. left. cbn. split_and!; [lia | by constructor | done].
  - destruct replies as [| reply later].
    + left. cbn. split_and!; [lia | by constructor | done].
    + cbn [ends_with]. destruct (accepted_rate reply) as [r |] eqn:Hreply.
      * right. right. exists [], api, rest, [], reply, later, r.
        split_and!; try done. by constructor.
      * destruct (IH later)
          as [(Hlen & Hrej & ->)
             | [(Hlen & Hrej & ->)
               | (before & a & after & rejected & rp & lt & r & -> & -> & Hl & Hrej & Hacc & ->)]].
        -- left. cbn [length]. split_and!; [lia | by constructor | done].
        -- right. left. cbn [length take]. split_and!; [lia | by constructor | done].
        -- right. right. exists (api :: before), a, after, (reply :: rejected), rp, lt, r.
           split_and!; try done; [cbn; by rewrite Hl | by constructor].
Qed.

Lemma elem_of_option_list {A} (x : A) (o : option A) : x ∈ option_list o <-> o = Some x.
Proof.
  destruct o as [y |]; cbn.
  - rewrite list_elem_of_singleton. split; [by intros -> | by intros [= ->]].
  - split; [intros H; inversion H | done].
Qed.

Lemma unacceptable_prefix (rejected later : list (completion jsval)) reply r n :
  unacceptable (take n (rejected ++ reply :: later)) ->
  accepted_rate reply = Some r -> (n <= length rejected)%nat.
Proof.
  intros Hrej Hacc. destruct (Nat.le_gt_cases n (length rejected)) as [| Hgt]; [done |].
  exfalso. unfold unacceptable in Hrej. rewrite Forall_forall in Hrej.
  assert (reply ∈ take n (rejected ++ reply :: later)) as Hin.
  { apply list_elem_of_lookup. exists (length rejected).
    rewrite lookup_take_lt by lia. by rewrite list_lookup_middle. }
  specialize (Hrej reply Hin). cbn in Hrej. congruence.
Qed.

Lemma head_option_list {A} (o : option A) : head (option_list o) = o.
Proof. by destruct o. Qed.

(** Replies without an acceptable rate move a suspended call along the
    list: each one has the next provider asked. *)
Lemma unacceptable_replies_advance id from to now cached api after :
  forall before rejected first sv,
    waiting sv !! id = Some (waiting_at from to now cached first (before ++ api :: after)) ->
    length rejected = S (length before) -> unacceptable rejected ->
    run_schedule (map (Reply id) rejected) sv =
    {| shared := log (shared sv) (map (request_of from to) (before ++ [api]));
       waiting := <[id := waiting_at from to now cached api after]> (waiting sv);
       answered := answered sv |}.
Proof.
  induction before as [| b before IH]; intros rejected first sv Hw Hlen Hrej.
  - destruct rejected as [| reply [| ? ?]]; try done.
    apply Forall_cons in Hrej as [Hreply _]. cbn in Hreply.
    cbn [map run_schedule fold_left perform]. rewrite Hw.
    unfold resume. rewrite on_reply_spec, Hreply. reflexivity.
  - destruct rejected as [| reply rejected]; [done |].
    apply Forall_cons in Hrej as [Hreply Hrej]. cbn in Hreply.
    cbn [map]. rewrite run_schedule_cons. cbn [perform]. rewrite Hw.
    unfold resume. rewrite on_reply_spec, Hreply.
    cbn [waiting_at s_rest s_from s_to s_now s_cached app next_request settle].
    change (snd (emit ?ev (shared sv))) with (log (shared sv) [request_of from to b]).
    rewrite (IH rejected b); [| apply lookup_insert_eq | by injection Hlen | done].
    cbn [shared waiting answered]. rewrite log_log, insert_insert_eq. reflexivity.
Qed.

(** Replies to a call that is not waiting are dropped. *)
Lemma replies_dropped id replies sv :
  waiting sv !! id = None -> run_schedule (map (Reply id) replies) sv = sv.
Proof.
  intros Hw. induction replies as [| reply replies IH]; [done |].
  cbn [map]. rewrite run_schedule_cons. cbn [perform]. by rewrite Hw.
Qed.

(** What others do leaves a suspended call where it is. *)
Lemma others_leave_waiting id acts : forall sv,
  replies_to id acts = [] -> calls_under id acts = false ->
  waiting (run_schedule acts sv) !! id = waiting sv !! id
  /\ answered_since id sv (run_schedule acts sv) = [].
Proof.
  induction acts as [| a acts IH]; intros sv Hreplies Hcalls.
  - split; [done |]. unfold answered_since. cbn. by rewrite drop_all.
  - rewrite run_schedule_cons. cbn [calls_under existsb] in Hcalls.
    apply orb_false_elim in Hcalls as [Ha Hcalls].
    assert (action_id a <> id /\ replies_to id acts = []) as [Hne Hreplies'].
    { destruct a as [j from to now | j reply]; cbn [action_id replies_to flat_map] in *.
      - split; [by apply Nat.eqb_neq | done].
      - destruct (Nat.eqb_spec j id); [done | done]. }
    destruct (perform_other id a sv Hne) as [Hw1 Hans1].
    destruct (IH (perform sv a) Hreplies' Hcalls) as [Hw2 Hans2].
    split; [by rewrite Hw2 |].
    rewrite (answered_since_trans id sv (perform sv a)); [by rewrite Hans1, Hans2 | |].
    + destruct (perform_answered sv a) as (l & Hl & _). eauto.
    + apply run_schedule_answered.
Qed.

(** The call after the providers [before] have answered without an
    acceptable rate: [api] has been asked and its reply is awaited. *)
Lemma asked_in_order before api after rejected id from to now sv :
  EXCHANGE_RATE_APIS = before ++ api :: after ->
  still_valid now (cache (shared sv) !! cacheKey from to) = None ->
  length rejected = length before -> unacceptable rejected ->
  run_schedule (Call id from to now :: map (Reply id) rejected) sv =
  {| shared := log (shared sv) (map (request_of from to) (before ++ [api]));
     waiting := <[id := waiting_at from to now (cache (shared sv) !! cacheKey from to)
                                    api after]> (waiting sv);
     answered := answered sv |}.
Proof.
  intros Hsplit Hvalid Hlen Hrej. rewrite run_schedule_cons. cbn [perform].
  unfold start. rewrite Hvalid, Hsplit.
  destruct before as [| first before].
  - destruct rejected; [| done]. reflexivity.
  - cbn [app next_request settle].
    change (snd (emit ?ev (shared sv))) with (log (shared sv) [request_of from to first]).
    rewrite (unacceptable_replies_advance id from to now
               (cache (shared sv) !! cacheKey from to) api after before rejected first);
      [| apply lookup_insert_eq | done | done].
    cbn [shared waiting answered]. rewrite log_log, insert_insert_eq. reflexivity.
Qed.

(** ** Order of the providers *)

(** C2, as amended. When no fresh entry exists the providers are asked in
    the order of [EXCHANGE_RATE_APIS], one request at a time. Once the
    requests to the providers [before] have settled without an acceptable
    rate (the request failed, the body did not parse, the extraction threw
    or the rate was refused: the error is swallowed and the loop goes on),
    [api] has been asked and no provider after it. From there, as long as
    [api]'s request has not settled the call stays suspended on it,
    whatever else the process does, and returns nothing: no timeout is set,
    so a provider that never answers stops the call and no later provider
    is asked. When the request settles with an acceptable rate the call
    returns [api]'s name and rounded rate and stores them, and no later
    provider is asked. The last two parts give the outcome of the call
    when steps of other calls come in between its replies. *)
Theorem providers_asked_in_order_until_one_answers before api after rejected id from to
    now sv :
  EXCHANGE_RATE_APIS = before ++ api :: after ->
  still_valid now (cache (shared sv) !! cacheKey from to) = None ->
  length rejected = length before -> unacceptable rejected ->
  let asked := run_schedule (Call id from to now :: map (Reply id) rejected) sv in
  requested (new_events (shared sv) (shared asked)) = map name before ++ [name api]
  /\ (forall others,
        replies_to id others = [] -> calls_under id others = false ->
        (exists s, waiting (run_schedule others asked) !! id = Some s /\ s_api s = api)
        /\ answered_since id sv (run_schedule others asked) = [])
  /\ (forall reply r later,
        accepted_rate reply = Some r ->
        let settled := run_schedule (Reply id reply :: map (Reply id) later) asked in
        answered_since id sv settled =
          [Normal {| entry := stored_entry api now r; fromCache := false |}]
        /\ requested (new_events (shared sv) (shared settled)) = map name before ++ [name api]
        /\ cache (shared settled) !! cacheKey from to = Some (stored_entry api now r))
  /\ (forall acts,
        calls_under id acts = false -> replies_to id acts = rejected ->
        answered_since id sv (run_schedule (Call id from to now :: acts) sv) = []
        /\ exists s, waiting (run_schedule (Call id from to now :: acts) sv) !! id = Some s)
  /\ (forall acts reply r later,
        calls_under id acts = false -> replies_to id acts = rejected ++ reply :: later ->
        accepted_rate reply = Some r ->
        answered_since id sv (run_schedule (Call id from to now :: acts) sv) =
          [Normal {| entry := stored_entry api now r; fromCache := false |}]).
Proof.
  intros Hsplit Hvalid Hlen Hrej. cbv zeta.
  assert (forall acts,
            calls_under id acts = false -> replies_to id acts = rejected ->
            answered_since id sv (run_schedule (Call id from to now :: acts) sv) = []
            /\ exists s, waiting (run_schedule (Call id from to now :: acts) sv) !! id = Some s)
    as Hpending.
  { intros acts Hcalls Hreplies.
    pose proof (call_ends id from to now acts sv Hcalls) as Hends. cbv zeta in Hends.
    unfold call_ends_with in Hends.
    rewrite Hvalid, Hreplies, ends_with_waiting in Hends; [done | | done].
    rewrite Hsplit, Hlen, length_app. cbn. lia. }
  assert (forall acts reply r later,
            calls_under id acts = false -> replies_to id acts = rejected ++ reply :: later ->
            accepted_rate reply = Some r ->
            answered_since id sv (run_schedule (Call id from to now :: acts) sv) =
              [Normal {| entry := stored_entry api now r; fromCache := false |}])
    as Hfirst.
  { intros acts reply r later Hcalls Hreplies Hacc.
    pose proof (call_ends id from to now acts sv Hcalls) as [Hends _]. cbv zeta in Hends.
    unfold call_ends_with in Hends.
    by rewrite Hvalid, Hreplies, Hsplit, (ends_with_accepted _ _ _ _ _ _ _ r) in Hends. }
  rewrite (asked_in_order before api after rejected id from to now sv) by done.
  set (asked := {| shared := _; waiting := _; answered := answered sv |}).
  split_and!.
  - cbn [shared asked]. by rewrite new_events_log, requested_requests, map_app.
  - intros others Hreplies Hcalls.
    destruct (others_leave_waiting id others asked Hreplies Hcalls) as [Hw Hans].
    split.
    + rewrite Hw. cbn [waiting asked]. rewrite lookup_insert_eq. eauto.
    + rewrite (answered_since_trans id sv asked);
        [| exists []; by rewrite app_nil_r | apply run_schedule_answered].
      rewrite Hans, app_nil_r. unfold answered_since. cbn [answered asked].
      by rewrite drop_all.
  - intros reply r later Hacc. cbv zeta. rewrite run_schedule_cons. cbn [perform].
    cbn [waiting asked]. rewrite lookup_insert_eq.
    unfold resume. rewrite on_reply_spec, Hacc. cbn [waiting_at s_api s_from s_to s_now settle].
    rewrite replies_dropped by apply lookup_delete_eq.
    cbn [shared answered asked]. split_and!.
    + unfold answered_since. cbn [answered]. rewrite drop_app_length. cbn.
      by rewrite Nat.eqb_refl.
    + unfold written_state, new_events, log. cbn [events].
      rewrite <- app_assoc, drop_app_length, requested_app, requested_requests, map_app.
      cbn. by rewrite app_nil_r.
    + unfold written_state. cbn [cache]. apply lookup_insert_eq.
  - exact Hpending.
  - exact Hfirst.
Qed.

Lemma providers_asked_in_order_witness :
  let asked := run_schedule [Call 1 "USD" "CNY" 5000; Reply 1 (Throw RequestError)]
                            idle_server in
  requested (new_events (shared idle_server) (shared asked)) =
    ["exchangerate-api.com"; "open.er-api.com"]%string
  /\ answered_since 1 idle_server
       (run_schedule [Reply 1 (Normal (VNumber seven_point_1999))] asked) =
     [Normal {| entry := stored_entry api_2 5000 seven_point_1999; fromCache := false |}]
  /\ requested (new_events (shared idle_server)
                  (shared (run_schedule [Reply 1 (Normal (VNumber seven_point_1999))] asked))) =
     ["exchangerate-api.com"; "open.er-api.com"]%string.
Proof.
  destruct (providers_asked_in_order_until_one_answers [api_1] api_2 [api_3]
              [Throw RequestError] 1%nat "USD" "CNY" 5000 idle_server)
    as (Hasked & _ & Haccepted & _).
  - reflexivity.
  - reflexivity.
  - reflexivity.
  - by repeat constructor.
  - destruct (Haccepted (Normal (VNumber seven_point_1999)) seven_point_1999 [])
      as (Hanswer & Hrequested & _).
    + vm_compute. reflexivity.
    + split_and!; [exact Hasked | exact Hanswer | exact Hrequested].
Defined.

(** C2 as stated fails for a provider that never answers. The first
    provider is asked and its request never settles: nothing is swallowed,
    the second provider is never asked by this call, and the call returns
    nothing, whatever the process does besides. *)
Lemma silent_provider_blocks_the_call :
  let asked := run_schedule [Call 1 "USD" "CNY" 5000] idle_server in
  requested (events (shared asked)) = ["exchangerate-api.com"]%string
  /\ answered asked = []
  /\ (forall others,
        replies_to 1 others = [] -> calls_under 1 others = false ->
        (exists s, waiting (run_schedule others asked) !! 1%nat = Some s /\ s_api s = api_1)
        /\ answered_since 1 idle_server (run_schedule others asked) = []).
Proof.
  cbv zeta. split_and!; [reflexivity | reflexivity |].
  intros others Hreplies Hcalls.
  destruct (others_leave_waiting 1 others
              (run_schedule [Call 1 "USD" "CNY" 5000] idle_server) Hreplies Hcalls)
    as [Hw Hans].
  split.
  - rewrite Hw. eexists. split; reflexivity.
  - rewrite (answered_since_trans 1 idle_server
               (run_schedule [Call 1 "USD" "CNY" 5000] idle_server));
      [by rewrite Hans | by exists [] | apply run_schedule_answered].
Qed.

(** ** The cache hit *)

(** C3. With an entry for the pair younger than one hour, the call returns
    that entry with [fromCache = false] and leaves the state as it was: no
    provider is asked and nothing is written. *)
Theorem fresh_entry_returned_without_provider from to now fetch st c :
  cache st !! cacheKey from to = Some c ->
  now - timestamp c < exchangeRateCache.duration ->
  fetchExchangeRate from to now fetch st =
  (Normal {| entry := c; fromCache := false |}, st).
Proof.
  intros Hc Hage. apply fetch_fresh. by apply still_valid_Some.
Qed.

Lemma fresh_entry_returned_witness :
  fetchExchangeRate "USD" "CNY" (1000 + 3599999) all_providers_down state_with_old_entry =
  (Normal {| entry := old_entry; fromCache := false |}, state_with_old_entry).
Proof.
  apply fresh_entry_returned_without_provider.
  - vm_compute. reflexivity.
  - vm_compute. reflexivity.
Defined.

(** C9. The comparison is strict: with an entry exactly one hour old the
    call does not return it as a hit but runs the provider loop, and the
    first thing it does is ask the first provider. *)
Theorem entry_aged_one_hour_is_stale from to now fetch st c :
  cache st !! cacheKey from to = Some c ->
  now - timestamp c = exchangeRateCache.duration ->
  still_valid now (cache st !! cacheKey from to) = None
  /\ fetchExchangeRate from to now fetch st =
     (let* returned := provider_loop EXCHANGE_RATE_APIS from to now fetch in
      match returned with
      | Some r => ret r
      | None => ret {| entry := c; fromCache := true |}
      end) st
  /\ exists evs,
       new_events st (fetchExchangeRate from to now fetch st).2 =
       Requested "exchangerate-api.com"
                 ("https://api.exchangerate-api.com/v4/latest/" +:+ from) :: evs.
Proof.
  intros Hc Hage.
  assert (still_valid now (cache st !! cacheKey from to) = None) as Hstale.
  { apply still_valid_None. intros c' Hc'. rewrite Hc in Hc'. injection Hc' as <-. lia. }
  split_and!; [done | |].
  - unfold fetchExchangeRate, fetchExchangeRate_on, bind, read_cache.
    by rewrite Hstale, Hc.
  - call_cases from to now fetch st.
    + congruence.
    + rewrite new_events_accepted.
      destruct before as [| b before']; injection Hsplit as <- _; cbn; eauto.
    + rewrite new_events_log. cbn. eauto.
Qed.

Lemma entry_aged_one_hour_is_stale_witness :
  exists evs,
    new_events state_with_old_entry
      (fetchExchangeRate "USD" "CNY" (1000 + 3600000) all_providers_down
                         state_with_old_entry).2 =
    Requested "exchangerate-api.com" "https://api.exchangerate-api.com/v4/latest/USD" :: evs.
Proof.
  apply (entry_aged_one_hour_is_stale "USD" "CNY" (1000 + 3600000) all_providers_down
           state_with_old_entry old_entry).
  - vm_compute. reflexivity.
  - vm_compute. reflexivity.
Defined.

(** ** When every provider fails *)

(** C4, as amended. A call that found no fresh entry and whose three
    requests have all settled without an acceptable rate returns the entry
    [c] that line 222 read when the call started, whatever its age, with
    [fromCache = true]: the entry read at the start, not what the cache
    holds when the loop ends, which another call may have replaced in
    between. It is the only way a stale rate is returned: a result that is
    flagged, or whose timestamp is an hour old or more, is the entry read
    at the start, an hour old or more, returned after the three providers'
    replies, none acceptable. While fewer replies than providers have come
    the call is suspended and returns nothing. *)
Theorem stale_entry_returned_is_the_one_read_at_start id from to now acts sv :
  calls_under id acts = false ->
  let sv' := run_schedule (Call id from to now :: acts) sv in
  let cached := cache (shared sv) !! cacheKey from to in
  let replies := replies_to id acts in
  (forall c,
     cached = Some c -> exchangeRateCache.duration <= now - timestamp c ->
     (length EXCHANGE_RATE_APIS <= length replies)%nat ->
     unacceptable (take (length EXCHANGE_RATE_APIS) replies) ->
     answered_since id sv sv' = [Normal {| entry := c; fromCache := true |}])
  /\ (forall r,
        Normal r ∈ answered_since id sv sv' ->
        fromCache r = true \/ exchangeRateCache.duration <= now - timestamp (entry r) ->
        fromCache r = true /\ cached = Some (entry r)
        /\ exchangeRateCache.duration <= now - timestamp (entry r)
        /\ (length EXCHANGE_RATE_APIS <= length replies)%nat
        /\ unacceptable (take (length EXCHANGE_RATE_APIS) replies))
  /\ (still_valid now cached = None ->
      (length replies < length EXCHANGE_RATE_APIS)%nat -> unacceptable replies ->
      answered_since id sv sv' = [] /\ exists s, waiting sv' !! id = Some s).
Proof.
  intros Hcalls. cbv zeta.
  destruct (call_ends id from to now acts sv Hcalls) as [Hans Hwait].
  cbv zeta in Hans, Hwait. rewrite Hans. clear Hans.
  unfold call_ends_with in *.
  set (cached := cache (shared sv) !! cacheKey from to) in *.
  set (replies := replies_to id acts) in *.
  split_and!.
  - intros c Hc Hage Hlen Hrej.
    assert (still_valid now cached = None) as ->.
    { apply still_valid_None. intros c' Hc'. rewrite Hc in Hc'. by injection Hc' as <-. }
    rewrite ends_with_exhausted by done. by rewrite Hc.
  - intros r Hin Hstale. apply elem_of_option_list in Hin.
    destruct (still_valid now cached) as [c |] eqn:Hvalid.
    { injection Hin as <-. cbn in *.
      apply still_valid_Some in Hvalid as [_ Hage]. destruct Hstale; [done | lia]. }
    assert (forall c, cached = Some c -> exchangeRateCache.duration <= now - timestamp c)
      as Hold by (by apply still_valid_None).
    destruct (ends_with_cases EXCHANGE_RATE_APIS now cached replies)
      as [(_ & _ & Hend)
         | [(Hlen & Hrej & Hend)
           | (before & a & after & rejected & rp & lt & x & _ & _ & _ & _ & _ & Hend)]];
      rewrite Hend in Hin.
    + done.
    + unfold fallback in Hin. destruct cached as [c |] eqn:Hc; [| done].
      injection Hin as <-. cbn. split_and!; try done. by apply Hold.
    + injection Hin as <-. cbn in *. unfold exchangeRateCache.duration in Hstale.
      destruct Hstale; [done | lia].
  - intros Hvalid Hlen Hrej. rewrite Hvalid in *.
    rewrite ends_with_waiting in * by done. done.
Qed.

Lemma stale_entry_returned_witness :
  answered_since 1 server_with_old_entry
    (run_schedule [Call 1 "USD" "CNY" 9000000; Reply 1 (Throw RequestError);
                   Reply 1 (Throw ParseFailed); Reply 1 (Normal VUndefined)]
                  server_with_old_entry) =
  [Normal {| entry := old_entry; fromCache := true |}].
Proof.
  destruct (stale_entry_returned_is_the_one_read_at_start 1 "USD" "CNY" 9000000
              [Reply 1 (Throw RequestError); Reply 1 (Throw ParseFailed);
               Reply 1 (Normal VUndefined)] server_with_old_entry)
    as (Hreturned & _ & _).
  - reflexivity.
  - apply (Hreturned old_entry).
    + reflexivity.
    + vm_compute. discriminate.
    + vm_compute. lia.
    + by repeat constructor.
Defined.

(** C4 as stated fails in two ways. The entry returned is not the one the
    cache holds when the providers are exhausted: the first call read
    [old_entry] at its start, the second call stored a newer entry while
    the first was waiting, and the first call, its three providers failing,
    returns [old_entry]. And a provider that never answers produces no
    acceptable rate either, yet with two providers failed and the third
    silent the call returns nothing, whatever the process does besides. *)
Lemma stale_entry_returned_after_newer_write :
  let sv := run_schedule newer_write_schedule server_with_old_entry in
  answered sv =
    [(2%nat, Normal {| entry := stored_entry api_1 9000001 seven_point_1999;
                       fromCache := false |});
     (1%nat, Normal {| entry := old_entry; fromCache := true |})]
  /\ cache (shared sv) !! "USD-CNY"%string =
     Some (stored_entry api_1 9000001 seven_point_1999)
  /\ (let pending := run_schedule third_provider_silent server_with_old_entry in
      answered pending = []
      /\ requested (events (shared pending)) = map name EXCHANGE_RATE_APIS
      /\ forall others,
           replies_to 1 others = [] -> calls_under 1 others = false ->
           answered_since 1 server_with_old_entry (run_schedule others pending) = []).
Proof.
  cbv zeta. split_and!; [by vm_compute | by vm_compute | reflexivity | reflexivity |].
  intros others Hreplies Hcalls.
  destruct (others_leave_waiting 1 others
              (run_schedule third_provider_silent server_with_old_entry) Hreplies Hcalls)
    as [_ Hans].
  rewrite (answered_since_trans 1 server_with_old_entry
             (run_schedule third_provider_silent server_with_old_entry));
    [by rewrite Hans | by exists [] | apply run_schedule_answered].
Qed.

(** C5, as amended. A call throws exactly when line 222 read no entry for
    the pair when the call started and the three requests have all
    settled without an acceptable rate; what it throws is the error of
    line 270 and nothing else. A call that has ended has returned a result
    or thrown that error, once. A call is left suspended, neither returning
    nor throwing, exactly when it found no fresh entry and fewer replies
    than providers have come, none of them acceptable. *)
Theorem hard_failure_iff_nothing_read_at_start id from to now acts sv :
  calls_under id acts = false ->
  let sv' := run_schedule (Call id from to now :: acts) sv in
  let cached := cache (shared sv) !! cacheKey from to in
  let replies := replies_to id acts in
  (Throw NoRateAvailable ∈ answered_since id sv sv' <->
   cached = None /\ (length EXCHANGE_RATE_APIS <= length replies)%nat
   /\ unacceptable (take (length EXCHANGE_RATE_APIS) replies))
  /\ (forall e, Throw e ∈ answered_since id sv sv' -> e = NoRateAvailable)
  /\ (waiting sv' !! id = None ->
      exists c, answered_since id sv sv' = [c]
                /\ (c = Throw NoRateAvailable \/ exists r, c = Normal r))
  /\ ((exists s, waiting sv' !! id = Some s) <->
      still_valid now cached = None
      /\ (length replies < length EXCHANGE_RATE_APIS)%nat /\ unacceptable replies)
  /\ ((exists s, waiting sv' !! id = Some s) -> answered_since id sv sv' = []).
Proof.
  intros Hcalls. cbv zeta.
  destruct (call_ends id from to now acts sv Hcalls) as [Hans Hwait].
  cbv zeta in Hans, Hwait. rewrite Hans. clear Hans.
  unfold call_ends_with in *.
  set (cached := cache (shared sv) !! cacheKey from to) in *.
  set (replies := replies_to id acts) in *.
  destruct (still_valid now cached) as [c |] eqn:Hvalid.
  { pose proof (proj1 (still_valid_Some _ _ _) Hvalid) as [Hc _]. split_and!.
    - rewrite elem_of_option_list. split; [done |]. intros (Hnone & _). congruence.
    - intros e. by rewrite elem_of_option_list.
    - intros _. eexists. split; [reflexivity | eauto].
    - split; [intros [s Hs]; congruence | by intros (? & _)].
    - intros [s Hs]. congruence. }
  destruct (ends_with_cases EXCHANGE_RATE_APIS now cached replies)
    as [(Hlen & Hrej & Hend)
       | [(Hlen & Hrej & Hend)
         | (before & a & after & rejected & rp & lt & x & Hsplit & Hreplies & Hl & Hrej
            & Hacc & Hend)]];
    rewrite Hend in *.
  - split_and!.
    + rewrite elem_of_option_list. split; [done | intros (_ & ? & _); lia].
    + intros e. by rewrite elem_of_option_list.
    + intros Hnone. destruct Hwait as [s Hs]. congruence.
    + split; [done | by intros _].
    + done.
  - split_and!.
    + rewrite elem_of_option_list. unfold fallback.
      destruct cached as [c |]; [split; [done | by intros (? & _)] | done].
    + intros e. rewrite elem_of_option_list. unfold fallback.
      destruct cached as [c |]; [done | by intros [= ->]].
    + intros _. eexists. split; [reflexivity |]. unfold fallback. destruct cached; eauto.
    + split; [intros [s Hs]; congruence | intros (_ & ? & _); lia].
    + intros [s Hs]. congruence.
  - split_and!.
    + rewrite elem_of_option_list. split; [done |]. intros (_ & _ & Hall).
      rewrite Hreplies in Hall. pose proof (unacceptable_prefix _ _ _ _ _ Hall Hacc) as Hle.
      rewrite Hsplit, length_app in Hle. cbn in Hle. lia.
    + intros e. by rewrite elem_of_option_list.
    + intros _. eexists. split; [reflexivity | eauto].
    + split; [intros [s Hs]; congruence |]. intros (_ & _ & Hall).
      rewrite Hreplies in Hall. unfold unacceptable in Hall.
      apply Forall_app in Hall as [_ Hall]. apply Forall_cons in Hall as [Hno _].
      cbn in Hno. congruence.
    + intros [s Hs]. congruence.
Qed.

Lemma hard_failure_at_start_witness :
  Throw NoRateAvailable ∈
    answered_since 1 idle_server
      (run_schedule [Call 1 "USD" "CNY" 1000; Reply 1 (Throw RequestError);
                     Reply 1 (Throw ParseFailed); Reply 1 (Normal VUndefined)]
                    idle_server).
Proof.
  destruct (hard_failure_iff_nothing_read_at_start 1 "USD" "CNY" 1000
              [Reply 1 (Throw RequestError); Reply 1 (Throw ParseFailed);
               Reply 1 (Normal VUndefined)] idle_server)
    as ([_ Hthrows] & _).
  - reflexivity.
  - apply Hthrows. split_and!.
    + reflexivity.
    + vm_compute. lia.
    + by repeat constructor.
Defined.

(** C5 as stated fails in two ways. A call can throw while the cache
    holds an entry for the pair: the first call read an empty cache, the
    second call stored its rate while the first was waiting, and the first
    call, its three providers failing, throws. And a call whose provider
    never answers neither returns a result nor throws. *)
Lemma call_throws_while_cache_holds_entry :
  let sv := run_schedule first_write_schedule idle_server in
  answered sv =
    [(2%nat, Normal {| entry := stored_entry api_1 2000 seven_point_2; fromCache := false |});
     (1%nat, Throw NoRateAvailable)]
  /\ cache (shared sv) !! "USD-CNY"%string = Some (stored_entry api_1 2000 seven_point_2)
  /\ (let pending := run_schedule [Call 1 "USD" "CNY" 1000] idle_server in
      answered pending = []
      /\ forall others,
           replies_to 1 others = [] -> calls_under 1 others = false ->
           answered_since 1 idle_server (run_schedule others pending) = []).
Proof.
  cbv zeta. split_and!; [by vm_compute | by vm_compute | reflexivity |].
  intros others Hreplies Hcalls.
  destruct (others_leave_waiting 1 others
              (run_schedule [Call 1 "USD" "CNY" 1000] idle_server) Hreplies Hcalls)
    as [_ Hans].
  rewrite (answered_since_trans 1 idle_server
             (run_schedule [Call 1 "USD" "CNY" 1000] idle_server));
    [by rewrite Hans | by exists [] | apply run_schedule_answered].
Qed.

(** ** What a call leaves in the cache *)

Lemma includes_supported code :
  code ∈ supportedCurrencies -> includes supportedCurrencies (QString code) = true.
Proof. intros H. cbn. by apply bool_decide_eq_true. Qed.

(** C7. The cache changes on the provider-success path only. On a fresh
    hit the state is untouched; a degraded result and a hard failure leave
    the cache as it was; the handler's identity path returns rate 1 from
    ["direct"] without touching the state; and whenever the cache after the
    call differs from the cache before, some provider's rate was accepted
    and the difference is that one entry. *)
Theorem cache_written_only_on_provider_success from to now fetch st :
  let run := fetchExchangeRate from to now fetch st in
  (forall c, still_valid now (cache st !! cacheKey from to) = Some c -> run.2 = st)
  /\ (forall r, run.1 = Normal r -> fromCache r = true -> cache run.2 = cache st)
  /\ (forall e, run.1 = Throw e -> cache run.2 = cache st)
  /\ (forall code,
        code ∈ supportedCurrencies ->
        exchange_rate_handler (Some (QString code)) (Some (QString code)) now fetch st =
        (Json200 {| base := code; target := code; data_rate := of_fraction false 1 1;
                    data_timestamp := now; data_source := "direct";
                    data_fromCache := false |}, st))
  /\ (cache run.2 <> cache st ->
      exists api r,
        api ∈ EXCHANGE_RATE_APIS /\
        accepted_rate (fetch (url api from to) to) = Some r /\
        run.1 = Normal {| entry := stored_entry api now r; fromCache := false |} /\
        cache run.2 = <[cacheKey from to := stored_entry api now r]> (cache st)).
Proof.
  intros run. subst run. split_and!.
  - intros c Hv. unfold fetchExchangeRate. by rewrite (fetch_fresh _ _ _ _ _ _ c Hv).
  - intros r0. call_cases from to now fetch st; try done.
    by intros [= <-] [=].
  - intros e. call_cases from to now fetch st; done.
  - intros code Hcode. unfold exchange_rate_handler. cbn [with_default].
    rewrite (includes_supported code Hcode). cbn [negb orb].
    by rewrite String.eqb_refl.
  - call_cases from to now fetch st; try done.
    intros _. exists api, r. split_and!; try done.
    rewrite Hsplit. apply elem_of_app. right. by left.
Qed.

Lemma cache_unchanged_witness :
  cache (fetchExchangeRate "USD" "CNY" 9000000 all_providers_down
                           state_with_old_entry).2 =
  cache state_with_old_entry.
Proof.
  destruct (cache_written_only_on_provider_success "USD" "CNY" 9000000
              all_providers_down state_with_old_entry) as (_ & Hdegraded & _).
  apply (Hdegraded {| entry := old_entry; fromCache := true |}).
  - vm_compute. reflexivity.
  - reflexivity.
Defined.

(** ** Defaults of the query *)

(** C10. An omitted [from] stands for ["USD"] and an omitted [to] for
    ["CNY"]; both are supported currencies, so a request without
    parameters is never answered 400: it resolves the pair USD-CNY. *)
Theorem omitted_parameters_default_to_USD_CNY now fetch st :
  (forall q_to, exchange_rate_handler None q_to now fetch st =
                exchange_rate_handler (Some (QString "USD")) q_to now fetch st)
  /\ (forall q_from, exchange_rate_handler q_from None now fetch st =
                     exchange_rate_handler q_from (Some (QString "CNY")) now fetch st)
  /\ "USD"%string ∈ supportedCurrencies
  /\ "CNY"%string ∈ supportedCurrencies
  /\ (exchange_rate_handler None None now fetch st).1 <> Json400
  /\ exchange_rate_handler None None now fetch st =
     match fetchExchangeRate "USD" "CNY" now fetch st with
     | (Normal result, st') =>
         (Json200 {| base := "USD"; target := "CNY"; data_rate := rate (entry result);
                     data_timestamp := timestamp (entry result);
                     data_source := source (entry result);
                     data_fromCache := fromCache result |}, st')
     | (Throw e, st') => (Json500 e, st')
     end.
Proof.
  assert ("USD"%string ∈ supportedCurrencies) as HU by (by left).
  assert ("CNY"%string ∈ supportedCurrencies) as HC by (right; by left).
  assert (exchange_rate_handler None None now fetch st =
     match fetchExchangeRate "USD" "CNY" now fetch st with
     | (Normal result, st') =>
         (Json200 {| base := "USD"; target := "CNY"; data_rate := rate (entry result);
                     data_timestamp := timestamp (entry result);
                     data_source := source (entry result);
                     data_fromCache := fromCache result |}, st')
     | (Throw e, st') => (Json500 e, st')
     end) as Heq.
  { unfold exchange_rate_handler. cbn [with_default].
    rewrite !includes_supported by done. reflexivity. }
  split_and!; try done.
  rewrite Heq. by destruct (fetchExchangeRate "USD" "CNY" now fetch st) as [[r | e] st'].
Qed.

(** ** Rounding *)

(** C6. The rate [R] of the first acceptable provider is stored in the
    cache and returned as [parseFloat(R.toFixed(4))], and that Number is
    [R] rounded to four decimal places: it is the Number written
    [n / 10^4], for [n] the integer nearest to [R * 10^4] (the upper one
    from a half). *)
Theorem accepted_rate_rounded_to_4_places before api after from to now fetch st R :
  let run := fetchExchangeRate from to now fetch st in
  EXCHANGE_RATE_APIS = before ++ api :: after ->
  still_valid now (cache st !! cacheKey from to) = None ->
  all_rejected from to fetch before ->
  fetch (url api from to) to = Normal (VNumber R) ->
  valid R = true ->
  lessThan pos_zero R = true ->
  exists stored,
    rounded_to_4_places R stored
    /\ stored = parseFloat (toFixed4 R)
    /\ run.1 = Normal {| entry := stored_entry api now stored; fromCache := false |}
    /\ cache run.2 !! cacheKey from to = Some (stored_entry api now stored).
Proof.
  intros run Hsplit Hstale Hrej Hreply Hvalid Hpos. subst run.
  exists (parseFloat (toFixed4 R)). split; [by apply toFixed4_rounds |]. split; [done |].
  unfold fetchExchangeRate.
  rewrite Hsplit, (fetch_accepted _ _ _ _ _ _ _ _ (parseFloat (toFixed4 R))); try done.
  - cbn [fst snd]. split; [done |]. rewrite accepted_state_log. cbn [cache].
    apply lookup_insert_eq.
  - apply accepted_rate_Some. eauto.
Qed.

Lemma accepted_rate_rounded_witness :
  exists stored,
    rounded_to_4_places seven_point_23456789 stored
    /\ stored = parseFloat (toFixed4 seven_point_23456789)
    /\ (fetchExchangeRate "USD" "CNY" 1000
          (fun _ _ => Normal (VNumber seven_point_23456789)) empty_state).1 =
       Normal {| entry := stored_entry api_1 1000 stored; fromCache := false |}
    /\ cache (fetchExchangeRate "USD" "CNY" 1000
                (fun _ _ => Normal (VNumber seven_point_23456789)) empty_state).2
       !! cacheKey "USD" "CNY" = Some (stored_entry api_1 1000 stored).
Proof.
  apply (accepted_rate_rounded_to_4_places [] api_1 [api_2; api_3] "USD" "CNY" 1000
           (fun _ _ => Normal (VNumber seven_point_23456789)) empty_state
           seven_point_23456789).
  - reflexivity.
  - reflexivity.
  - intros a Ha. inversion Ha.
  - reflexivity.
  - vm_compute. reflexivity.
  - vm_compute. reflexivity.
Defined.

(** The example of the specification: a provider returning [7.23456789]
    has [toFixed] print ["7.2346"], and the Number [7.2346] is stored and
    returned. *)
Example rounding_example :
  let fetch : transport := fun _ _ => Normal (VNumber seven_point_23456789) in
  let run := fetchExchangeRate "USD" "CNY" 1000 fetch empty_state in
  render (toFixed4 seven_point_23456789) = Some "7.2346"%string
  /\ run.1 = Normal {| entry := {| rate := of_fraction false 72346 (10 ^ 4);
                                   timestamp := 1000;
                                   source := "exchangerate-api.com" |};
                       fromCache := false |}
  /\ (rate <$> cache run.2 !! "USD-CNY"%string) = Some (of_fraction false 72346 (10 ^ 4)).
Proof. vm_compute. done. Qed.

(** ** Successive writes *)

Lemma follows_refl st : follows st st.
Proof. exists []. by rewrite app_nil_r. Qed.

Lemma follows_trans st1 st2 st3 : follows st1 st2 -> follows st2 st3 -> follows st1 st3.
Proof.
  intros (evs & He & Hc) (evs' & He' & Hc'). exists (evs ++ evs'). split.
  - by rewrite He', He, app_assoc.
  - intros key. by rewrite Hc', Hc, writes_for_app, latest_app.
Qed.

Lemma follows_new_events st st' key :
  follows st st' ->
  cache st' !! key = latest (writes_for key (new_events st st')) (cache st !! key).
Proof.
  intros (evs & He & Hc). unfold new_events. by rewrite He, drop_app_length.
Qed.

Lemma follows_requests from to apis st :
  follows st (log st (map (request_of from to) apis)).
Proof.
  eexists. split; [reflexivity |]. intros key. by rewrite writes_for_requests.
Qed.

Lemma follows_written api from to now r st :
  follows st (written_state api from to now r st).
Proof.
  eexists. split; [reflexivity |]. intros key. cbn.
  destruct (String.eqb_spec (cacheKey from to) key) as [<- | Hne]; cbn.
  - by rewrite lookup_insert_eq.
  - by rewrite lookup_insert_ne.
Qed.

(** One call, run at once. *)
Lemma follows_call from to now fetch st :
  follows st (fetchExchangeRate from to now fetch st).2.
Proof.
  call_cases from to now fetch st.
  - apply follows_refl.
  - eapply follows_trans; [apply (follows_requests from to before) |].
    eapply follows_trans; [apply (follows_requests from to [api]) |].
    rewrite log_log.
    replace (accepted_state api from to now r (log st (map (request_of from to) before)))
      with (written_state api from to now r
              (log st (map (request_of from to) before ++ map (request_of from to) [api]))).
    + apply follows_written.
    + unfold written_state, accepted_state, log; cbn. by rewrite <- !app_assoc.
  - apply follows_requests.
Qed.

Lemma follows_serve calls st : follows st (serve calls st).
Proof.
  revert st. induction calls as [| c calls IH]; intros st.
  - apply follows_refl.
  - eapply follows_trans; [apply follows_call | apply IH].
Qed.

(** Calls that overlap: the steps of the coroutine. *)
Lemma follows_next_request apis from to now cached st :
  follows st (next_request apis from to now cached st).2.
Proof.
  destruct apis as [| api rest]; cbn.
  - unfold after_loop. destruct cached; apply follows_refl.
  - apply (follows_requests from to [api]).
Qed.

Lemma follows_start from to now st : follows st (start from to now st).2.
Proof.
  unfold start. destruct (still_valid now (cache st !! cacheKey from to)).
  - apply follows_refl.
  - apply follows_next_request.
Qed.

Lemma follows_resume s reply st : follows st (resume s reply st).2.
Proof.
  unfold resume. rewrite on_reply_spec.
  destruct (accepted_rate reply) as [r |].
  - apply follows_written.
  - apply follows_next_request.
Qed.

Lemma follows_perform sv a : follows (shared sv) (shared (perform sv a)).
Proof.
  destruct a as [id from to now | id reply]; cbn.
  - pose proof (follows_start from to now (shared sv)) as H.
    unfold settle. by destruct (start from to now (shared sv)) as [[c | s] st'].
  - destruct (waiting sv !! id) as [s |]; [| apply follows_refl].
    pose proof (follows_resume s reply (shared sv)) as H.
    unfold settle. by destruct (resume s reply (shared sv)) as [[c | s'] st'].
Qed.

Lemma follows_run_schedule acts sv : follows (shared sv) (shared (run_schedule acts sv)).
Proof.
  revert sv. induction acts as [| a acts IH]; intros sv; cbn.
  - apply follows_refl.
  - eapply follows_trans; [apply follows_perform | apply IH].
Qed.

(** The timestamp a call writes is its own clock reading. *)
Lemma call_writes from to now fetch st key :
  exists evs,
    events (fetchExchangeRate from to now fetch st).2 = events st ++ evs
    /\ (write_times key evs = [] \/ write_times key evs = [now]).
Proof.
  call_cases from to now fetch st.
  - exists []. by rewrite app_nil_r; auto.
  - rewrite accepted_state_log. cbn [events]. eexists. split; [done |].
    unfold write_times. rewrite writes_for_app, writes_for_requests. cbn.
    destruct (String.eqb (cacheKey from to) key); cbn; auto.
  - eexists. split; [done |]. unfold write_times. rewrite writes_for_requests. by left.
Qed.

Lemma serve_cons c calls st :
  serve (c :: calls) st =
  serve calls (fetchExchangeRate (call_from c) (call_to c) (call_now c) (call_fetch c) st).2.
Proof. reflexivity. Qed.

(** What one call writes under a key, and what the key holds afterwards: a
    call writes only over an entry that is an hour old or more. *)
Lemma call_writes_later from to now fetch st key :
  exists evs,
    events (fetchExchangeRate from to now fetch st).2 = events st ++ evs
    /\ ((write_times key evs = []
         /\ cache (fetchExchangeRate from to now fetch st).2 !! key = cache st !! key)
        \/ (write_times key evs = [now]
            /\ (timestamp <$> cache (fetchExchangeRate from to now fetch st).2 !! key)
               = Some now
            /\ forall c, cache st !! key = Some c ->
                         timestamp c + exchangeRateCache.duration <= now)).
Proof.
  call_cases from to now fetch st.
  - exists []. rewrite app_nil_r. split; [done |]. by left.
  - rewrite accepted_state_log. cbn [events cache]. eexists. split; [done |].
    unfold write_times. rewrite writes_for_app, writes_for_requests. cbn.
    destruct (String.eqb_spec (cacheKey from to) key) as [<- | Hne]; cbn.
    + right. rewrite lookup_insert_eq. split_and!; [done | done |].
      intros c Hc. pose proof (proj1 (still_valid_None _ _) Hfresh c Hc). lia.
    + left. by rewrite lookup_insert_ne.
  - eexists. split; [done |]. left. unfold write_times.
    by rewrite writes_for_requests.
Qed.

Lemma serve_writes_increase calls : forall st key,
  exists evs,
    events (serve calls st) = events st ++ evs
    /\ nondecreasing (write_times key evs) = true
    /\ (forall c t, cache st !! key = Some c -> t ∈ write_times key evs ->
                    timestamp c + exchangeRateCache.duration <= t).
Proof.
  induction calls as [| c calls IH]; intros st key.
  - exists []. cbn. rewrite app_nil_r. split_and!; try done. intros c t _ Ht. inversion Ht.
  - rewrite serve_cons.
    destruct (call_writes_later (call_from c) (call_to c) (call_now c) (call_fetch c) st key)
      as (evs1 & Hev1 & Hw1).
    destruct (IH (fetchExchangeRate (call_from c) (call_to c) (call_now c)
                                    (call_fetch c) st).2 key)
      as (evs2 & Hev2 & Hs2 & Hlo2).
    exists (evs1 ++ evs2). split; [by rewrite Hev2, Hev1, app_assoc |].
    rewrite write_times_app.
    destruct Hw1 as [[-> Hsame] | (-> & Hnew & Hold)]; cbn [app].
    + split; [done |]. intros c0 t Hc0. apply Hlo2. by rewrite Hsame.
    + destruct (cache _ !! key) as [c1 |] eqn:Hc1; [| done].
      injection Hnew as Hnew.
      assert (forall t, t ∈ write_times key evs2 -> call_now c <= t) as Hlater.
      { intros t Ht. specialize (Hlo2 c1 t eq_refl Ht).
        unfold exchangeRateCache.duration in Hlo2. lia. }
      split; [by apply nondecreasing_cons |].
      intros c0 t Hc0 [-> | Ht]%elem_of_cons; [by apply Hold |].
      specialize (Hold c0 Hc0). specialize (Hlater t Ht).
      unfold exchangeRateCache.duration in *. lia.
Qed.

(** C8, as amended. When the calls do not overlap (each one finishes before
    the next starts) the timestamps written under a key are
    non-decreasing, whatever the clock reads: a call writes only over an
    entry at least an hour older than its own clock reading. And,
    overlapping or not, a key holds one entry, the last one written under
    it (or what it held before, when nothing was written): a write replaces
    the entry whole. *)
Theorem sequential_writes_are_ordered_and_replace calls st key :
  nondecreasing (write_times key (new_events st (serve calls st))) = true
  /\ cache (serve calls st) !! key =
     latest (writes_for key (new_events st (serve calls st))) (cache st !! key)
  /\ (forall acts sv,
        cache (shared (run_schedule acts sv)) !! key =
        latest (writes_for key (new_events (shared sv) (shared (run_schedule acts sv))))
               (cache (shared sv) !! key)).
Proof.
  split_and!.
  - destruct (serve_writes_increase calls st key) as (evs & Hev & Hs & _).
    unfold new_events. by rewrite Hev, drop_app_length.
  - apply follows_new_events, follows_serve.
  - intros acts sv. apply follows_new_events, follows_run_schedule.
Qed.

Lemma sequential_writes_witness :
  nondecreasing (write_times "USD-CNY"
                   (new_events empty_state (serve three_calls empty_state))) = true
  /\ cache (serve three_calls empty_state) !! "USD-CNY"%string =
     latest (writes_for "USD-CNY" (new_events empty_state (serve three_calls empty_state)))
            (cache empty_state !! "USD-CNY"%string).
Proof.
  destruct (sequential_writes_are_ordered_and_replace three_calls empty_state "USD-CNY")
    as (Hordered & Hlast & _).
  split; [exact Hordered | exact Hlast].
Defined.

Example three_calls_log :
  write_times "USD-CNY" (events (serve three_calls empty_state)) = [1000; 4000000].
Proof. vm_compute. reflexivity. Qed.

(** With the clock set back between two calls the second call finds the
    entry fresh and writes nothing. *)
Example clock_set_back_log :
  nondecreasing (map call_now calls_with_clock_set_back) = false
  /\ write_times "USD-CNY" (events (serve calls_with_clock_set_back empty_state)) =
     [5000; 3605000].
Proof. vm_compute. done. Qed.

(** The suspended form of a call agrees with [fetchExchangeRate]: a call
    whose replies arrive with nothing in between is the call run at once. *)
Lemma drive_settled fuel fetch c st : drive fuel fetch (Settled c, st) = Some (c, st).
Proof. by destruct fuel. Qed.

Lemma drive_next apis from to now cached fetch st :
  drive (length apis) fetch (next_request apis from to now cached st) =
  Some ((let* returned := provider_loop apis from to now fetch in
         match returned with
         | Some r => ret r
         | None => after_loop cached
         end) st).
Proof.
  revert st. induction apis as [| api rest IH]; intros st.
  - cbn. unfold bind, ret. cbn. by destruct (after_loop cached st).
  - cbn [length next_request drive provider_loop]. unfold resume, bind.
    cbn [s_api s_from s_to s_now s_rest s_cached].
    rewrite iteration_on_reply.
    change (snd (emit ?ev st)) with (log st [request_of from to api]).
    rewrite on_reply_spec.
    destruct (accepted_rate (fetch (url api from to) to)) as [r |].
    + by rewrite drive_settled.
    + by rewrite IH.
Qed.

Lemma run_alone from to now fetch st :
  drive (length EXCHANGE_RATE_APIS) fetch (start from to now st) =
  Some (fetchExchangeRate from to now fetch st).
Proof.
  unfold start, fetchExchangeRate, fetchExchangeRate_on.
  unfold bind at 1, read_cache.
  destruct (still_valid now (cache st !! cacheKey from to)) as [c |].
  - apply drive_settled.
  - apply drive_next.
Qed.

(** C8 as stated fails when calls overlap. Two requests for USD-CNY reach
    an empty cache: the first reads the clock at 1000 and waits for its
    provider, the second reads it at 2000 and waits too; the second call's
    answer arrives first and is stored with timestamp 2000, then the first
    call's answer arrives and is stored with timestamp 1000. The clock never
    went back, yet the successive timestamps written under the key
    decrease, and the entry left in the cache is the older one. *)
Lemma overlapping_calls_store_older_timestamp_later :
  let sv := run_schedule overlapping_schedule idle_server in
  nondecreasing (call_times overlapping_schedule) = true
  /\ write_times "USD-CNY" (events (shared sv)) = [2000; 1000]
  /\ nondecreasing (write_times "USD-CNY" (events (shared sv))) = false
  /\ (timestamp <$> cache (shared sv) !! "USD-CNY"%string) = Some 1000.
Proof. vm_compute. done. Qed.

(** * The rest of the server and the calculator: properties *)

(** ** [escapeXml] *)

Lemma replace_all_flat_map c r (f : N -> Text.jsstring) (s : Text.jsstring) :
  Text.replace_all c r (flat_map f s) = flat_map (fun u => Text.replace_all c r (f u)) s.
Proof.
  unfold Text.replace_all. induction s as [| u s IH]; [done |].
  cbn [flat_map]. rewrite flat_map_app. by rewrite IH.
Qed.

(** The five passes on a single character. *)
Lemma escape_unit_passes (u : N) :
  Text.replace_all Text.c_apos (Text.text "&apos;")
    (Text.replace_all Text.c_quot (Text.text "&quot;")
       (Text.replace_all Text.c_gt (Text.text "&gt;")
          (Text.replace_all Text.c_lt (Text.text "&lt;")
             (Text.replace_all Text.c_amp (Text.text "&amp;") [u])))) =
  Text.escape_unit u.
Proof.
  unfold Text.escape_unit.
  destruct (N.eqb_spec u Text.c_amp) as [-> | Hamp]; [reflexivity |].
  destruct (N.eqb_spec u Text.c_lt) as [-> | Hlt]; [reflexivity |].
  destruct (N.eqb_spec u Text.c_gt) as [-> | Hgt]; [reflexivity |].
  destruct (N.eqb_spec u Text.c_quot) as [-> | Hquot]; [reflexivity |].
  destruct (N.eqb_spec u Text.c_apos) as [-> | Hapos]; [reflexivity |].
  unfold Text.replace_all. cbn [flat_map app].
  apply N.eqb_neq in Hamp, Hlt, Hgt, Hquot, Hapos.
  rewrite Hamp. cbn [flat_map app]. rewrite Hlt. cbn [flat_map app].
  rewrite Hgt. cbn [flat_map app]. rewrite Hquot. cbn [flat_map app].
  by rewrite Hapos.
Qed.

Lemma escapeXml_flat_map (s : Text.jsstring) :
  Text.escapeXml s = flat_map Text.escape_unit s.
Proof.
  unfold Text.escapeXml.
  replace s with (flat_map (fun u => [u]) s) at 1
    by (induction s as [| u s IH]; [done | cbn; by rewrite IH]).
  rewrite !replace_all_flat_map.
  induction s as [| u s IH]; [done |].
  cbn [flat_map]. rewrite IH. f_equal. apply escape_unit_passes.
Qed.

Lemma escape_unit_cases (u : N) :
  (Text.xml_special u = true /\
   Text.escape_unit u ∈ [Text.text "&amp;"; Text.text "&lt;"; Text.text "&gt;";
                          Text.text "&quot;"; Text.text "&apos;"])
  \/ (Text.xml_special u = false /\ Text.escape_unit u = [u]).
Proof.
  unfold Text.escape_unit, Text.xml_special.
  destruct (N.eqb_spec u Text.c_amp) as [-> | Hamp].
  { left. split; [reflexivity | by left]. }
  destruct (N.eqb_spec u Text.c_lt) as [-> | Hlt].
  { left. split; [reflexivity | right; by left]. }
  destruct (N.eqb_spec u Text.c_gt) as [-> | Hgt].
  { left. split; [reflexivity | do 2 right; by left]. }
  destruct (N.eqb_spec u Text.c_quot) as [-> | Hquot].
  { left. split; [reflexivity | do 3 right; by left]. }
  destruct (N.eqb_spec u Text.c_apos) as [-> | Hapos].
  { left. split; [reflexivity | do 4 right; by left]. }
  right. done.
Qed.

Lemma unescape_entity (u : N) (rest : Text.jsstring) :
  Text.unescapeXml (Text.escape_unit u ++ rest) = u :: Text.unescapeXml rest.
Proof.
  unfold Text.escape_unit.
  destruct (N.eqb_spec u Text.c_amp) as [-> | Hamp]; [reflexivity |].
  destruct (N.eqb_spec u Text.c_lt) as [-> | Hlt]; [reflexivity |].
  destruct (N.eqb_spec u Text.c_gt) as [-> | Hgt]; [reflexivity |].
  destruct (N.eqb_spec u Text.c_quot) as [-> | Hquot]; [reflexivity |].
  destruct (N.eqb_spec u Text.c_apos) as [-> | Hapos]; [reflexivity |].
  cbn [app Text.unescapeXml]. apply N.eqb_neq in Hamp. by rewrite Hamp.
Qed.

Lemma escape_unit_length (u : N) :
  (1 <= length (Text.escape_unit u))%nat
  /\ (length (Text.escape_unit u) = 1%nat -> Text.xml_special u = false).
Proof.
  destruct (escape_unit_cases u) as [[_ Hent] | [Hplain ->]]; [| done].
  repeat (apply elem_of_cons in Hent as [-> | Hent];
          [split; [vm_compute; lia | vm_compute; discriminate] |]).
  inversion Hent.
Qed.

Lemma escapeXml_length (s : Text.jsstring) :
  (length s <= length (Text.escapeXml s))%nat
  /\ (length (Text.escapeXml s) = length s -> existsb Text.xml_special s = false).
Proof.
  rewrite escapeXml_flat_map. induction s as [| u s [IHle IHeq]]; [done |].
  cbn [flat_map existsb]. rewrite length_app. cbn [length].
  destruct (escape_unit_length u) as [Hle Heq].
  split; [lia |]. intros Hlen.
  rewrite Heq by lia. rewrite IHeq by lia. done.
Qed.

Lemma escapeXml_plain (s : Text.jsstring) :
  existsb Text.xml_special s = false -> Text.escapeXml s = s.
Proof.
  rewrite escapeXml_flat_map. induction s as [| u s IH]; [done |].
  cbn [existsb flat_map]. intros [Hu Hs]%orb_false_elim.
  destruct (escape_unit_cases u) as [[Hspecial _] | [_ ->]]; [congruence |].
  cbn [app]. by rewrite IH.
Qed.

(** X1. The five replacements of [escapeXml], run one after the other over
    the whole string, amount to a single pass that replaces each character
    on its own: the ampersands of the entities written by the first pass
    are not escaped again by the later ones, and the ampersand pass, being
    first, does not touch the entities of the later passes. So escaping
    distributes over concatenation. *)
Theorem escapeXml_is_one_substitution (s t : Text.jsstring) :
  Text.escapeXml s = flat_map Text.escape_unit s
  /\ Text.escapeXml (s ++ t) = Text.escapeXml s ++ Text.escapeXml t.
Proof.
  split; [apply escapeXml_flat_map |].
  rewrite !escapeXml_flat_map. apply flat_map_app.
Qed.

(** X2. The result of [escapeXml] holds no less-than sign, greater-than
    sign, double quote or apostrophe, whatever the input: it cannot close
    an attribute value or open a tag of the SVG it is put into. *)
Theorem escapeXml_output_has_no_markup (s : Text.jsstring) :
  Forall (fun u => u <> Text.c_lt /\ u <> Text.c_gt /\ u <> Text.c_quot
                   /\ u <> Text.c_apos) (Text.escapeXml s).
Proof.
  rewrite escapeXml_flat_map. induction s as [| v s IH]; [by constructor |].
  cbn [flat_map]. apply Forall_app. split; [| done].
  destruct (escape_unit_cases v) as [[_ Hent] | [Hplain ->]].
  - repeat (apply elem_of_cons in Hent as [-> | Hent];
            [vm_compute; repeat constructor; discriminate |]).
    inversion Hent.
  - apply Forall_singleton.
    unfold Text.xml_special in Hplain.
    repeat (apply orb_false_elim in Hplain as [Hplain ?]).
    repeat match goal with H : N.eqb _ _ = false |- _ => apply N.eqb_neq in H end.
    done.
Qed.

(** X3. [escapeXml] loses nothing: reading the five entities back gives
    the original string, so two different strings are never escaped to the
    same text. *)
Theorem escapeXml_can_be_undone (s s' : Text.jsstring) :
  Text.unescapeXml (Text.escapeXml s) = s
  /\ (Text.escapeXml s = Text.escapeXml s' -> s = s').
Proof.
  assert (forall t, Text.unescapeXml (Text.escapeXml t) = t) as Hround.
  { intros t. rewrite escapeXml_flat_map. induction t as [| u t IH]; [done |].
    cbn [flat_map]. by rewrite unescape_entity, IH. }
  split; [apply Hround |].
  intros Heq. by rewrite <- (Hround s), <- (Hround s'), Heq.
Qed.

(** X4. [escapeXml] returns its argument unchanged exactly when the
    argument holds none of the five characters; otherwise the result is
    longer. *)
Theorem escapeXml_fixes_exactly_plain_text (s : Text.jsstring) :
  (Text.escapeXml s = s <-> existsb Text.xml_special s = false)
  /\ (length s <= length (Text.escapeXml s))%nat.
Proof.
  split; [| apply escapeXml_length]. split.
  - intros Heq. apply escapeXml_length. by rewrite Heq.
  - apply escapeXml_plain.
Qed.

(** ** [sanitizeColor] *)

Lemma drop_spaces_splits (s : Text.jsstring) :
  exists spaces, s = spaces ++ Text.drop_spaces s
                 /\ forallb Text.is_space spaces = true
                 /\ no_leading_space (Text.drop_spaces s).
Proof.
  induction s as [| u s (spaces & Heq & Hspaces & Hlead)].
  - by exists [].
  - cbn [Text.drop_spaces]. destruct (Text.is_space u) eqn:Hu.
    + exists (u :: spaces). cbn [app forallb]. rewrite Hu, Hspaces.
      split_and!; [by f_equal | done | done].
    + exists []. by cbn.
Qed.

Lemma drop_spaces_fixed (s : Text.jsstring) :
  no_leading_space s -> Text.drop_spaces s = s.
Proof. destruct s as [| u s]; [done |]. cbn. by intros ->. Qed.

Lemma trim_fixed (s : Text.jsstring) :
  no_leading_space s -> no_leading_space (rev s) -> Text.trim s = s.
Proof.
  intros Hfront Hback. unfold Text.trim.
  rewrite (drop_spaces_fixed s Hfront), (drop_spaces_fixed _ Hback).
  apply rev_involutive.
Qed.

Lemma trim_has_no_outer_space (s : Text.jsstring) :
  no_leading_space (Text.trim s) /\ no_leading_space (rev (Text.trim s)).
Proof.
  unfold Text.trim.
  destruct (drop_spaces_splits s) as (front & Hs & _ & Hfront).
  destruct (drop_spaces_splits (rev (Text.drop_spaces s))) as (back & Hrev & _ & Hback).
  rewrite rev_involutive. split; [| done].
  remember (Text.drop_spaces (rev (Text.drop_spaces s))) as inner eqn:Hinner.
  apply (f_equal (@rev N)) in Hrev. rewrite rev_involutive, rev_app_distr in Hrev.
  destruct (rev inner) as [| u rest] eqn:Hr; [done |].
  rewrite Hrev in Hfront. exact Hfront.
Qed.

Lemma trim_idempotent (s : Text.jsstring) : Text.trim (Text.trim s) = Text.trim s.
Proof. apply trim_fixed; apply trim_has_no_outer_space. Qed.

Lemma color_char_not_special (u : N) :
  Text.color_char u = true -> Text.xml_special u = false.
Proof.
  unfold Text.xml_special. intros Hcolor.
  destruct (N.eqb_spec u Text.c_lt) as [-> | _]; [by vm_compute in Hcolor |].
  destruct (N.eqb_spec u Text.c_gt) as [-> | _]; [by vm_compute in Hcolor |].
  destruct (N.eqb_spec u Text.c_quot) as [-> | _]; [by vm_compute in Hcolor |].
  destruct (N.eqb_spec u Text.c_apos) as [-> | _]; [by vm_compute in Hcolor |].
  destruct (N.eqb_spec u Text.c_amp) as [-> | _]; [by vm_compute in Hcolor |].
  done.
Qed.

Lemma color_text_not_special (s : Text.jsstring) :
  forallb Text.color_char s = true -> existsb Text.xml_special s = false.
Proof.
  induction s as [| u s IH]; [done |].
  cbn [forallb existsb]. intros [Hu Hs]%andb_prop.
  by rewrite (color_char_not_special u Hu), IH.
Qed.

Lemma sanitizeColor_Some (value : option Text.jsstring)
    (color : Text.jsstring) :
  Text.sanitizeColor value = Some color <->
  color = Text.trim (default [] value) /\ color <> []
  /\ forallb Text.color_char color = true.
Proof.
  unfold Text.sanitizeColor.
  destruct (Text.trim (default [] value)) as [| u rest] eqn:Htrim.
  - split; [done | by intros (-> & ? & _)].
  - destruct (existsb Text.xml_special (u :: rest)) eqn:Hspecial.
    + split; [done |]. intros (-> & _ & Hcolor).
      apply color_text_not_special in Hcolor. congruence.
    + destruct (forallb Text.color_char (u :: rest)) eqn:Hcolor; cbn [negb].
      * split; [by intros [= <-] | by intros (-> & _ & _)].
      * split; [done |]. intros (-> & _ & ?). congruence.
Qed.

(** X5. [sanitizeColor] returns a colour exactly when the trimmed text is
    not empty and is made of the characters of the class of line 41 only;
    the colour returned is the trimmed text. The test of line 40 refuses
    nothing that line 41 would let through. *)
Theorem sanitizeColor_accepts_exactly_color_text (value : option Text.jsstring)
    (color : Text.jsstring) :
  Text.sanitizeColor value = Some color <->
  color = Text.trim (default [] value) /\ color <> []
  /\ forallb Text.color_char color = true.
Proof. apply sanitizeColor_Some. Qed.

(** X6. A colour [sanitizeColor] has let through is left as it is by
    [escapeXml], and by [sanitizeColor] run on it again. *)
Theorem sanitizeColor_output_is_stable (value : option Text.jsstring)
    (color : Text.jsstring) :
  Text.sanitizeColor value = Some color ->
  Text.escapeXml color = color /\ Text.sanitizeColor (Some color) = Some color.
Proof.
  intros (Heq & Hne & Hcolor)%sanitizeColor_Some.
  split.
  - by apply escapeXml_plain, color_text_not_special.
  - apply sanitizeColor_Some. split_and!; [| done | done].
    cbn [default]. rewrite Heq. symmetry. apply trim_idempotent.
Qed.

Lemma sanitizeColor_output_is_stable_witness :
  Text.escapeXml (Text.text "#fff") = Text.text "#fff"
  /\ Text.sanitizeColor (Some (Text.text "#fff")) = Some (Text.text "#fff").
Proof.
  apply (sanitizeColor_output_is_stable (Some (Text.text "  #fff  "))).
  vm_compute. reflexivity.
Defined.

(** ** The order of Numbers *)

Lemma SFcompare_antisym (x y : float) :
  SFcompare y x = option_map CompOpp (SFcompare x y).
Proof.
  destruct x as [sx | sx | | sx mx ex], y as [sy | sy | | sy my ey];
    try destruct sx; try destruct sy; try reflexivity.
  - cbn. rewrite (Z.compare_antisym ex ey).
    destruct (ex ?= ey); cbn; try reflexivity.
    f_equal. change (Pos.compare_cont Eq my mx) with (Pos.compare_cont (CompOpp Eq) my mx).
    rewrite <- Pos.compare_cont_antisym. by rewrite ?CompOpp_involutive.
  - cbn. rewrite (Z.compare_antisym ex ey).
    destruct (ex ?= ey); cbn; try reflexivity.
    f_equal. change (Pos.compare_cont Eq my mx) with (Pos.compare_cont (CompOpp Eq) my mx).
    rewrite <- Pos.compare_cont_antisym. by rewrite ?CompOpp_involutive.
Qed.

Lemma SFcompare_defined (x y : float) :
  Coerce.isNaN x = false -> Coerce.isNaN y = false ->
  exists c, SFcompare x y = Some c.
Proof.
  destruct x as [sx | sx | | sx mx ex], y as [sy | sy | | sy my ey];
    try discriminate; intros _ _; cbn; eauto.
Qed.

Lemma lessEqual_refl (x : float) :
  Coerce.isNaN x = false -> Coerce.lessEqual x x = true.
Proof.
  unfold Coerce.lessEqual, SFleb.
  destruct x as [sx | sx | | sx mx ex]; try discriminate; intros _; cbn.
  - done.
  - by destruct sx.
  - destruct sx; rewrite Z.compare_refl, Pos.compare_refl; done.
Qed.

Lemma not_lessThan_lessEqual (x y : float) :
  Coerce.isNaN x = false -> Coerce.isNaN y = false ->
  lessThan x y = false -> Coerce.lessEqual y x = true.
Proof.
  intros Hx Hy. unfold lessThan, Coerce.lessEqual, SFltb, SFleb.
  rewrite (SFcompare_antisym x y).
  destruct (SFcompare_defined x y Hx Hy) as [c ->]. by destruct c.
Qed.

Lemma not_lessEqual_lessThan (x y : float) :
  Coerce.isNaN x = false -> Coerce.isNaN y = false ->
  Coerce.lessEqual x y = false <-> lessThan y x = true.
Proof.
  intros Hx Hy. unfold lessThan, Coerce.lessEqual, SFltb, SFleb.
  rewrite (SFcompare_antisym x y).
  destruct (SFcompare_defined x y Hx Hy) as [c ->]. by destruct c.
Qed.

Lemma not_lessThan_iff (x y : float) :
  Coerce.isNaN x = false -> Coerce.isNaN y = false ->
  lessThan x y = false <-> Coerce.lessEqual y x = true.
Proof.
  intros Hx Hy. unfold lessThan, Coerce.lessEqual, SFltb, SFleb.
  rewrite (SFcompare_antisym x y).
  destruct (SFcompare_defined x y Hx Hy) as [c ->]. by destruct c.
Qed.

Lemma lessEqual_not_NaN (x y : float) :
  Coerce.lessEqual x y = true -> Coerce.isNaN x = false /\ Coerce.isNaN y = false.
Proof.
  unfold Coerce.lessEqual, SFleb.
  destruct x as [sx | sx | | sx mx ex], y as [sy | sy | | sy my ey]; done.
Qed.

Lemma isFinite_not_NaN (x : float) : isFinite x = true -> Coerce.isNaN x = false.
Proof. by destruct x. Qed.

(** ** [clampInt], [clampFloat] and [resolveGradientAngle] *)

Lemma clamp_within (x min max : float) :
  Coerce.lessEqual min max = true -> Coerce.isNaN x = false ->
  let r := if lessThan x min then min else if lessThan max x then max else x in
  Coerce.lessEqual min r = true /\ Coerce.lessEqual r max = true.
Proof.
  intros Hmm Hx. destruct (lessEqual_not_NaN _ _ Hmm) as [Hmin Hmax]. cbn zeta.
  destruct (lessThan x min) eqn:Hlow.
  { split; [by apply lessEqual_refl | done]. }
  destruct (lessThan max x) eqn:Hhigh.
  { split; [done | by apply lessEqual_refl]. }
  split; by apply not_lessThan_lessEqual.
Qed.

Lemma clampInt_range (value : jsval) (fallback min max r : float) :
  Coerce.lessEqual min fallback = true -> Coerce.lessEqual fallback max = true ->
  Coerce.lessEqual min max = true ->
  Coerce.clampInt value fallback min max = Normal r ->
  Coerce.lessEqual min r = true /\ Coerce.lessEqual r max = true.
Proof.
  intros Hlow Hhigh Hmm. unfold Coerce.clampInt, Coerce.parseNumber.
  destruct (ToNumber value) as [num | e]; [| done].
  destruct (isFinite num) eqn:Hfin; [| by intros [= <-]].
  cbn zeta. destruct (isFinite (Coerce.Math_round num)) eqn:Hr; cbn [negb];
    [| by intros [= <-]].
  intros Hres.
  pose proof (clamp_within _ min max Hmm (isFinite_not_NaN _ Hr)) as H.
  cbn zeta in H.
  destruct (lessThan (Coerce.Math_round num) min); [by injection Hres as <- |].
  destruct (lessThan max (Coerce.Math_round num)); by injection Hres as <-.
Qed.

(** X7. With [min <= fallback <= max], what [clampInt] returns lies
    between [min] and [max], whatever the value: a finite Number is rounded
    and clamped, anything else gives the fallback. *)
Theorem clampInt_stays_within_bounds (value : jsval) (fallback min max r : float) :
  Coerce.lessEqual min fallback = true -> Coerce.lessEqual fallback max = true ->
  Coerce.lessEqual min max = true ->
  Coerce.clampInt value fallback min max = Normal r ->
  Coerce.lessEqual min r = true /\ Coerce.lessEqual r max = true.
Proof. apply clampInt_range. Qed.

Lemma clampInt_stays_within_bounds_witness :
  Coerce.lessEqual (Coerce.of_Z 8 false) (Coerce.of_Z 1024 false) = true
  /\ Coerce.lessEqual (Coerce.of_Z 1024 false) (Coerce.of_Z 1024 false) = true.
Proof.
  apply (clampInt_stays_within_bounds (VString false (Coerce.of_Z 3000 false))
           (Coerce.of_Z 64 false) (Coerce.of_Z 8 false) (Coerce.of_Z 1024 false));
    vm_compute; reflexivity.
Defined.

(** X8. With [min <= fallback <= max], what [clampFloat] returns lies
    between [min] and [max]. *)
Theorem clampFloat_stays_within_bounds (value : jsval) (fallback min max r : float) :
  Coerce.lessEqual min fallback = true -> Coerce.lessEqual fallback max = true ->
  Coerce.lessEqual min max = true ->
  Coerce.clampFloat value fallback min max = Normal r ->
  Coerce.lessEqual min r = true /\ Coerce.lessEqual r max = true.
Proof.
  intros Hlow Hhigh Hmm. unfold Coerce.clampFloat, Coerce.parseNumber.
  destruct (ToNumber value) as [num | e]; [| done].
  destruct (isFinite num) eqn:Hfin; [| by intros [= <-]].
  intros Hr. pose proof (clamp_within num min max Hmm (isFinite_not_NaN _ Hfin)) as H.
  cbn zeta in H.
  destruct (lessThan num min); [by injection Hr as <- |].
  destruct (lessThan max num); by injection Hr as <-.
Qed.

Lemma clampFloat_stays_within_bounds_witness :
  Coerce.lessEqual (Coerce.of_Z 0 false) (Coerce.of_Z 360 false) = true
  /\ Coerce.lessEqual (Coerce.of_Z 360 false) (Coerce.of_Z 360 false) = true.
Proof.
  apply (clampFloat_stays_within_bounds (VString false (Coerce.of_Z 400 false))
           (Coerce.of_Z 45 false) (Coerce.of_Z 0 false) (Coerce.of_Z 360 false));
    vm_compute; reflexivity.
Defined.

(** X9. [resolveGradientAngle] returns a Number between 0 and 360: the
    angle of a named direction, or the clamped [gradientAngle]. (A direction
    that names a member every object inherits, such as [constructor], has
    that member returned instead; such names are set aside.) *)
Theorem resolveGradientAngle_is_between_0_and_360 (gradientAngle : jsval)
    (gradientDirection : option string) (angle : jsval) :
  (forall key, gradientDirection = Some key -> key ∉ inherited_members) ->
  Coerce.resolveGradientAngle gradientAngle gradientDirection = Normal angle ->
  exists x, angle = VNumber x
            /\ Coerce.lessEqual (Coerce.of_Z 0 false) x = true
            /\ Coerce.lessEqual x (Coerce.of_Z 360 false) = true.
Proof.
  intros Hown.
  assert (forall v,
            match Coerce.clampFloat gradientAngle (Coerce.of_Z 45 false)
                    (Coerce.of_Z 0 false) (Coerce.of_Z 360 false) with
            | Normal x => Normal (VNumber x)
            | Throw e => Throw e
            end = Normal v ->
            exists x, v = VNumber x
                      /\ Coerce.lessEqual (Coerce.of_Z 0 false) x = true
                      /\ Coerce.lessEqual x (Coerce.of_Z 360 false) = true) as Hclamped.
  { intros v. unfold Coerce.clampFloat, Coerce.parseNumber.
    destruct (ToNumber gradientAngle) as [num | e]; [| done].
    destruct (isFinite num) eqn:Hfin.
    - pose proof (clamp_within num (Coerce.of_Z 0 false) (Coerce.of_Z 360 false)
                    eq_refl (isFinite_not_NaN _ Hfin)) as H.
      cbv zeta in H.
      destruct (lessThan num (Coerce.of_Z 0 false)); [intros [= <-]; eauto |].
      destruct (lessThan (Coerce.of_Z 360 false) num); intros [= <-]; eauto.
    - intros [= <-]. eexists. split; [done |]. by vm_compute. }
  unfold Coerce.resolveGradientAngle. cbv zeta.
  destruct gradientDirection as [key |]; [| apply Hclamped].
  specialize (Hown key eq_refl). unfold Coerce.gradient_map.
  destruct (String.eqb key "horizontal");
    [intros [= <-]; eexists; split; [done |]; by vm_compute |].
  destruct (String.eqb key "vertical");
    [intros [= <-]; eexists; split; [done |]; by vm_compute |].
  destruct (String.eqb key "diagonal");
    [intros [= <-]; eexists; split; [done |]; by vm_compute |].
  destruct (String.eqb key "diagonal2");
    [intros [= <-]; eexists; split; [done |]; by vm_compute |].
  rewrite bool_decide_eq_false_2 by done. apply Hclamped.
Qed.

Lemma resolveGradientAngle_witness :
  exists x, VNumber (Coerce.of_Z 90 false) = VNumber x
            /\ Coerce.lessEqual (Coerce.of_Z 0 false) x = true
            /\ Coerce.lessEqual x (Coerce.of_Z 360 false) = true.
Proof.
  apply (resolveGradientAngle_is_between_0_and_360 VUndefined (Some "vertical"%string)).
  - intros key [= <-]. apply (bool_decide_eq_false_1 _). vm_compute. reflexivity.
  - vm_compute. reflexivity.
Defined.

(** ** The answers of [GET /api/exchange-rate] *)

Lemma includes_true v :
  includes supportedCurrencies v = true <->
  exists code, v = QString code /\ code ∈ supportedCurrencies.
Proof.
  destruct v as [s |]; cbn.
  - rewrite bool_decide_eq_true. split; [eauto | by intros (? & [= <-] & ?)].
  - split; [done | by intros (? & ? & _)].
Qed.

Lemma handler_resolved q_from q_to now fetch st from to :
  resolved_pair q_from q_to from to ->
  exchange_rate_handler q_from q_to now fetch st =
  if String.eqb from to then
    (Json200 {| base := from; target := to; data_rate := of_fraction false 1 1;
                data_timestamp := now; data_source := "direct";
                data_fromCache := false |}, st)
  else
    match fetchExchangeRate from to now fetch st with
    | (Normal result, st') =>
        (Json200 {| base := from; target := to; data_rate := rate (entry result);
                    data_timestamp := timestamp (entry result);
                    data_source := source (entry result);
                    data_fromCache := fromCache result |}, st')
    | (Throw e, st') => (Json500 e, st')
    end.
Proof.
  intros (Hf & Ht & Hfin & Htin). unfold exchange_rate_handler.
  rewrite Hf, Ht, !includes_supported by done. reflexivity.
Qed.

Lemma handler_unresolved q_from q_to now fetch st :
  (forall from to, ~ resolved_pair q_from q_to from to) ->
  exchange_rate_handler q_from q_to now fetch st = (Json400, st).
Proof.
  intros Hnone. unfold exchange_rate_handler.
  destruct (includes supportedCurrencies (with_default "USD" q_from)) eqn:Hf; [| done].
  destruct (includes supportedCurrencies (with_default "CNY" q_to)) eqn:Ht; [| done].
  apply includes_true in Hf as (from & Hf & Hfin), Ht as (to & Ht & Htin).
  by destruct (Hnone from to).
Qed.

(** X10. The handler answers 400 exactly when [from] or [to], after the
    defaults, is not one of the six supported codes as a string (a repeated
    parameter, which the query parser turns into an array, is refused too);
    it then leaves the cache alone and asks no provider. *)
Theorem unsupported_currency_is_answered_400 q_from q_to now fetch st :
  let answer := exchange_rate_handler q_from q_to now fetch st in
  (answer.1 = Json400 <-> forall from to, ~ resolved_pair q_from q_to from to)
  /\ (answer.1 = Json400 -> answer.2 = st).
Proof.
  cbv zeta.
  assert (forall from to, resolved_pair q_from q_to from to ->
            (exchange_rate_handler q_from q_to now fetch st).1 <> Json400) as Hres.
  { intros from to H. rewrite (handler_resolved _ _ _ _ _ _ _ H).
    destruct (String.eqb from to); [done |].
    by destruct (fetchExchangeRate from to now fetch st) as [[r | e] st']. }
  split.
  - split.
    + intros H400 from to H. by apply (Hres from to H).
    + intros Hnone. by rewrite handler_unresolved.
  - intros H400.
    destruct (includes supportedCurrencies (with_default "USD" q_from)) eqn:Hf.
    2: { unfold exchange_rate_handler. by rewrite Hf. }
    destruct (includes supportedCurrencies (with_default "CNY" q_to)) eqn:Ht.
    2: { unfold exchange_rate_handler. rewrite Ht. by rewrite orb_true_r. }
    apply includes_true in Hf as (from & Hf & Hfin), Ht as (to & Ht & Htin).
    by destruct (Hres from to).
Qed.

(** The handler in two steps is the handler run at once. *)
Lemma handler_alone q_from q_to now fetch st :
  exchange_rate_handler q_from q_to now fetch st =
  match handler_begin q_from q_to now with
  | Responds r => (r, st)
  | Resolving from to =>
      (handler_end from to (fetchExchangeRate from to now fetch st).1,
       (fetchExchangeRate from to now fetch st).2)
  end.
Proof.
  unfold exchange_rate_handler, handler_begin. cbv zeta.
  destruct (negb _ || negb _); [done |].
  destruct (with_default "USD" q_from) as [from |]; [| done].
  destruct (with_default "CNY" q_to) as [to |]; [| done].
  destruct (String.eqb from to); [done |].
  by destruct (fetchExchangeRate from to now fetch st) as [[r | e] st'].
Qed.

Lemma handler_begin_resolving q_from q_to now from to :
  handler_begin q_from q_to now = Resolving from to <->
  resolved_pair q_from q_to from to /\ from <> to.
Proof.
  unfold handler_begin. cbv zeta. split.
  - destruct (includes supportedCurrencies (with_default "USD" q_from)) eqn:Hf; [| done].
    destruct (includes supportedCurrencies (with_default "CNY" q_to)) eqn:Ht; [| done].
    apply includes_true in Hf as (f & Hf & Hfin), Ht as (t & Ht & Htin).
    rewrite Hf, Ht. cbn. destruct (String.eqb_spec f t); [done |].
    intros [= <- <-]. done.
  - intros [(Hf & Ht & Hfin & Htin) Hne].
    rewrite Hf, Ht, !includes_supported by done. cbn.
    by destruct (String.eqb_spec from to).
Qed.

(** X11. A request served among others is answered 500 exactly when the
    pair is supported, its two codes differ, the cache held no entry for
    the pair, however old, when the handler called [fetchExchangeRate],
    and the three providers' requests have all settled without an
    acceptable rate; the error reported is the one of line 270. The request
    gets no response at all exactly when the pair is supported, the codes
    differ, no fresh entry was found and fewer replies than providers have
    come, none of them acceptable: the handler waits for a provider. *)
Theorem answer_500_iff_call_finds_no_rate q_from q_to now id acts sv :
  calls_under id acts = false ->
  (forall e,
     response_in q_from q_to now id acts sv = Some (Json500 e) <->
     e = NoRateAvailable
     /\ exists from to,
          resolved_pair q_from q_to from to /\ from <> to
          /\ cache (shared sv) !! cacheKey from to = None
          /\ (length EXCHANGE_RATE_APIS <= length (replies_to id acts))%nat
          /\ unacceptable (take (length EXCHANGE_RATE_APIS) (replies_to id acts)))
  /\ (response_in q_from q_to now id acts sv = None <->
      exists from to,
        resolved_pair q_from q_to from to /\ from <> to
        /\ still_valid now (cache (shared sv) !! cacheKey from to) = None
        /\ (length (replies_to id acts) < length EXCHANGE_RATE_APIS)%nat
        /\ unacceptable (replies_to id acts)).
Proof.
  intros Hcalls. unfold response_in.
  destruct (handler_begin q_from q_to now) as [resp | from to] eqn:Hbegin.
  - assert (forall from to, ~ (resolved_pair q_from q_to from to /\ from <> to)) as Hnot.
    { intros from to H. apply handler_begin_resolving with (now := now) in H. congruence. }
    assert (forall e, resp <> Json500 e) as Hresp.
    { intros e ->. revert Hbegin. unfold handler_begin. cbv zeta.
      destruct (negb _ || negb _); [done |].
      destruct (with_default "USD" q_from) as [f |]; [| done].
      destruct (with_default "CNY" q_to) as [t |]; [| done].
      by destruct (String.eqb f t). }
    split.
    + intros e. split; [intros [= ->]; by destruct (Hresp e) |].
      intros (_ & from & to & Hres & Hne & _). by destruct (Hnot from to).
    + split; [done |]. intros (from & to & Hres & Hne & _). by destruct (Hnot from to).
  - apply handler_begin_resolving in Hbegin as [Hres Hne].
    assert (forall from' to', resolved_pair q_from q_to from' to' -> from' = from /\ to' = to)
      as Hsame.
    { intros from' to' (Hf & Ht & _). destruct Hres as (Hf' & Ht' & _).
      rewrite Hf in Hf'. rewrite Ht in Ht'. by injection Hf' as ->; injection Ht' as ->. }
    destruct (call_ends id from to now acts sv Hcalls) as [-> _].
    rewrite head_option_list. unfold call_ends_with.
    set (cached := cache (shared sv) !! cacheKey from to).
    set (replies := replies_to id acts).
    assert (forall P : string -> string -> Prop,
              (exists from' to', resolved_pair q_from q_to from' to' /\ from' <> to'
                                 /\ P from' to') <-> P from to) as Hpair.
    { intros P. split; [| by eauto 6].
      intros (from' & to' & Hres' & _ & HP). by destruct (Hsame _ _ Hres') as [-> ->]. }
    destruct (still_valid now cached) as [c |] eqn:Hvalid.
    { pose proof (proj1 (still_valid_Some _ _ _) Hvalid) as [Hc _]. split.
      - intros e. rewrite (Hpair (fun f t => cache (shared sv) !! cacheKey f t = None /\ _)).
        fold cached. split; [done | intros (_ & ? & _); congruence].
      - rewrite (Hpair (fun f t => still_valid now (cache (shared sv) !! cacheKey f t) = None
                                   /\ _)).
        fold cached. split; [done | intros (? & _); congruence]. }
    destruct (ends_with_cases EXCHANGE_RATE_APIS now cached replies)
      as [(Hlen & Hrej & Hend)
         | [(Hlen & Hrej & Hend)
           | (before & a & after & rejected & rp & lt & x & Hsplit & Hreplies & Hl & Hrej
              & Hacc & Hend)]];
      rewrite Hend; cbn [fmap option_fmap option_map].
    + split.
      * intros e. rewrite (Hpair (fun f t => cache (shared sv) !! cacheKey f t = None /\ _)).
        split; [done | intros (_ & _ & ? & _); lia].
      * rewrite (Hpair (fun f t => still_valid now (cache (shared sv) !! cacheKey f t) = None
                                   /\ _)).
        split; [by intros _ | done].
    + split.
      * intros e. rewrite (Hpair (fun f t => cache (shared sv) !! cacheKey f t = None /\ _)).
        fold cached. unfold fallback. destruct cached as [c |]; cbn [handler_end].
        -- split; [done | by intros (_ & ? & _)].
        -- split; [by intros [= <-] | by intros (-> & _)].
      * rewrite (Hpair (fun f t => still_valid now (cache (shared sv) !! cacheKey f t) = None
                                   /\ _)).
        split; [done | intros (_ & ? & _); lia].
    + split.
      * intros e. rewrite (Hpair (fun f t => cache (shared sv) !! cacheKey f t = None /\ _)).
        cbn [handler_end]. split; [done |]. intros (_ & _ & _ & Hall).
        fold replies in Hall. rewrite Hreplies in Hall.
        pose proof (unacceptable_prefix _ _ _ _ _ Hall Hacc) as Hle.
        rewrite Hsplit, length_app in Hle. cbn in Hle. lia.
      * rewrite (Hpair (fun f t => still_valid now (cache (shared sv) !! cacheKey f t) = None
                                   /\ _)).
        split; [done |]. intros (_ & _ & Hall). fold replies in Hall.
        rewrite Hreplies in Hall. unfold unacceptable in Hall.
        apply Forall_app in Hall as [_ Hall]. apply Forall_cons in Hall as [Hno _].
        cbn in Hno. congruence.
Qed.

Lemma answer_500_witness :
  response_in None None 1000 1
    [Reply 1 (Throw RequestError); Reply 1 (Throw ParseFailed); Reply 1 (Normal VUndefined)]
    idle_server = Some (Json500 NoRateAvailable).
Proof.
  destruct (answer_500_iff_call_finds_no_rate None None 1000 1
              [Reply 1 (Throw RequestError); Reply 1 (Throw ParseFailed);
               Reply 1 (Normal VUndefined)] idle_server) as [H500 _].
  - reflexivity.
  - apply H500. split; [reflexivity |]. exists "USD"%string, "CNY"%string. split_and!.
    + split_and!; [reflexivity | reflexivity | |].
      * apply (bool_decide_eq_true_1 ("USD"%string ∈ supportedCurrencies)). reflexivity.
      * apply (bool_decide_eq_true_1 ("CNY"%string ∈ supportedCurrencies)). reflexivity.
    + discriminate.
    + reflexivity.
    + vm_compute. lia.
    + by repeat constructor.
Defined.

(** ** One call after another *)

Lemma cache_kept_without_writes st st' key :
  follows st st' -> writes_for key (new_events st st') = [] ->
  cache st' !! key = cache st !! key.
Proof. intros H Hw. by rewrite (follows_new_events st st' key H), Hw. Qed.

Lemma answered_grows_not (l : list (nat * completion RateResult)) x : l <> l ++ [x].
Proof.
  intros H. apply (f_equal length) in H. rewrite length_app in H. cbn in H. lia.
Qed.

(** X12. What a call returns as not degraded, be it a fresh entry or a
    rate just fetched, is what the cache holds for the pair when the call
    returns; and as long as nothing is written for the pair after that,
    whatever else the process does, a call for the pair started less than
    an hour after the entry's timestamp returns that same entry at once,
    without asking a provider and without changing the state. (A call for
    the pair that was waiting when the result was returned can write in
    between.) *)
Theorem fresh_result_is_served_again sv a id r from to :
  answered (perform sv a) = answered sv ++ [(id, Normal r)] ->
  fromCache r = false ->
  pair_of sv a = Some (from, to) ->
  let sv1 := perform sv a in
  cache (shared sv1) !! cacheKey from to = Some (entry r)
  /\ (forall acts id' now',
        let sv2 := run_schedule acts sv1 in
        writes_for (cacheKey from to) (new_events (shared sv1) (shared sv2)) = [] ->
        now' - timestamp (entry r) < exchangeRateCache.duration ->
        perform sv2 (Call id' from to now') =
        {| shared := shared sv2; waiting := delete id' (waiting sv2);
           answered := answered sv2
                       ++ [(id', Normal {| entry := entry r; fromCache := false |})] |}).
Proof.
  intros Hans Hfresh Hpair. cbv zeta.
  assert (cache (shared (perform sv a)) !! cacheKey from to = Some (entry r)) as Hheld.
  { destruct a as [id0 from0 to0 now | id0 reply]; cbn [perform pair_of] in *.
    - injection Hpair as -> ->. unfold start in *.
      destruct (still_valid now (cache (shared sv) !! cacheKey from to)) as [c |] eqn:Hvalid.
      + cbn [settle answered shared] in *. apply app_inv_head in Hans.
        injection Hans as _ <-. cbn [entry]. by apply still_valid_Some in Hvalid as [Hc _].
      + cbn [EXCHANGE_RATE_APIS next_request settle answered] in Hans.
        by destruct (answered_grows_not _ _ Hans).
    - destruct (waiting sv !! id0) as [s |] eqn:Hw; [| done].
      cbn in Hpair. injection Hpair as <- <-.
      unfold resume in *. rewrite on_reply_spec in *.
      destruct (accepted_rate reply) as [x |].
      + cbn [settle answered shared] in *. apply app_inv_head in Hans.
        injection Hans as _ <-. cbn [entry]. unfold written_state. cbn [cache].
        apply lookup_insert_eq.
      + destruct (s_rest s) as [| api rest]; cbn [next_request] in *.
        * unfold after_loop in *. destruct (s_cached s) as [c |];
            cbn [settle answered] in Hans; apply app_inv_head in Hans.
          -- injection Hans as _ <-. done.
          -- done.
        * cbn [settle answered] in Hans. by destruct (answered_grows_not _ _ Hans). }
  split; [exact Hheld |].
  intros acts id' now' Hquiet Hage. cbn [perform]. unfold start.
  rewrite (cache_kept_without_writes _ _ _ (follows_run_schedule acts (perform sv a)) Hquiet).
  rewrite Hheld.
  assert (still_valid now' (Some (entry r)) = Some (entry r)) as ->
    by (by apply still_valid_Some).
  reflexivity.
Qed.

(** The second call's result is served to a third call while the first
    call is still waiting. *)
Lemma fresh_result_witness :
  let sv := run_schedule [Call 1 "USD" "CNY" 1000; Call 2 "USD" "CNY" 2000] idle_server in
  let sv1 := perform sv (Reply 2 (Normal (VNumber seven_point_2))) in
  perform (run_schedule [Call 4 "EUR" "USD" 2200] sv1) (Call 3 "USD" "CNY" 2500) =
  {| shared := shared (run_schedule [Call 4 "EUR" "USD" 2200] sv1);
     waiting := delete 3%nat (waiting (run_schedule [Call 4 "EUR" "USD" 2200] sv1));
     answered := answered (run_schedule [Call 4 "EUR" "USD" 2200] sv1)
                 ++ [(3%nat, Normal {| entry := stored_entry api_1 2000 seven_point_2;
                                       fromCache := false |})] |}.
Proof.
  cbv zeta.
  destruct (fresh_result_is_served_again
              (run_schedule [Call 1 "USD" "CNY" 1000; Call 2 "USD" "CNY" 2000] idle_server)
              (Reply 2 (Normal (VNumber seven_point_2))) 2%nat
              {| entry := stored_entry api_1 2000 seven_point_2; fromCache := false |}
              "USD" "CNY") as [_ Hagain].
  - by vm_compute.
  - reflexivity.
  - reflexivity.
  - apply (Hagain [Call 4 "EUR" "USD" 2200] 3%nat 2500).
    + reflexivity.
    + vm_compute. reflexivity.
Defined.

(** Once the first call has got its answer, the third call is served the
    first call's entry. *)
Example waiting_call_replaces_the_result :
  let sv := run_schedule [Call 1 "USD" "CNY" 1000; Call 2 "USD" "CNY" 2000;
                          Reply 2 (Normal (VNumber seven_point_2));
                          Reply 1 (Normal (VNumber seven_point_1999));
                          Call 3 "USD" "CNY" 2500] idle_server in
  answered sv =
  [(2%nat, Normal {| entry := stored_entry api_1 2000 seven_point_2; fromCache := false |});
   (1%nat, Normal {| entry := stored_entry api_1 1000 seven_point_1999; fromCache := false |});
   (3%nat, Normal {| entry := stored_entry api_1 1000 seven_point_1999; fromCache := false |})].
Proof. by vm_compute. Qed.

(** The keys of two pairs of supported codes differ; in general
    [cacheKey] is not injective (["A-B"] with ["C"], ["A"] with ["B-C"]). *)
Lemma cacheKey_supported from to from' to' :
  from ∈ supportedCurrencies -> from' ∈ supportedCurrencies ->
  cacheKey from to = cacheKey from' to' -> from = from' /\ to = to'.
Proof.
  intros Hf Hf'. unfold cacheKey.
  repeat (apply elem_of_cons in Hf as [-> | Hf]);
    try (by inversion Hf);
    repeat (apply elem_of_cons in Hf' as [-> | Hf']);
    try (by inversion Hf');
    cbn; intros [=]; by subst.
Qed.

(** X13. A call for one pair of supported currencies leaves the cache
    entry of every other pair as it was; the reverse pair is another
    pair. *)
Theorem other_pairs_keep_their_entries from to now fetch st from' to' :
  from ∈ supportedCurrencies -> from' ∈ supportedCurrencies ->
  (from', to') <> (from, to) ->
  cache (fetchExchangeRate from to now fetch st).2 !! cacheKey from' to' =
  cache st !! cacheKey from' to'.
Proof.
  intros Hf Hf' Hne.
  assert (cacheKey from to <> cacheKey from' to') as Hkey.
  { intros Heq. apply cacheKey_supported in Heq as [-> ->]; done. }
  call_cases from to now fetch st; [done | | done].
  by apply lookup_insert_ne.
Qed.

Lemma other_pairs_keep_their_entries_witness :
  cache (fetchExchangeRate "USD" "CNY" 5000 second_provider_answers
           state_with_old_entry).2 !! cacheKey "CNY" "USD" =
  cache state_with_old_entry !! cacheKey "CNY" "USD".
Proof.
  apply other_pairs_keep_their_entries.
  - vm_compute. by left.
  - vm_compute. right. by left.
  - discriminate.
Defined.

(** ** [validateInputs] *)

Lemma valid_number_Some (v : jsval) (x : float) :
  Calculator.valid_number v = Some x <-> v = VNumber x /\ isFinite x = true.
Proof.
  unfold Calculator.valid_number. destruct v as [| | b | y | empty num | num];
    try (split; [done | by intros [? _]]).
  destruct y as [s | s | | s m e]; cbn; split;
    try done; try (by intros [[= <-] ?]); by intros [= <-].
Qed.

Lemma validateInputs_accepts (c d u : jsval) (x y z : float) :
  Calculator.validateInputs c d u = Calculator.Returned (x, y, z) <->
  c = VNumber x /\ d = VNumber y /\ u = VNumber z
  /\ isFinite x = true /\ isFinite y = true /\ isFinite z = true
  /\ lessThan pos_zero x = true /\ lessThan pos_zero y = true
  /\ Coerce.lessEqual pos_zero z = true /\ Coerce.lessEqual z y = true.
Proof.
  unfold Calculator.validateInputs. split.
  - destruct (Calculator.valid_number c) as [x' |] eqn:Hc; [| done].
    apply valid_number_Some in Hc as [-> Hx].
    destruct (Coerce.lessEqual x' pos_zero) eqn:Hcx; [done |].
    destruct (Calculator.valid_number d) as [y' |] eqn:Hd; [| done].
    apply valid_number_Some in Hd as [-> Hy].
    destruct (Coerce.lessEqual y' pos_zero) eqn:Hdy; [done |].
    destruct (Calculator.valid_number u) as [z' |] eqn:Hu; [| done].
    apply valid_number_Some in Hu as [-> Hz].
    destruct (lessThan z' pos_zero) eqn:Huz; [done |].
    destruct (lessThan y' z') eqn:Hyz; [done |].
    intros [= <- <- <-].
    apply not_lessEqual_lessThan in Hcx, Hdy; try by apply isFinite_not_NaN.
    apply not_lessThan_iff in Huz, Hyz; try by apply isFinite_not_NaN.
    done.
  - intros (-> & -> & -> & Hx & Hy & Hz & Hcx & Hdy & Huz & Hyz).
    rewrite (proj2 (valid_number_Some (VNumber x) x)) by done.
    rewrite (proj2 (valid_number_Some (VNumber y) y)) by done.
    rewrite (proj2 (valid_number_Some (VNumber z) z)) by done.
    apply not_lessEqual_lessThan in Hcx, Hdy; try by apply isFinite_not_NaN.
    apply not_lessThan_iff in Huz, Hyz; try by apply isFinite_not_NaN.
    by rewrite Hcx, Hdy, Huz, Hyz.
Qed.

Lemma validateInputs_checks (c d u : jsval) :
  Calculator.validateInputs c d u =
  if negb (Calculator.positive_number c) then Calculator.Raised Calculator.TotalCostInvalid
  else if negb (Calculator.positive_number d) then Calculator.Raised Calculator.TotalDaysInvalid
  else if negb (Calculator.nonnegative_number u) then Calculator.Raised Calculator.UsedDaysInvalid
  else if Calculator.exceeds u d then Calculator.Raised Calculator.UsedDaysExceedTotal
  else match c, d, u with
       | VNumber x, VNumber y, VNumber z => Calculator.Returned (x, y, z)
       | _, _, _ => Calculator.Raised Calculator.TotalCostInvalid
       end.
Proof.
  unfold Calculator.validateInputs.
  destruct c as [| | b | [[] | [] | | [] mx ex] | empty num | num]; try reflexivity;
    destruct d as [| | b | [[] | [] | | [] my ey] | empty num | num]; try reflexivity;
    destruct u as [| | b | [[] | [] | | [] mz ez] | empty num | num]; try reflexivity.
Qed.

Lemma validateInputs_errors (c d u : jsval) (e : Calculator.calc_error) :
  Calculator.validateInputs c d u = Calculator.Raised e ->
  e ∈ [Calculator.TotalCostInvalid; Calculator.TotalDaysInvalid;
       Calculator.UsedDaysInvalid; Calculator.UsedDaysExceedTotal].
Proof.
  rewrite validateInputs_checks.
  destruct (negb _); [intros [= <-]; by left |].
  destruct (negb _); [intros [= <-]; right; by left |].
  destruct (negb _); [intros [= <-]; do 2 right; by left |].
  destruct (Calculator.exceeds u d); [intros [= <-]; do 3 right; by left |].
  destruct c as [| | b | x | empty num | num]; try (intros [= <-]; by left).
  destruct d as [| | b | y | empty num | num]; try (intros [= <-]; by left).
  destruct u as [| | b | z | empty num | num]; try (intros [= <-]; by left).
Qed.

(** X14. [validateInputs] throws the error of the first check that fails,
    in the order cost, total days, used days, used days above the total:
    the cost and the total must be finite Numbers above zero, the used days
    a finite Number that is not negative. *)
Theorem validateInputs_reports_first_failed_check (c d u : jsval)
    (e : Calculator.calc_error) :
  Calculator.validateInputs c d u = Calculator.Raised e <->
  (e = Calculator.TotalCostInvalid /\ Calculator.positive_number c = false)
  \/ (e = Calculator.TotalDaysInvalid /\ Calculator.positive_number c = true
      /\ Calculator.positive_number d = false)
  \/ (e = Calculator.UsedDaysInvalid /\ Calculator.positive_number c = true
      /\ Calculator.positive_number d = true /\ Calculator.nonnegative_number u = false)
  \/ (e = Calculator.UsedDaysExceedTotal /\ Calculator.positive_number c = true
      /\ Calculator.positive_number d = true /\ Calculator.nonnegative_number u = true
      /\ Calculator.exceeds u d = true).
Proof.
  rewrite validateInputs_checks.
  destruct (Calculator.positive_number c) eqn:Hc; cbn [negb].
  2: { split; [intros [= <-]; by left | intros [[-> _] | [H | [H | H]]]; [done | | |]];
       destruct H as (_ & ? & _); done. }
  destruct (Calculator.positive_number d) eqn:Hd; cbn [negb].
  2: { split; [intros [= <-]; right; by left |].
       intros [[_ ?] | [[-> _] | [H | H]]]; [done | done | |];
         destruct H as (_ & _ & ? & _); done. }
  destruct (Calculator.nonnegative_number u) eqn:Hu; cbn [negb].
  2: { split; [intros [= <-]; do 2 right; by left |].
       intros [[_ ?] | [(_ & _ & ?) | [[-> _] | H]]]; [done | done | done |].
       destruct H as (_ & _ & _ & ? & _); done. }
  destruct (Calculator.exceeds u d) eqn:Hex.
  { split; [intros [= <-]; do 3 right; done |].
    intros [[_ ?] | [(_ & _ & ?) | [(_ & _ & _ & ?) | [-> _]]]]; done. }
  destruct c as [| | b | x | empty num | num]; try done.
  destruct d as [| | b | y | empty num | num]; try done.
  destruct u as [| | b | z | empty num | num]; try done.
  split; [done |].
  intros [[_ ?] | [(_ & _ & ?) | [(_ & _ & _ & ?) | (_ & _ & _ & _ & ?)]]]; done.
Qed.

Lemma calculateRemainingValue_returns (c d u : jsval) :
  (exists r, Calculator.calculateRemainingValue c d u = Calculator.Returned r) <->
  exists x y z,
    c = VNumber x /\ d = VNumber y /\ u = VNumber z
    /\ isFinite x = true /\ isFinite y = true /\ isFinite z = true
    /\ lessThan pos_zero x = true /\ lessThan pos_zero y = true
    /\ Coerce.lessEqual pos_zero z = true /\ Coerce.lessEqual z y = true.
Proof.
  unfold Calculator.calculateRemainingValue. split.
  - intros [r Hr].
    destruct (Calculator.validateInputs c d u) as [[[x y] z] | e] eqn:Hv; [| done].
    exists x, y, z. by apply validateInputs_accepts.
  - intros (x & y & z & H). apply validateInputs_accepts in H.
    rewrite H. eauto.
Qed.

(** X15. [calculateRemainingValue] returns a result exactly when its three
    arguments are finite Numbers (not strings, not [NaN]) with a cost and a
    total above zero and used days from zero to the total; otherwise it
    throws. *)
Theorem calculateRemainingValue_returns_iff_inputs_valid (c d u : jsval) :
  ((exists r, Calculator.calculateRemainingValue c d u = Calculator.Returned r) <->
   exists x y z,
     c = VNumber x /\ d = VNumber y /\ u = VNumber z
     /\ isFinite x = true /\ isFinite y = true /\ isFinite z = true
     /\ lessThan pos_zero x = true /\ lessThan pos_zero y = true
     /\ Coerce.lessEqual pos_zero z = true /\ Coerce.lessEqual z y = true)
  /\ ((exists r, Calculator.calculateRemainingValue c d u = Calculator.Returned r)
      \/ exists e, Calculator.calculateRemainingValue c d u = Calculator.Raised e).
Proof.
  split; [apply calculateRemainingValue_returns |].
  destruct (Calculator.calculateRemainingValue c d u) as [r | e]; eauto.
Qed.

(** ** The ends of the term *)

Lemma new_location_exact (n : Z) : new_location n 0 = loc_Exact.
Proof. unfold new_location. by destruct (Z.even n). Qed.

Lemma SFdiv_self (s : bool) (m : positive) (e : Z) :
  SFdiv prec emax (S754_finite s m e) (S754_finite s m e) = one.
Proof.
  unfold SFdiv, SFdiv_core_binary.
  replace (Zdigits2 (Zpos m) + e - (Zdigits2 (Zpos m) + e)) with 0 by lia.
  rewrite Z.sub_diag.
  change (Z.min (fexp prec emax 0) 0) with (-53). change (0 - -53) with 53.
  cbv beta iota zeta.
  rewrite Z.shiftl_mul_pow2 by lia.
  destruct (Z.div_eucl (Zpos m * 2 ^ 53) (Zpos m)) as [q r] eqn:Hdiv.
  assert (q = (Zpos m * 2 ^ 53) / Zpos m) as Hq by (unfold Z.div; by rewrite Hdiv).
  assert (r = (Zpos m * 2 ^ 53) mod Zpos m) as Hr by (unfold Z.modulo; by rewrite Hdiv).
  rewrite (Z.mul_comm (Zpos m)) in Hq, Hr.
  rewrite Z.div_mul in Hq by lia. rewrite Z.mod_mul in Hr by lia. subst q r.
  rewrite new_location_exact. destruct s; vm_compute; reflexivity.
Qed.

Lemma positive_finite_shape (x : float) :
  isFinite x = true -> lessThan pos_zero x = true -> exists m e, x = S754_finite false m e.
Proof.
  intros Hfin [-> | H]%lessThan_zero_cases; [done | exact H].
Qed.

Lemma SFsub_same (x : float) : isFinite x = true -> SFsub prec emax x x = pos_zero.
Proof.
  destruct x as [[] | s | | s m e]; try done. intros _.
  unfold SFsub, shl_align. cbv zeta. rewrite Z.min_id. repeat rewrite Z.sub_diag.
  cbn [fst]. repeat rewrite Z.sub_diag. reflexivity.
Qed.

Lemma two_places_zero (s : bool) : Calculator.two_places (S754_zero s) = pos_zero.
Proof. reflexivity. Qed.

Lemma SFmul_zero_r (x : float) (s : bool) :
  SFmul prec emax x (S754_zero s) =
  if isFinite x then S754_zero (xorb (match x with
                                      | S754_zero sx | S754_finite sx _ _ => sx
                                      | _ => false
                                      end) s)
  else NaN.
Proof. by destruct x. Qed.

(** X16. When the used days equal the total, no day remains, the usage
    rate is 100 and the remaining value is 0; the division of a Number by
    itself is exact. (Were the daily rate to overflow, the remaining value
    would be [NaN].) *)
Theorem fully_used_term_is_worth_nothing (cost days : float) (r : Calculator.calc_result) :
  Calculator.calculateRemainingValue (VNumber cost) (VNumber days) (VNumber days) =
    Calculator.Returned r ->
  Calculator.remainingDays r = pos_zero
  /\ Calculator.usageRate r = Calculator.hundred
  /\ Calculator.remainingValue r =
     (if isFinite (SFdiv prec emax cost days) then pos_zero else NaN).
Proof.
  unfold Calculator.calculateRemainingValue.
  destruct (Calculator.validateInputs _ _ _) as [[[x y] z] | e] eqn:Hv; [| done].
  apply validateInputs_accepts in Hv
    as ([= <-] & [= <-] & [= <-] & Hx & Hy & _ & Hcx & Hdy & _).
  intros [= <-]. cbn [Calculator.remainingDays Calculator.usageRate
                       Calculator.remainingValue].
  destruct (positive_finite_shape days Hy Hdy) as (m & e & Hdays).
  rewrite (SFsub_same days Hy), Hdays, SFdiv_self.
  split_and!; [done | by vm_compute |].
  unfold pos_zero at 1. rewrite SFmul_zero_r.
  destruct (isFinite (SFdiv prec emax cost (S754_finite false m e))); [| done].
  apply two_places_zero.
Qed.

Lemma fully_used_term_witness :
  exists r,
    Calculator.calculateRemainingValue (VNumber (Coerce.of_Z 100 false))
      (VNumber (Coerce.of_Z 30 false)) (VNumber (Coerce.of_Z 30 false)) =
    Calculator.Returned r
    /\ Calculator.remainingDays r = pos_zero
    /\ Calculator.usageRate r = Calculator.hundred
    /\ Calculator.remainingValue r = pos_zero.
Proof.
  eexists. split; [vm_compute; reflexivity |].
  apply (fully_used_term_is_worth_nothing (Coerce.of_Z 100 false) (Coerce.of_Z 30 false)).
  vm_compute. reflexivity.
Defined.

(** X17. When no day has been used, all days remain, the usage rate is 0
    and the used value is 0; a negative zero counts as no day used. *)
Theorem unused_term_keeps_all_days (cost days : float) (s : bool)
    (r : Calculator.calc_result) :
  Calculator.calculateRemainingValue (VNumber cost) (VNumber days)
    (VNumber (S754_zero s)) = Calculator.Returned r ->
  Calculator.remainingDays r = days
  /\ Calculator.usageRate r = pos_zero
  /\ Calculator.usedValue r =
     (if isFinite (SFdiv prec emax cost days) then pos_zero else NaN).
Proof.
  unfold Calculator.calculateRemainingValue.
  destruct (Calculator.validateInputs _ _ _) as [[[x y] z] | e] eqn:Hv; [| done].
  apply validateInputs_accepts in Hv
    as ([= <-] & [= <-] & [= <-] & Hx & Hy & _ & Hcx & Hdy & _).
  intros [= <-]. cbn [Calculator.remainingDays Calculator.usageRate
                       Calculator.usedValue].
  destruct (positive_finite_shape days Hy Hdy) as (m & e & Hdays).
  rewrite SFmul_zero_r, Hdays.
  split_and!; [done | reflexivity |].
  destruct (isFinite (SFdiv prec emax cost (S754_finite false m e))); [| done].
  apply two_places_zero.
Qed.

Lemma unused_term_witness :
  exists r,
    Calculator.calculateRemainingValue (VNumber (Coerce.of_Z 100 false))
      (VNumber (Coerce.of_Z 30 false)) (VNumber pos_zero) = Calculator.Returned r
    /\ Calculator.remainingDays r = Coerce.of_Z 30 false
    /\ Calculator.usageRate r = pos_zero
    /\ Calculator.usedValue r = pos_zero.
Proof.
  eexists. split; [vm_compute; reflexivity |].
  apply (unused_term_keeps_all_days (Coerce.of_Z 100 false) (Coerce.of_Z 30 false) false).
  vm_compute. reflexivity.
Defined.

(** ** [calculateUsedDays] *)

Lemma binary_round_aux_not_negative (m e : Z) (l : location) :
  lessThan (binary_round_aux prec emax false m e l) pos_zero = false.
Proof.
  unfold binary_round_aux.
  destruct (shr_fexp prec emax m e l) as [mrs' e'].
  destruct (shr_fexp prec emax _ e' loc_Exact) as [mrs'' e''].
  destruct (shr_m mrs'') as [| p | p]; [done | | done].
  by destruct (e'' <=? emax - prec).
Qed.

Lemma of_Z_not_negative (z : Z) :
  0 <= z -> lessThan (Coerce.of_Z z false) pos_zero = false.
Proof.
  intros Hz. destruct z as [| p | p]; [done | | lia].
  unfold Coerce.of_Z, binary_normalize, binary_round.
  destruct (shl_align p 0 _) as [mz ez]. apply binary_round_aux_not_negative.
Qed.

Lemma not_negative_shape (x : float) :
  lessThan x pos_zero = false ->
  x = NaN \/ x = pos_infinity \/ (exists s, x = S754_zero s)
  \/ exists m e, x = S754_finite false m e.
Proof.
  destruct x as [s | [] | | [] m e]; intros H; try done.
  - do 2 right. left. eauto.
  - right. by left.
  - by left.
  - do 3 right. eauto.
Qed.

Lemma Math_floor_not_negative (x : float) :
  lessThan x pos_zero = false -> lessThan (Coerce.Math_floor x) pos_zero = false.
Proof.
  intros [-> | [-> | [[s ->] | (m & e & ->)]]]%not_negative_shape; try done.
  unfold Coerce.Math_floor. destruct (Z.leb_spec 0 e); [done |].
  apply of_Z_not_negative. cbn [cond_Zopp]. apply Z.div_pos; [lia |].
  apply Z.pow_pos_nonneg; lia.
Qed.

Lemma SFdiv_not_negative (x : float) :
  lessThan x pos_zero = false ->
  lessThan (SFdiv prec emax x Calculator.MS_PER_DAY) pos_zero = false.
Proof.
  intros [-> | [-> | [[s ->] | (m & e & ->)]]]%not_negative_shape;
    try done; try (by destruct s).
  assert (exists md ed, Calculator.MS_PER_DAY = S754_finite false md ed)
    as (md & ed & ->) by (vm_compute; eauto).
  unfold SFdiv. destruct (SFdiv_core_binary _ _ _ _ _ _) as [[mz ez] lz].
    apply binary_round_aux_not_negative.
Qed.

Lemma calculateUsedDays_errors (purchase now : float) (e : Calculator.calc_error) :
  Calculator.calculateUsedDays purchase now = Calculator.Raised e ->
  e = Calculator.PurchaseDateInvalid \/ e = Calculator.PurchaseDateInFuture.
Proof.
  unfold Calculator.calculateUsedDays.
  destruct (Coerce.isNaN purchase); [intros [= <-]; by left |].
  destruct (lessThan _ pos_zero); [intros [= <-]; by right | done].
Qed.

(** X18. The days [calculateUsedDays] returns are never below zero, and a
    purchase made at this very instant counts 0 days. *)
Theorem calculateUsedDays_counts_from_zero (purchase now r : float) :
  (Calculator.calculateUsedDays purchase now = Calculator.Returned r ->
   lessThan r pos_zero = false)
  /\ (isFinite now = true ->
      Calculator.calculateUsedDays now now = Calculator.Returned pos_zero).
Proof.
  unfold Calculator.calculateUsedDays. split.
  - destruct (Coerce.isNaN purchase); [done |].
    destruct (lessThan (SFsub prec emax now purchase) pos_zero) eqn:Hdiff; [done |].
    intros [= <-]. by apply Math_floor_not_negative, SFdiv_not_negative.
  - intros Hnow. rewrite (isFinite_not_NaN now Hnow), (SFsub_same now Hnow).
    reflexivity.
Qed.

(** ** The two [POST] handlers *)

Lemma Number_Returned (v w : jsval) :
  Calculator.Number v = Calculator.Returned w <->
  exists x, ToNumber v = Normal x /\ w = VNumber x.
Proof.
  unfold Calculator.Number. destruct (ToNumber v) as [x | e].
  - split; [intros [= <-]; eauto | by intros (? & [= <-] & ->)].
  - split; [done | by intros (? & ? & _)].
Qed.

(** X19. [POST /api/calculate] answers 200 exactly when the three members
    are present and [Number] converts them to finite Numbers with a cost
    and a total above zero and used days from zero to the total; so
    numeric strings are accepted, and [null] counts as 0. It reports missing
    parameters exactly when a member is [undefined]. *)
Theorem calculate_handler_succeeds_iff (totalCost totalDays usedDays : option jsval) :
  ((exists r, Calculator.calculate_handler totalCost totalDays usedDays =
              Calculator.Success r) <->
   exists a b c x y z,
     totalCost = Some a /\ totalDays = Some b /\ usedDays = Some c
     /\ ToNumber a = Normal x /\ ToNumber b = Normal y /\ ToNumber c = Normal z
     /\ isFinite x = true /\ isFinite y = true /\ isFinite z = true
     /\ lessThan pos_zero x = true /\ lessThan pos_zero y = true
     /\ Coerce.lessEqual pos_zero z = true /\ Coerce.lessEqual z y = true)
  /\ (Calculator.calculate_handler totalCost totalDays usedDays =
        Calculator.MissingParameters <->
      totalCost = None \/ totalDays = None \/ usedDays = None).
Proof.
  unfold Calculator.calculate_handler. split.
  - split.
    + intros [r Hr].
      destruct totalCost as [a |], totalDays as [b |], usedDays as [c |]; try done.
      destruct (Calculator.Number a) as [a' |] eqn:Ha; [| done].
      destruct (Calculator.Number b) as [b' |] eqn:Hb; [| done].
      destruct (Calculator.Number c) as [c' |] eqn:Hc; [| done].
      apply Number_Returned in Ha as (x & Hx & ->), Hb as (y & Hy & ->),
        Hc as (z & Hz & ->).
      destruct (Calculator.calculateRemainingValue _ _ _) as [r' |] eqn:Hcalc; [| done].
      destruct (proj1 (calculateRemainingValue_returns _ _ _) (ex_intro _ r' Hcalc))
        as (x' & y' & z' & [= <-] & [= <-] & [= <-] & H).
      exists a, b, c, x, y, z. done.
    + intros (a & b & c & x & y & z & -> & -> & -> & Hx & Hy & Hz & H).
      unfold Calculator.Number. rewrite Hx, Hy, Hz.
      destruct (proj2 (calculateRemainingValue_returns (VNumber x) (VNumber y) (VNumber z)))
        as [r ->]; [| eauto].
      exists x, y, z. done.
  - destruct totalCost as [a |], totalDays as [b |], usedDays as [c |];
      try (split; [intros _ | done]; auto).
    split; [| by intros [? | [? | ?]]].
    destruct (Calculator.Number a); [| done].
    destruct (Calculator.Number b); [| done].
    destruct (Calculator.Number c); [| done].
    by destruct (Calculator.calculateRemainingValue _ _ _).
Qed.

Lemma getDaysByCycle_cases (key : string) :
  (exists days, (key, days) ∈ Calculator.cycle_table
                /\ Calculator.getDaysByCycle key = Calculator.Returned (VNumber days))
  \/ ((key ∈ inherited_members) /\ (key ∉ (Calculator.cycle_table.*1))
      /\ Calculator.getDaysByCycle key = Calculator.Returned (VObject (Normal NaN)))
  \/ ((key ∉ inherited_members) /\ (key ∉ (Calculator.cycle_table.*1))
      /\ Calculator.getDaysByCycle key =
         Calculator.Raised (Calculator.CycleUnsupported key)).
Proof.
  unfold Calculator.getDaysByCycle, Calculator.cycleDays.
  destruct (String.eqb_spec key "monthly") as [-> | H1].
  { left. eexists. split; [by left | reflexivity]. }
  destruct (String.eqb_spec key "yearly") as [-> | H2].
  { left. eexists. split; [right; by left | reflexivity]. }
  destruct (String.eqb_spec key "biennial") as [-> | H3].
  { left. eexists. split; [do 2 right; by left | reflexivity]. }
  destruct (String.eqb_spec key "triennial") as [-> | H4].
  { left. eexists. split; [do 3 right; by left | reflexivity]. }
  assert (key ∉ (Calculator.cycle_table.*1)) as Hnot.
  { cbn. intros Hin. repeat (apply elem_of_cons in Hin as [-> | Hin]; [done |]).
    inversion Hin. }
  right. destruct (bool_decide (key ∈ inherited_members)) eqn:Hinh.
  - left. apply bool_decide_eq_true in Hinh. done.
  - right. apply bool_decide_eq_false in Hinh. done.
Qed.

Lemma calculateRemainingValue_errors (c d u : jsval) (e : Calculator.calc_error) :
  Calculator.calculateRemainingValue c d u = Calculator.Raised e ->
  Calculator.validateInputs c d u = Calculator.Raised e.
Proof.
  unfold Calculator.calculateRemainingValue.
  destruct (Calculator.validateInputs c d u) as [[[x y] z] | e']; [discriminate |].
  by intros [= ->].
Qed.

Lemma calculateRemainingValue_cycle_error (c d u : jsval) (key : string) :
  Calculator.calculateRemainingValue c d u <>
  Calculator.Raised (Calculator.CycleUnsupported key).
Proof.
  intros Hr. apply calculateRemainingValue_errors, validateInputs_errors in Hr.
  repeat (apply elem_of_cons in Hr as [Hr | Hr]; [done |]). inversion Hr.
Qed.

(** X20. [POST /api/calculate-by-cycle] answers 200 only for one of the
    four cycles of the table, with [totalDays] its length (30, 365, 730 or
    1095) and [usedDays] a finite Number from zero to that length: a
    purchase older than the cycle is an error, not a remaining value of
    zero. *)
Theorem by_cycle_success_needs_a_listed_cycle (totalCost : option jsval)
    (cycle : Calculator.cycle_value) (purchaseDate : Calculator.date_value)
    (now : float) (data : Calculator.cycle_data) :
  Calculator.calculate_by_cycle_handler totalCost cycle purchaseDate now =
    Calculator.Success data ->
  exists key days,
    cycle = Calculator.CycleKey key /\ (key, days) ∈ Calculator.cycle_table
    /\ Calculator.totalDays data = VNumber days
    /\ isFinite (Calculator.usedDays data) = true
    /\ Coerce.lessEqual pos_zero (Calculator.usedDays data) = true
    /\ Coerce.lessEqual (Calculator.usedDays data) days = true.
Proof.
  unfold Calculator.calculate_by_cycle_handler. cbv zeta.
  destruct (ToBoolean (default VUndefined totalCost)); [| done]. cbn [negb].
  destruct cycle as [| key |]; [done | | by destruct purchaseDate].
  destruct purchaseDate as [| purchase |]; [done | |].
  2: { by destruct (Calculator.getDaysByCycle key). }
  destruct (Calculator.getDaysByCycle key) as [days |] eqn:Hdays; [| done].
  destruct (Calculator.calculateUsedDays purchase now) as [used |]; [| done].
  destruct (Calculator.Number _) as [c |]; [| done].
  destruct (Calculator.calculateRemainingValue c days (VNumber used)) as [r |] eqn:Hr;
    [| done].
  intros [= <-]. cbn [Calculator.totalDays Calculator.usedDays].
  destruct (proj1 (calculateRemainingValue_returns _ _ _) (ex_intro _ r Hr))
    as (x & y & z & -> & -> & [= <-] & _ & _ & Hz & _ & _ & Hlow & Hhigh).
  destruct (getDaysByCycle_cases key)
    as [(days & Hin & Heq) | [(_ & _ & Heq) | (_ & _ & Heq)]];
    rewrite Heq in Hdays; try done.
  injection Hdays as <-. exists key, days. done.
Qed.

Lemma by_cycle_success_witness :
  exists key days,
    Calculator.CycleKey "monthly" = Calculator.CycleKey key
    /\ (key, days) ∈ Calculator.cycle_table.
Proof.
  edestruct (by_cycle_success_needs_a_listed_cycle
               (Some (VNumber (Coerce.of_Z 100 false))) (Calculator.CycleKey "monthly")
               (Calculator.DateTime (Coerce.of_Z 1700000000000 false))
               (Coerce.of_Z 1700432000000 false))
    as (key & days & Hkey & Hdays & _).
  - vm_compute. reflexivity.
  - exists key, days. split; [exact Hkey | exact Hdays].
Defined.

(** X21. The handler reports an unsupported cycle exactly when the three
    members are truthy and the cycle is neither one of the four of the
    table nor the name of a member every object inherits: for
    [constructor], [toString], [__proto__] and the like [getDaysByCycle]
    does not throw, and the request fails later with another message. *)
Theorem unsupported_cycle_reported_iff (totalCost : option jsval)
    (cycle : Calculator.cycle_value) (purchaseDate : Calculator.date_value)
    (now : float) (key : string) :
  Calculator.calculate_by_cycle_handler totalCost cycle purchaseDate now =
    Calculator.Failure (Calculator.CycleUnsupported key) <->
  (exists cost, totalCost = Some cost /\ ToBoolean cost = true)
  /\ cycle = Calculator.CycleKey key /\ purchaseDate <> Calculator.DateFalsy
  /\ (key ∉ (Calculator.cycle_table.*1)) /\ (key ∉ inherited_members).
Proof.
  unfold Calculator.calculate_by_cycle_handler. cbv zeta. split.
  - destruct totalCost as [cost |]; [| by cbn].
    change (default VUndefined (Some cost)) with cost.
    destruct (ToBoolean cost) eqn:Hcost; [| by cbn]. cbn [negb].
    destruct cycle as [| key' |]; [done | | by destruct purchaseDate].
    destruct (getDaysByCycle_cases key')
      as [(days & Hin & ->) | [(? & ? & ->) | (? & ? & ->)]].
    + destruct purchaseDate as [| purchase |]; [done | | done].
      destruct (Calculator.calculateUsedDays purchase now) as [used |] eqn:Hused.
      * destruct (Calculator.Number cost) as [c |] eqn:Hc.
        -- destruct (Calculator.calculateRemainingValue _ _ _) as [r | e] eqn:Hr; [done |].
           intros [= ->]. by apply calculateRemainingValue_cycle_error in Hr.
        -- unfold Calculator.Number in Hc. destruct (ToNumber cost); [done |].
           injection Hc as <-. done.
      * intros [= ->]. by apply calculateUsedDays_errors in Hused as [? | ?].
    + destruct purchaseDate as [| purchase |]; [done | | done].
      destruct (Calculator.calculateUsedDays purchase now) as [used |] eqn:Hused.
      * destruct (Calculator.Number cost) as [c |] eqn:Hc.
        -- destruct (Calculator.calculateRemainingValue _ _ _) as [r | e] eqn:Hr; [done |].
           intros [= ->]. by apply calculateRemainingValue_cycle_error in Hr.
        -- unfold Calculator.Number in Hc. destruct (ToNumber cost); [done |].
           injection Hc as <-. done.
      * intros [= ->]. by apply calculateUsedDays_errors in Hused as [? | ?].
    + destruct purchaseDate as [| purchase |]; [done | |];
        intros [= ->]; split_and!; eauto.
  - intros ((cost & -> & Hcost) & -> & Hdate & Hnot & Hinh).
    change (default VUndefined (Some cost)) with cost. rewrite Hcost. cbn [negb].
    destruct (getDaysByCycle_cases key)
      as [(days & Hin & _) | [(? & _) | (_ & _ & ->)]]; [| done |].
    + exfalso. apply Hnot. apply list_elem_of_fmap. by exists (key, days).
    + by destruct purchaseDate.
Qed.

(** ** The colours of the ring *)

Lemma split_on_not_nil (sep : N) (s : Text.jsstring) : Svg.split_on sep s <> [].
Proof.
  destruct s as [| u rest]; [done |]. cbn.
  destruct (N.eqb u sep); [done |]. by destruct (Svg.split_on sep rest).
Qed.

Lemma split_on_no_separator (sep : N) (s piece : Text.jsstring) :
  piece ∈ Svg.split_on sep s -> sep ∉ piece.
Proof.
  revert piece. induction s as [| u rest IH]; intros piece; cbn.
  - intros ->%list_elem_of_singleton Hin. inversion Hin.
  - destruct (N.eqb_spec u sep) as [-> | Hne].
    + intros [-> | Hin]%elem_of_cons; [intros H; inversion H | by apply IH].
    + destruct (Svg.split_on sep rest) as [| first pieces] eqn:Hsplit.
      * by destruct (split_on_not_nil sep rest).
      * intros [-> | Hin]%elem_of_cons.
        -- intros [Heq | Hin]%elem_of_cons; [congruence |].
           apply (IH first); [by left | done].
        -- apply IH. by right.
Qed.

Lemma drop_spaces_subset (s : Text.jsstring) (u : N) :
  u ∈ Text.drop_spaces s -> u ∈ s.
Proof.
  induction s as [| v rest IH]; [done |]. cbn [Text.drop_spaces].
  destruct (Text.is_space v); [| done]. intros Hin. right. by apply IH.
Qed.

Lemma trim_subset (s : Text.jsstring) (u : N) : u ∈ Text.trim s -> u ∈ s.
Proof.
  unfold Text.trim. rewrite list_elem_of_In, <- in_rev, <- list_elem_of_In. intros Hin.
  apply drop_spaces_subset in Hin.
  rewrite list_elem_of_In, <- in_rev, <- list_elem_of_In in Hin.
  by apply drop_spaces_subset.
Qed.

Lemma sanitized_is_safe (value : option Text.jsstring) (c : Text.jsstring) :
  Text.sanitizeColor value = Some c -> safe_color c.
Proof.
  intros (Heq & Hne & Hcolor)%sanitizeColor_Some.
  split_and!; [done | done |]. by apply escapeXml_plain, color_text_not_special.
Qed.

Lemma truthy_colors_elem (l : list (option Text.jsstring)) (c : Text.jsstring) :
  c ∈ Svg.truthy_colors l -> Some c ∈ l.
Proof.
  unfold Svg.truthy_colors. induction l as [| item l IH]; [intros H; inversion H |].
  cbn [flat_map]. rewrite elem_of_app. intros [Hin | Hin]; [| right; by apply IH].
  destruct item as [[| u rest] |]; [inversion Hin | | inversion Hin].
  apply list_elem_of_singleton in Hin as ->. by left.
Qed.

Lemma or_else_safe (value : option Text.jsstring) (fallback : Text.jsstring) :
  safe_color fallback ->
  safe_color (Svg.or_else (Text.sanitizeColor value) fallback).
Proof.
  intros Hfallback. destruct (Text.sanitizeColor value) as [c |] eqn:Hc; [| done].
  apply sanitized_is_safe in Hc. destruct c as [| u rest]; [done | done].
Qed.

(** X22. The ring of [buildPyqSvg] always has at least two colours, each
    one a non-empty text of colour characters that [escapeXml] leaves as it
    is; none contains a comma, since the [gradient] parameter is cut at
    every comma before its pieces are checked: a colour written
    [rgb(255,0,0)] cannot be given there, its three pieces are taken as
    colours of their own. *)
Theorem gradient_colors_are_safe (gradient : option Text.jsstring) :
  let colors := Svg.gradientColors gradient in
  (2 <= length colors)%nat
  /\ Forall safe_color colors
  /\ Forall (fun c => Svg.c_comma ∉ c) colors.
Proof.
  cbv zeta. unfold Svg.gradientColors.
  set (stops := Svg.truthy_colors _).
  destruct (Nat.leb_spec 2 (length stops)) as [Hlen | Hlen].
  - split; [done |].
    assert (forall c, c ∈ stops ->
              exists piece, piece ∈ Svg.split_on Svg.c_comma (default [] gradient)
                            /\ Text.sanitizeColor (Some piece) = Some c) as Hfrom.
    { intros c Hc. apply truthy_colors_elem, list_elem_of_fmap in Hc as (piece & Heq & Hin).
      eauto. }
    split.
    + apply Forall_forall. intros c (piece & _ & Hsan)%Hfrom.
      by apply (sanitized_is_safe (Some piece)).
    + apply Forall_forall. intros c (piece & Hin & Hsan)%Hfrom Hcomma.
      apply sanitizeColor_Some in Hsan as (-> & _).
      apply trim_subset in Hcomma. by apply (split_on_no_separator _ _ _ Hin).
  - split_and!; [vm_compute; lia | |].
    + unfold Svg.defaultGradient. repeat constructor; by vm_compute.
    + unfold Svg.defaultGradient. repeat constructor;
        apply (bool_decide_eq_false_1 _); by vm_compute.
Qed.

(** ** The options of the QR code *)

(** X23. Whatever the query, the options [GET /ewm] hands to the QR
    library have a content that is not empty and carries no outer white
    space, a width between 64 and 1024, a margin between 0 and 10, and two
    colours that passed [sanitizeColor] or are the defaults. *)
Theorem ewm_options_are_within_limits (text data url : option Text.jsstring)
    (svg : bool) (size margin : option jsval) (dark light : option Text.jsstring)
    (options : Svg.qr_options) :
  Svg.ewm_options text data url svg size margin dark light = Normal (Some options) ->
  Svg.qr_content options <> []
  /\ Text.trim (Svg.qr_content options) = Svg.qr_content options
  /\ Coerce.lessEqual (Coerce.of_Z 64 false) (Svg.qr_width options) = true
  /\ Coerce.lessEqual (Svg.qr_width options) (Coerce.of_Z 1024 false) = true
  /\ Coerce.lessEqual (Coerce.of_Z 0 false) (Svg.qr_margin options) = true
  /\ Coerce.lessEqual (Svg.qr_margin options) (Coerce.of_Z 10 false) = true
  /\ safe_color (Svg.qr_dark options) /\ safe_color (Svg.qr_light options).
Proof.
  unfold Svg.ewm_options. cbv zeta.
  destruct (Text.trim _) as [| u content] eqn:Hcontent; [done |].
  destruct (Coerce.clampInt _ _ _ _) as [finalSize |] eqn:Hsize; [| done].
  destruct (Coerce.clampInt (default _ margin) _ _ _) as [finalMargin |] eqn:Hmargin;
    [| done].
  intros [= <-]. cbn [Svg.qr_content Svg.qr_width Svg.qr_margin Svg.qr_dark Svg.qr_light].
  apply clampInt_range in Hsize as [? ?]; [| by vm_compute ..].
  apply clampInt_range in Hmargin as [? ?]; [| by vm_compute ..].
  split_and!; try done.
  - rewrite <- Hcontent. apply trim_idempotent.
  - apply or_else_safe. split_and!; by vm_compute.
  - apply or_else_safe. split_and!; by vm_compute.
Qed.

Lemma ewm_options_witness :
  exists options,
    Svg.ewm_options (Some (Text.text " hello ")) None None true
      (Some (VString false (Coerce.of_Z 5000 false))) None
      (Some (Text.text "red;")) None = Normal (Some options)
    /\ Svg.qr_content options = Text.text "hello"
    /\ Svg.qr_width options = Coerce.of_Z 1024 false
    /\ Svg.qr_dark options = Text.text "#000000"
    /\ Coerce.lessEqual (Svg.qr_margin options) (Coerce.of_Z 10 false) = true.
Proof.
  eexists. split; [vm_compute; reflexivity |].
  split_and!; [reflexivity | reflexivity | reflexivity |].
  eapply (ewm_options_are_within_limits (Some (Text.text " hello ")) None None true
            (Some (VString false (Coerce.of_Z 5000 false))) None
            (Some (Text.text "red;")) None).
  vm_compute. reflexivity.
Defined.

(** ** The badge *)

Lemma badge_dynamic (startDate endDate : Calculator.date_value)
    (totalCost remaining : option jsval) (daysValue : jsval) (now : float)
    (b : Badge.badge) :
  Badge.badge_handler startDate endDate totalCost remaining (Some daysValue) now =
    Badge.Svg b ->
  exists start cost totalDaysNum,
    startDate = Calculator.DateTime start /\ Coerce.isNaN start = false
    /\ isFinite cost = true /\ lessThan pos_zero cost = true
    /\ Coerce.parseNumber daysValue = Normal totalDaysNum
    /\ Badge.dynamic cost totalDaysNum start now = Badge.Svg b.
Proof.
  unfold Badge.badge_handler.
  destruct (negb (Badge.given startDate) || negb (Badge.given endDate)); [done |].
  destruct totalCost as [costValue |]; [| done].
  destruct startDate as [| start |]; [done | | done].
  destruct (Coerce.isNaN start) eqn:Hstart; [done |].
  destruct endDate as [| end_ |]; [done | | done].
  destruct (Coerce.isNaN end_); [done |].
  destruct (lessThan end_ start); [done |].
  destruct (Coerce.parseNumber costValue) as [[cost |] |] eqn:Hcost; [| done | done].
  destruct (Coerce.lessEqual cost pos_zero) eqn:Hpositive; [done |].
  destruct (Coerce.parseNumber (default VUndefined remaining)); [| done].
  destruct (Coerce.parseNumber daysValue) as [totalDaysNum |]; [| done].
  intros Hb. exists start, cost, totalDaysNum.
  assert (isFinite cost = true) as Hfinite.
  { unfold Coerce.parseNumber in Hcost. destruct (ToNumber costValue) as [x |]; [| done].
    destruct (isFinite x) eqn:Hx; [| done]. by injection Hcost as <-. }
  split_and!; try done.
  apply not_lessEqual_lessThan in Hpositive; [done | by apply isFinite_not_NaN | done].
Qed.

Lemma dynamic_days (cost start now : float) (totalDaysNum : option float)
    (b : Badge.badge) :
  Badge.dynamic cost totalDaysNum start now = Badge.Svg b ->
  exists m e, totalDaysNum = Some (S754_finite false m e).
Proof.
  unfold Badge.dynamic.
  destruct totalDaysNum as [x |]; [| done].
  destruct (negb (Badge.isInteger (Some x))) eqn:Hint; [done |].
  destruct (Coerce.lessEqual x pos_zero) eqn:Hle; [done |]. intros _.
  destruct x as [[] | [] | | [] m e]; try done. eauto.
Qed.



Lemma badge_static (startDate endDate : Calculator.date_value)
    (totalCost remaining : option jsval) (now : float) (b : Badge.badge) :
  Badge.badge_handler startDate endDate totalCost remaining None now = Badge.Svg b ->
  exists cost value,
    isFinite cost = true /\ lessThan pos_zero cost = true
    /\ (exists costValue, totalCost = Some costValue
                          /\ Coerce.parseNumber costValue = Normal (Some cost))
    /\ Coerce.parseNumber (default VUndefined remaining) = Normal (Some value)
    /\ Badge.static cost (Some value) = Badge.Svg b.
Proof.
  unfold Badge.badge_handler.
  destruct (negb (Badge.given startDate) || negb (Badge.given endDate)); [done |].
  destruct totalCost as [costValue |]; [| done].
  destruct startDate as [| start |]; [done | | done].
  destruct (Coerce.isNaN start) eqn:Hstart; [done |].
  destruct endDate as [| end_ |]; [done | | done].
  destruct (Coerce.isNaN end_); [done |].
  destruct (lessThan end_ start); [done |].
  destruct (Coerce.parseNumber costValue) as [[cost |] |] eqn:Hcost; [| done | done].
  destruct (Coerce.lessEqual cost pos_zero) eqn:Hpositive; [done |].
  destruct (Coerce.parseNumber (default VUndefined remaining)) as [[value |] |];
    [| done | done].
  intros Hb. exists cost, value.
  assert (isFinite cost = true) as Hfinite.
  { unfold Coerce.parseNumber in Hcost. destruct (ToNumber costValue) as [x |]; [| done].
    destruct (isFinite x) eqn:Hx; [| done]. by injection Hcost as <-. }
  split_and!; eauto.
  apply not_lessEqual_lessThan in Hpositive; [done | by apply isFinite_not_NaN | done].
Qed.



(** X25. A term that starts at this very instant is drawn with a usage of
    ["0.0"] and a green bar of width 0. *)
Theorem new_term_is_drawn_as_unused (endDate : Calculator.date_value)
    (totalCost remaining : option jsval) (daysValue : jsval) (now : float)
    (b : Badge.badge) :
  Badge.badge_handler (Calculator.DateTime now) endDate totalCost remaining
    (Some daysValue) now = Badge.Svg b ->
  isFinite now = true ->
  Badge.shown_usage b = Calculator.FixedDigits 1 false 0
  /\ Badge.bar b = Badge.Green
  /\ Badge.bar_width b = pos_zero.
Proof.
  intros (start' & cost & totalDaysNum & [= <-] & _ & _ & _ & Hparse & Hb)%badge_dynamic
    Hnow.
  destruct (dynamic_days _ _ _ _ _ Hb) as (m & e & ->).
  unfold Badge.dynamic in Hb. destruct (negb _); [done |].
  rewrite (SFsub_same now Hnow) in Hb.
  change (Coerce.lessEqual (S754_finite false m e) pos_zero) with false in Hb.
  assert (Coerce.Math_floor (SFdiv prec emax pos_zero Calculator.MS_PER_DAY) = pos_zero)
    as Hused by (by vm_compute).
  cbv zeta in Hb. rewrite Hused in Hb.
  change (lessThan pos_zero pos_zero) with false in Hb.
  change (Badge.Math_min pos_zero (S754_finite false m e)) with pos_zero in Hb.
  change (SFdiv prec emax pos_zero (S754_finite false m e)) with pos_zero in Hb.
  unfold Badge.draw in Hb. cbv zeta in Hb. injection Hb as <-.
  cbn [Badge.shown_usage Badge.bar Badge.bar_width].
  split_and!; by vm_compute.
Qed.

Lemma new_term_witness :
  exists b,
    Badge.badge_handler (Calculator.DateTime sample_start) (Calculator.DateTime sample_end)
      (Some (VString false (Coerce.of_Z 100 false))) None
      (Some (VString false (Coerce.of_Z 30 false))) sample_start = Badge.Svg b
    /\ Badge.shown_usage b = Calculator.FixedDigits 1 false 0
    /\ Badge.bar b = Badge.Green
    /\ Badge.bar_width b = pos_zero.
Proof.
  eexists. split; [vm_compute; reflexivity |].
  eapply (new_term_is_drawn_as_unused (Calculator.DateTime sample_end)
            (Some (VString false (Coerce.of_Z 100 false))) None
            (VString false (Coerce.of_Z 30 false)) sample_start).
  - vm_compute. reflexivity.
  - reflexivity.
Defined.

(** X26. Without [totalDays] the usage is computed from the remaining
    value of the query: a remaining value equal to the total cost gives a
    usage of ["0.0"] and a green bar of width 0, a remaining value of zero
    a usage of ["100.0"] and a red bar of width 200. *)
Theorem static_badge_at_the_ends (startDate endDate : Calculator.date_value)
    (costValue remainingValue : jsval) (cost value now : float) (b : Badge.badge) :
  Badge.badge_handler startDate endDate (Some costValue) (Some remainingValue) None now =
    Badge.Svg b ->
  Coerce.parseNumber costValue = Normal (Some cost) ->
  Coerce.parseNumber remainingValue = Normal (Some value) ->
  (value = cost ->
   Badge.shown_usage b = Calculator.FixedDigits 1 false 0 /\ Badge.bar b = Badge.Green
   /\ Badge.bar_width b = pos_zero)
  /\ (forall s, value = S754_zero s ->
      Badge.shown_usage b = Calculator.FixedDigits 1 false 1000 /\ Badge.bar b = Badge.Red
      /\ Badge.bar_width b = Coerce.of_Z 200 false).
Proof.
  intros (cost' & value' & Hfinite & Hpositive & (cv & [= <-] & Hcv) & Hrv & Hb)%badge_static
    Hcost Hvalue.
  change (default VUndefined (Some remainingValue)) with remainingValue in Hrv.
  rewrite Hcost in Hcv. rewrite Hvalue in Hrv.
  injection Hcv as <-. injection Hrv as <-.
  destruct (positive_finite_shape cost Hfinite Hpositive) as (m & e & Hshape).
  unfold Badge.static, Badge.draw in Hb. cbv zeta in Hb. injection Hb as <-.
  cbn [Badge.shown_usage Badge.bar Badge.bar_width]. split.
  - intros ->. rewrite (SFsub_same cost Hfinite), Hshape.
    change (SFdiv prec emax pos_zero (S754_finite false m e)) with pos_zero.
    split_and!; by vm_compute.
  - intros s ->. rewrite Hshape.
    change (SFsub prec emax (S754_finite false m e) (S754_zero s))
      with (S754_finite false m e).
    rewrite SFdiv_self. split_and!; by vm_compute.
Qed.

Lemma static_badge_witness :
  exists b,
    Badge.badge_handler (Calculator.DateTime sample_start) (Calculator.DateTime sample_end)
      (Some (VString false (Coerce.of_Z 100 false)))
      (Some (VString false (Coerce.of_Z 100 false))) None sample_start = Badge.Svg b
    /\ Badge.shown_usage b = Calculator.FixedDigits 1 false 0
    /\ Badge.bar b = Badge.Green
    /\ Badge.bar_width b = pos_zero.
Proof.
  eexists. split; [vm_compute; reflexivity |].
  eapply (static_badge_at_the_ends (Calculator.DateTime sample_start)
            (Calculator.DateTime sample_end)
            (VString false (Coerce.of_Z 100 false)) (VString false (Coerce.of_Z 100 false))
            (Coerce.of_Z 100 false) (Coerce.of_Z 100 false) sample_start).
  - vm_compute. reflexivity.
  - vm_compute. reflexivity.
  - vm_compute. reflexivity.
  - reflexivity.
Defined.
